(** * Length-limited canonical Huffman code lengths, in place

    Shallow embedding of [src/compression/bzip2/huffman-allocator.ts].

    Numbers.  The buffer holds JavaScript numbers.  On integers of absolute
    value below 2^53 their sum, comparison and remainder are the exact
    integer ones, so a slot is a [Z]; [%] is the truncating remainder
    [Z.rem].  The operators [>>] and [<<] work on 32-bit integers: their
    wrap-around is written out with [toInt32].  Weights are added in
    pass 1 only, and a sum beyond 2^53 is rounded there:
    [setExtendedParentPointers_with] is pass 1 over an addition [plus] of
    the weights, [double_add] is the addition of the doubles, and what is
    stated about the sums is stated for every [plus] that is exact up to
    2^53 ([adds_exactly]).

    Buffer.  The functions of the source share one array and update it in
    place: the array is the state of a small monad.  A store [array[i] = v]
    with [i] negative does not touch the elements of a JavaScript array (an
    ordinary array keeps [v] under the property key [i], a typed array drops
    it); the model leaves the elements alone and records the store in
    [stray].  A read outside [0 .. length-1] and a store at [length] or
    beyond are not modelled any further: they stop the computation with
    [OutOfBounds].  A loop whose exit depends on the contents of the buffer
    runs on fuel and stops with [OutOfFuel] when the fuel is used up.
    Only for [first] and [findNodesToRelocate], which are looked at on any
    arguments, the reads outside are followed up: [first_any] and
    [findNodesToRelocate_any] read [undefined] there and go on as
    JavaScript does.

    Results.  Pass 1 leaves a tree on every buffer of three slots or more
    ([setExtendedParentPointers_tree]), and on a tree [first] computes
    [low] ([first_low]).  With [maximumLength] at least [ceil(log2(n))] the
    entry point returns, overwrites every slot, and leaves lengths from [1]
    to [maximumLength] that never go up ([alloc_any]); with [maximumLength]
    above [ceil(log2(n))] every access stays within the buffer and the
    Kraft sum is [1].  With [maximumLength = ceil(log2(n))] the insert depth
    can be [0]: stores then go to negative indices and the Kraft sum
    exceeds [1].  None of this needs the frequencies to be sorted.

    Further on.  Pass 1 keeps the total weight
    ([setExtendedParentPointers_weight]).  A limit that the unlimited
    lengths respect changes nothing ([alloc_fits]), and a limit that cuts
    is reached ([relocation_deep]).  A turn of the limited assigner is
    described once ([anlr_turn]); from it: the stores below the buffer
    happen exactly with insert depth [0], at the indices [-1] and [-2]
    only, and exactly then the Kraft sum is above [1] ([alloc_stray],
    [alloc_stray_few], [alloc_kraft]).  Multiplying the frequencies by a
    constant changes nothing ([alloc_scaled]): pass 1 makes the same
    choices, and passes 2 and 3 read the pointers only.

    On any arguments.  [first_any] and [findNodesToRelocate_any] store
    nothing, and they return as long as no sum of two indices leaves the
    32-bit integers ([first_any_returns],
    [findNodesToRelocate_any_returns]; [first_any_wraps] is a call that
    does not return).  A call of [first] or [findNodesToRelocate] that
    returns is a call of them ([first_any_agrees],
    [findNodesToRelocate_any_agrees]).  On frequencies that are not
    negative and add up to 2^53 at most every sum of pass 1 is exact
    ([setExtendedParentPointers_with_exact]); beyond, the sums are
    rounded ([setExtendedParentPointers_rounds], [scaling_rounds]). *)

From Stdlib Require Import ZArith List Lia Bool.
From stdpp Require Import base list.
Import ListNotations.
Open Scope Z_scope.

(** ** Outcomes and the buffer monad *)

Inductive outcome (A : Type) : Type :=
| Ret (a : A)
| OutOfBounds (idx : Z)
| OutOfFuel.
Arguments Ret {A} a.
Arguments OutOfBounds {A} idx.
Arguments OutOfFuel {A}.

Record buffer : Type := Buffer {
  elems : list Z;          (* array[0 .. length-1] *)
  stray : list (Z * Z)     (* stores at negative indices, latest first *)
}.

Definition of_list (l : list Z) : buffer := Buffer l [].

Definition M (A : Type) : Type := buffer -> outcome (A * buffer).

Definition ret {A} (a : A) : M A := fun s => Ret (a, s).

Definition bind {A B} (m : M A) (f : A -> M B) : M B :=
  fun s => match m s with
           | Ret (a, s') => f a s'
           | OutOfBounds i => OutOfBounds i
           | OutOfFuel => OutOfFuel
           end.

Definition out_of_fuel {A} : M A := fun _ => OutOfFuel.

Notation "'let*' x ':=' m 'in' k" := (bind m (fun x => k))
  (at level 10, x name, m at level 100, k at level 200, only parsing).
Notation "'let*' ' pat ':=' m 'in' k" :=
  (bind m (fun x => let 'pat := x in k))
  (at level 10, pat pattern, m at level 100, k at level 200, only parsing).
Notation "'do' m 'in' k" := (bind m (fun _ => k))
  (at level 10, m at level 100, k at level 200, only parsing).

Definition len_of (s : buffer) : Z := Z.of_nat (length (elems s)).

(** [array.length] *)
Definition array_length : M Z := fun s => Ret (len_of s, s).

Definition in_bounds (s : buffer) (i : Z) : bool :=
  (0 <=? i) && (i <? len_of s).

(** [array[i]] as an r-value *)
Definition read (i : Z) : M Z :=
  fun s => if in_bounds s i
           then match elems s !! Z.to_nat i with
                | Some v => Ret (v, s)
                | None => OutOfBounds i
                end
           else OutOfBounds i.

(** [array[i] = v] *)
Definition write (i v : Z) : M unit :=
  fun s => if in_bounds s i
           then Ret (tt, Buffer (<[Z.to_nat i := v]> (elems s)) (stray s))
           else if i <? 0
                then Ret (tt, Buffer (elems s) ((i, v) :: stray s))
                else OutOfBounds i.

(** ** 32-bit operators *)

Definition toInt32 (x : Z) : Z := (x + 2 ^ 31) mod 2 ^ 32 - 2 ^ 31.

(** [x >> c] *)
Definition sar (x c : Z) : Z := Z.shiftr (toInt32 x) (c mod 32).

(** [x << c] *)
Definition shl (x c : Z) : Z := toInt32 (Z.shiftl (toInt32 x) (c mod 32)).

(** Modelled from the spec: [Util.fls] of [./util], which is not part of the
    sources at hand.  The spec calls it find-last-set, the position of the
    highest set bit, with [maximumLength - fls(v)] equal to
    [maximumLength - floor(log2 v) - 1]; it leaves the value at [0] open,
    and [0] is taken here as find-last-set has it. *)
Definition fls (v : Z) : Z := if v <=? 0 then 0 else Z.log2 v + 1.

(** Fuel.  The entry point hands its [fuel] to every loop it reaches: each
    [while] loop may take [fuel] turns, and a loop that calls [first] hands
    it [inner], the fuel of the entry point, again. *)

(** ** FIRST *)

(** The galloping loop of [first]: [while ((i >= nodesToMove) &&
    ((array[i] % length) > limit))]. *)
Fixpoint first_gallop (fuel : nat) (len limit nodesToMove i k : Z)
  : M (Z * Z) :=
  match fuel with
  | O => out_of_fuel
  | S fuel' =>
      if i >=? nodesToMove then
        let* x := read i in
        if Z.rem x len >? limit
        then first_gallop fuel' len limit nodesToMove (i - (limit - i + 1)) i
        else ret (i, k)
      else ret (i, k)
  end.

(** The bisection loop of [first]: [while (k > (i + 1))]. *)
Fixpoint first_bisect (fuel : nat) (len limit i k : Z) : M Z :=
  match fuel with
  | O => out_of_fuel
  | S fuel' =>
      if k >? i + 1 then
        let temp := sar (i + k) 1 in
        let* x := read temp in
        if Z.rem x len >? limit
        then first_bisect fuel' len limit i temp
        else first_bisect fuel' len limit temp k
      else ret k
  end.

Definition first (fuel : nat) (i nodesToMove : Z) : M Z :=
  let* len := array_length in
  let limit := i in
  let k := len - 2 in
  let* '(i, k) := first_gallop fuel len limit nodesToMove i k in
  let i := Z.max (nodesToMove - 1) i in
  first_bisect fuel len limit i k.

(** ** Pass 1: extended parent pointers *)

(** [(topNode >= length) || (array[headNode] < array[topNode])] *)
Definition spp_test1 (len headNode topNode : Z) : M bool :=
  if topNode >=? len then ret true
  else let* a := read headNode in
       let* b := read topNode in
       ret (a <? b).

(** [(topNode >= length) ||
     ((headNode < tailNode) && (array[headNode] < array[topNode]))] *)
Definition spp_test2 (len headNode tailNode topNode : Z) : M bool :=
  if topNode >=? len then ret true
  else if headNode <? tailNode then
         let* a := read headNode in
         let* b := read topNode in
         ret (a <? b)
       else ret false.

(** The first [if] of a turn: the lighter of the next internal node and the
    next leaf.  The result is [temp], [headNode] and [topNode]. *)
Definition spp_pick1 (len headNode tailNode topNode : Z) : M (Z * Z * Z) :=
  let* c := spp_test1 len headNode topNode in
  if (c : bool) then
    let* temp := read headNode in
    do write headNode tailNode in
    ret (temp, headNode + 1, topNode)
  else
    let* temp := read topNode in
    ret (temp, headNode, topNode + 1).

(** The second [if] of a turn. *)
Definition spp_pick2 (len temp headNode tailNode topNode : Z)
  : M (Z * Z * Z) :=
  let* c := spp_test2 len headNode tailNode topNode in
  if (c : bool) then
    let* h := read headNode in
    do write headNode (tailNode + len) in
    ret (temp + h, headNode + 1, topNode)
  else
    let* t := read topNode in
    ret (temp + t, headNode, topNode + 1).

(** One turn of the [for] loop of [setExtendedParentPointers]; the result is
    the new [headNode] and [topNode]. *)
Definition spp_body (len headNode tailNode topNode : Z) : M (Z * Z) :=
  let* '(temp, headNode, topNode) :=
    spp_pick1 len headNode tailNode topNode in
  let* '(temp, headNode, topNode) :=
    spp_pick2 len temp headNode tailNode topNode in
  do write tailNode temp in
  ret (headNode, topNode).

(** The [for] loop itself, [tailNode] going up to [length - 2]; [count] is
    the number of turns left. *)
Fixpoint spp_loop (count : nat) (len headNode tailNode topNode : Z)
  : M unit :=
  match count with
  | O => ret tt
  | S count' =>
      let* '(headNode, topNode) := spp_body len headNode tailNode topNode in
      spp_loop count' len headNode (tailNode + 1) topNode
  end.

Definition setExtendedParentPointers : M unit :=
  let* len := array_length in
  let* a0 := read 0 in
  let* a1 := read 1 in
  do write 0 (a0 + a1) in
  spp_loop (Z.to_nat (len - 1 - 1)) len 0 1 2.

(** ** Pass 2: the number of nodes to relocate *)

Fixpoint fntr_loop (inner fuel : nat)
    (maximumLength currentNode currentDepth : Z) : M Z :=
  match fuel with
  | O => out_of_fuel
  | S fuel' =>
      if (currentDepth <? maximumLength - 1) && (currentNode >? 1) then
        let* currentNode := first inner (currentNode - 1) 0 in
        fntr_loop inner fuel' maximumLength currentNode (currentDepth + 1)
      else ret currentNode
  end.

Definition findNodesToRelocate (fuel : nat) (maximumLength : Z) : M Z :=
  let* len := array_length in
  fntr_loop fuel fuel maximumLength (len - 2) 1.

(** ** Pass 3 *)

(** [for (i = ...; i > 0; i--) array[nextNode--] = currentDepth]; the result
    is the new [nextNode]. *)
Fixpoint write_run (count : nat) (nextNode currentDepth : Z) : M Z :=
  match count with
  | O => ret nextNode
  | S count' =>
      do write nextNode currentDepth in
      write_run count' (nextNode - 1) currentDepth
  end.

Fixpoint anl_loop (inner fuel : nat)
    (firstNode nextNode currentDepth availableNodes : Z) : M unit :=
  match fuel with
  | O => out_of_fuel
  | S fuel' =>
      if availableNodes >? 0 then
        let lastNode := firstNode in
        let* firstNode := first inner (lastNode - 1) 0 in
        let* nextNode :=
          write_run (Z.to_nat (availableNodes - (lastNode - firstNode)))
                    nextNode currentDepth in
        let availableNodes := shl (lastNode - firstNode) 1 in
        anl_loop inner fuel' firstNode nextNode (currentDepth + 1)
                 availableNodes
      else ret tt
  end.

Definition allocateNodeLengths (fuel : nat) : M unit :=
  let* len := array_length in
  anl_loop fuel fuel (len - 2) (len - 1) 1 2.

Fixpoint anlr_loop (inner fuel : nat) (nodesToMove insertDepth : Z)
    (firstNode nextNode currentDepth nodesLeftToMove availableNodes : Z)
  : M unit :=
  match fuel with
  | O => out_of_fuel
  | S fuel' =>
      if availableNodes >? 0 then
        let lastNode := firstNode in
        let* firstNode :=
          (if firstNode <=? nodesToMove then ret firstNode
           else first inner (lastNode - 1) nodesToMove) in
        let* '(offset, firstNode) :=
          (if currentDepth >=? insertDepth then
             ret (Z.min nodesLeftToMove (shl 1 (currentDepth - insertDepth)),
                  firstNode)
           else if currentDepth =? insertDepth - 1 then
             let* x := read firstNode in
             ret (1, if x =? lastNode then firstNode + 1 else firstNode)
           else ret (0, firstNode)) in
        let* nextNode :=
          write_run
            (Z.to_nat (availableNodes - (lastNode - firstNode + offset)))
            nextNode currentDepth in
        let nodesLeftToMove := nodesLeftToMove - offset in
        let availableNodes := shl (lastNode - firstNode + offset) 1 in
        anlr_loop inner fuel' nodesToMove insertDepth
                  firstNode nextNode (currentDepth + 1)
                  nodesLeftToMove availableNodes
      else ret tt
  end.

Definition allocateNodeLengthsWithRelocation (fuel : nat)
    (nodesToMove insertDepth : Z) : M unit :=
  let* len := array_length in
  let firstNode := len - 2 in
  let nextNode := len - 1 in
  let currentDepth := if insertDepth =? 1 then 2 else 1 in
  let nodesLeftToMove :=
    if insertDepth =? 1 then nodesToMove - 2 else nodesToMove in
  anlr_loop fuel fuel nodesToMove insertDepth
            firstNode nextNode currentDepth nodesLeftToMove
            (shl currentDepth 1).

(** ** The entry point *)

Definition allocateHuffmanCodeLengths (fuel : nat) (maximumLength : Z)
  : M unit :=
  let* len := array_length in
  if len =? 2 then do write 1 1 in write 0 1
  else if len =? 1 then write 0 1
  else
    do setExtendedParentPointers in
    let* nodesToRelocate := findNodesToRelocate fuel maximumLength in
    let* a0 := read 0 in
    if Z.rem a0 len >=? nodesToRelocate then
      allocateNodeLengths fuel
    else
      let insertDepth := maximumLength - fls (nodesToRelocate - 1) in
      allocateNodeLengthsWithRelocation fuel nodesToRelocate insertDepth.

(** ** Reads outside the buffer *)

(** A read outside the elements does not stop JavaScript: [array[i]] is
    then [undefined], unless [i] is a negative key that was stored to, whose
    latest value an ordinary array has kept.  (A typed array keeps none:
    it reads as the buffer without stray stores does.) *)
Fixpoint kept (st : list (Z * Z)) (i : Z) : option Z :=
  match st with
  | [] => None
  | (j, v) :: st' => if j =? i then Some v else kept st' i
  end.

(** [array[i]] as an r-value at any index, [None] for [undefined]. *)
Definition load (i : Z) : M (option Z) :=
  fun s => Ret (if in_bounds s i then elems s !! Z.to_nat i
                else if i <? 0 then kept (stray s) i
                     else None,
                s).

(** [(array[i] % length) > limit], with [x] for [array[i]]: the remainder
    of [undefined], and every remainder by [0], is [NaN], and [NaN > limit]
    is false. *)
Definition beyond (x : option Z) (len limit : Z) : bool :=
  match x with
  | Some v => if len =? 0 then false else Z.rem v len >? limit
  | None => false
  end.

(** [first] and [findNodesToRelocate] once more, line by line as above,
    with [load] for [read]: they are defined on every buffer and for all
    integers [i], [nodesToMove] and [maximumLength]. *)
Fixpoint first_gallop_any (fuel : nat) (len limit nodesToMove i k : Z)
  : M (Z * Z) :=
  match fuel with
  | O => out_of_fuel
  | S fuel' =>
      if i >=? nodesToMove then
        let* x := load i in
        if beyond x len limit
        then first_gallop_any fuel' len limit nodesToMove
               (i - (limit - i + 1)) i
        else ret (i, k)
      else ret (i, k)
  end.

Fixpoint first_bisect_any (fuel : nat) (len limit i k : Z) : M Z :=
  match fuel with
  | O => out_of_fuel
  | S fuel' =>
      if k >? i + 1 then
        let temp := sar (i + k) 1 in
        let* x := load temp in
        if beyond x len limit
        then first_bisect_any fuel' len limit i temp
        else first_bisect_any fuel' len limit temp k
      else ret k
  end.

Definition first_any (fuel : nat) (i nodesToMove : Z) : M Z :=
  let* len := array_length in
  let limit := i in
  let k := len - 2 in
  let* '(i, k) := first_gallop_any fuel len limit nodesToMove i k in
  let i := Z.max (nodesToMove - 1) i in
  first_bisect_any fuel len limit i k.

Fixpoint fntr_loop_any (inner fuel : nat)
    (maximumLength currentNode currentDepth : Z) : M Z :=
  match fuel with
  | O => out_of_fuel
  | S fuel' =>
      if (currentDepth <? maximumLength - 1) && (currentNode >? 1) then
        let* currentNode := first_any inner (currentNode - 1) 0 in
        fntr_loop_any inner fuel' maximumLength currentNode
                      (currentDepth + 1)
      else ret currentNode
  end.

Definition findNodesToRelocate_any (fuel : nat) (maximumLength : Z) : M Z :=
  let* len := array_length in
  fntr_loop_any fuel fuel maximumLength (len - 2) 1.

(** ** The additions of pass 1 *)

(** JavaScript adds numbers as IEEE 754 doubles: a sum of integers is
    exact up to [2^53] and rounded beyond.  Pass 1 once more, line by line
    as above, with the addition of the weights as a parameter [plus]; the
    indices it adds stay below twice the length. *)
Definition spp_pick2_with (plus : Z -> Z -> Z)
    (len temp headNode tailNode topNode : Z) : M (Z * Z * Z) :=
  let* c := spp_test2 len headNode tailNode topNode in
  if (c : bool) then
    let* h := read headNode in
    do write headNode (tailNode + len) in
    ret (plus temp h, headNode + 1, topNode)
  else
    let* t := read topNode in
    ret (plus temp t, headNode, topNode + 1).

Definition spp_body_with (plus : Z -> Z -> Z)
    (len headNode tailNode topNode : Z) : M (Z * Z) :=
  let* '(temp, headNode, topNode) :=
    spp_pick1 len headNode tailNode topNode in
  let* '(temp, headNode, topNode) :=
    spp_pick2_with plus len temp headNode tailNode topNode in
  do write tailNode temp in
  ret (headNode, topNode).

Fixpoint spp_loop_with (plus : Z -> Z -> Z) (count : nat)
    (len headNode tailNode topNode : Z) : M unit :=
  match count with
  | O => ret tt
  | S count' =>
      let* '(headNode, topNode) :=
        spp_body_with plus len headNode tailNode topNode in
      spp_loop_with plus count' len headNode (tailNode + 1) topNode
  end.

Definition setExtendedParentPointers_with (plus : Z -> Z -> Z) : M unit :=
  let* len := array_length in
  let* a0 := read 0 in
  let* a1 := read 1 in
  do write 0 (plus a0 a1) in
  spp_loop_with plus (Z.to_nat (len - 1 - 1)) len 0 1 2.

(** The entry point over pass 1 with [plus]; passes 2 and 3 add no
    weights. *)
Definition allocateHuffmanCodeLengths_with (plus : Z -> Z -> Z)
    (fuel : nat) (maximumLength : Z) : M unit :=
  let* len := array_length in
  if len =? 2 then do write 1 1 in write 0 1
  else if len =? 1 then write 0 1
  else
    do setExtendedParentPointers_with plus in
    let* nodesToRelocate := findNodesToRelocate fuel maximumLength in
    let* a0 := read 0 in
    if Z.rem a0 len >=? nodesToRelocate then
      allocateNodeLengths fuel
    else
      let insertDepth := maximumLength - fls (nodesToRelocate - 1) in
      allocateNodeLengthsWithRelocation fuel nodesToRelocate insertDepth.

(** The double nearest to the integer [x], below the overflow of the
    doubles: 53 significant bits are kept, and a tie goes to the even
    significand. *)
Definition round_double (x : Z) : Z :=
  let a := Z.abs x in
  let e := Z.log2 a - 52 in
  if e <=? 0 then x
  else
    let q := a / 2 ^ e in
    let r := a mod 2 ^ e in
    let up := if 2 * r <? 2 ^ e then false
              else if 2 ^ e <? 2 * r then true
              else Z.odd q in
    Z.sgn x * ((if up then q + 1 else q) * 2 ^ e).

(** [x + y] on doubles that hold integers. *)
Definition double_add (x y : Z) : Z := round_double (x + y).
(** ** Notions the statements are written with *)

(** A computation leaves the buffer as it found it. *)
Definition unchanged {A} (m : M A) (s : buffer) : Prop :=
  match m s with
  | Ret (_, s') => s' = s
  | _ => True
  end.

(** The code lengths [l] from index [0] on never go up. *)
Definition non_increasing (l : list Z) : Prop :=
  forall (i : nat) (x y : Z), l !! i = Some x -> l !! S i = Some y -> y <= x.

(** Frequencies: not negative, and in non-decreasing order. *)
Definition sorted_frequencies (l : list Z) : Prop :=
  forall (i j : nat) (x y : Z),
    (i <= j)%nat -> l !! i = Some x -> l !! j = Some y -> 0 <= x <= y.

(** [maximumLength >= ceil(log2(n))] *)
Definition long_enough (maximumLength : Z) (l : list Z) : Prop :=
  Z.log2_up (Z.of_nat (length l)) <= maximumLength.

(** The Kraft sum of the lengths [l], times [2 ^ scale]. *)
Definition kraft_scaled (scale : Z) (l : list Z) : Z :=
  fold_right (fun x acc => 2 ^ (scale - x) + acc) 0 l.

(** Kraft equality: the sum of [2 ^ -x] over [l] is [1].  A length is at
    least [0]; the scale is the longest length, which keeps every term an
    integer. *)
Definition kraft_equality (l : list Z) : Prop :=
  Forall (fun x => 0 <= x) l /\
  kraft_scaled (fold_right Z.max 0 l) l = 2 ^ fold_right Z.max 0 l.


(** The buffer [s] is what pass 1 leaves of some buffer of three slots or
    more. *)
Definition post_pass1 (s : buffer) : Prop :=
  exists s0 : buffer,
    3 <= len_of s0 /\ stray s0 = [] /\
    setExtendedParentPointers s0 = Ret (tt, s).

(** [k] is the smallest index with [nodesToMove <= k <= i] and
    [array[k] % n > i]. *)
Definition smallest_beyond (s : buffer) (i nodesToMove k : Z) : Prop :=
  nodesToMove <= k <= i /\
  (exists x, elems s !! Z.to_nat k = Some x /\ Z.rem x (len_of s) > i) /\
  forall k' x', nodesToMove <= k' <= i ->
                elems s !! Z.to_nat k' = Some x' ->
                Z.rem x' (len_of s) > i -> k <= k'.

(** A computation keeps the length of the buffer. *)
Definition keeps_len {A} (m : M A) : Prop :=
  forall s a s', m s = Ret (a, s') -> len_of s' = len_of s.


(** A check that decides [sorted_frequencies] from left to right. *)
Fixpoint sorted_from (lo : Z) (l : list Z) : bool :=
  match l with
  | [] => true
  | x :: t => (lo <=? x) && sorted_from x t
  end.

(** ** The shape of the buffer after pass 1 *)

(** The value of slot [k]. *)
Definition slot (s : buffer) (k : Z) : Z :=
  default 0 (elems s !! Z.to_nat k).

(** The buffer with slot [k] set to [v]. *)
Definition upd (s : buffer) (k v : Z) : buffer :=
  Buffer (<[Z.to_nat k := v]> (elems s)) (stray s).

(** The parent of the internal node [k], decoded as [first] decodes it. *)
Definition parent (s : buffer) (k : Z) : Z := Z.rem (slot s k) (len_of s).

(** The slots [0 .. h-1] hold extended parent pointers, to parents below
    [t]: each parent lies above its child, the parents go up with the
    index, a slot holds its parent or its parent plus the length, and of two
    neighbours with one parent the first holds the parent itself, the second
    the parent plus the length. *)
Record pointers (s : buffer) (h t : Z) : Prop := {
  ptr_parent : forall k, 0 <= k < h -> k < parent s k < t;
  ptr_slot : forall k, 0 <= k < h ->
               slot s k = parent s k \/ slot s k = parent s k + len_of s;
  ptr_mono : forall k, 0 <= k -> k + 1 < h -> parent s k <= parent s (k + 1);
  ptr_pair : forall k, 0 <= k -> k + 1 < h ->
               parent s k = parent s (k + 1) ->
               slot s k = parent s k /\
               slot s (k + 1) = parent s k + len_of s
}.

(** The state of the loop of pass 1 at the head of the turn for
    [tailNode = t]. *)
Record spp_inv (s : buffer) (h t p : Z) : Prop := {
  spi_sum : h + p = 2 * t;
  spi_head : 0 <= h < t;
  spi_top : p <= len_of s;
  spi_tail : 1 <= t <= len_of s - 1;
  spi_ptr : pointers s h t
}.

(** The buffer as pass 1 leaves it: the internal nodes [0 .. n-3] hold
    pointers to parents up to the root [n-2]. *)
Record tree_shape (s : buffer) : Prop := {
  ts_len : 3 <= len_of s;
  ts_ptr : pointers s (len_of s - 2) (len_of s - 1)
}.

(** Buffers short enough for the 32-bit operators of the source. *)
Definition fits_int32 (s : buffer) : Prop := len_of s < 2 ^ 30.

(** ** What [first] computes *)

(** Going up from [k], the first index whose parent lies beyond [limit];
    [count] indices are tried. *)
Fixpoint scan (s : buffer) (limit : Z) (count : nat) (k : Z) : Z :=
  match count with
  | O => k
  | S count' =>
      if parent s k >? limit then k else scan s limit count' (k + 1)
  end.

(** The smallest index from [nodesToMove] to [limit] whose parent lies
    beyond [limit], and [limit + 1] when there is none. *)
Definition low (s : buffer) (limit nodesToMove : Z) : Z :=
  scan s limit (Z.to_nat (limit + 1 - nodesToMove)) nodesToMove.

(** ** The levels of the tree *)

(** With [G] the first internal node of a level, the first internal node
    of the level below. *)
Definition natstep (s : buffer) (G : Z) : Z := low s (G - 1) 0.

(** [j] levels down. *)
Fixpoint natsteps (s : buffer) (j : nat) (G : Z) : Z :=
  match j with
  | O => G
  | S j' => natsteps s j' (natstep s G)
  end.

(** The buffer [s] has the length of [s1] and its slots up to [nx]. *)
Definition agree (s1 s : buffer) (nx : Z) : Prop :=
  len_of s = len_of s1 /\ forall k, 0 <= k <= nx -> slot s k = slot s1 k.

(** The slots above [nx] hold code lengths from [lo] to [hi] that never go
    up. *)
Definition tail_ok (s : buffer) (nx lo hi : Z) : Prop :=
  forall q, nx < q -> 0 <= q <= len_of s - 1 ->
            lo <= slot s q <= hi /\
            (q < len_of s - 1 -> slot s (q + 1) <= slot s q).

(** The Kraft sum, times [2 ^ K], of the lengths in the slots above [nx]. *)
Definition written_weight (K : Z) (s : buffer) (nx : Z) : Z :=
  kraft_scaled K (drop (Z.to_nat (nx + 1)) (elems s)).

(** ** The invariant of the unlimited assigner *)

(** The state at the head of a turn of the loop of [allocateNodeLengths],
    run on the tree [s1]: [G] is [firstNode], [nx] is [nextNode], [d] is
    [currentDepth] and [a] is [availableNodes]. *)
Record anl_inv (s1 : buffer) (maximumLength : Z) (s : buffer)
    (G nx d a : Z) : Prop := {
  ai_agree : agree s1 s nx;
  ai_stray : stray s = stray s1;
  ai_first : 0 <= G <= len_of s1 - 2;
  ai_avail : 0 <= a;
  ai_count : nx + 1 = a + G;
  ai_next : nx <= len_of s1 - 1;
  ai_depth : 1 <= d <= maximumLength + 1;
  ai_tail : tail_ok s nx 1 (d - 1);
  ai_done : a = 0 -> G = 0;
  ai_room : 0 < a ->
            exists U, G < U <= len_of s1 - 1 /\ a = 2 * (U - G) /\
                      forall k, 0 <= k < G -> parent s1 k < U;
  ai_reach : 0 < a ->
             d <= maximumLength /\
             natsteps s1 (Z.to_nat (maximumLength - d)) G = 0;
  ai_kraft : written_weight maximumLength s nx
             + a * 2 ^ (maximumLength - d) = 2 ^ maximumLength
}.

(** ** The invariant of the limited assigner *)

(** [a] available nodes are enough for the internal nodes that can make up
    the next level below [G], with [r] more. *)
Definition room (s1 : buffer) (nodesToMove G r a : Z) : Prop :=
  forall X, nodesToMove <= X <= G ->
            (forall k, X <= k < G -> G <= parent s1 k) ->
            G - X + r <= a.

(** Above the insert depth the walk follows the tree: [U] is the first
    node of the level before, and [G] reaches [nodesToMove] in as many
    levels as pass 2 counted. *)
Definition natural_levels (s1 : buffer) (maximumLength nodesToMove : Z)
    (G d left a delta : Z) : Prop :=
  left = nodesToMove /\ delta = 0 /\
  natsteps s1 (Z.to_nat (maximumLength - 1 - d)) G = nodesToMove /\
  exists U, G < U <= len_of s1 - 1 /\ a = 2 * (U - G) /\
            forall k, 0 <= k < G -> parent s1 k < U.

(** From the insert depth on, relocated nodes are inserted, twice as many
    at each level. *)
Definition moving_levels (s1 : buffer)
    (maximumLength nodesToMove insertDepth : Z)
    (G d left a delta : Z) : Prop :=
  natsteps s1 (Z.to_nat (maximumLength - d)) G <= nodesToMove /\
  left <= 2 ^ (maximumLength - insertDepth) - 2 ^ (d - insertDepth) /\
  nodesToMove - left + delta <= 2 ^ (d - insertDepth) /\
  (2 ^ (d - insertDepth) <= a \/ G = nodesToMove) /\
  (room s1 nodesToMove G (Z.min left (2 ^ (d - insertDepth))) a \/
   (insertDepth = 0 /\ d = 1 /\ a = 2 /\ G = len_of s1 - 2 /\
    left = nodesToMove /\ delta = 0)).

(** The state at the head of a turn of the loop of
    [allocateNodeLengthsWithRelocation], run on the tree [s1]: [G] is
    [firstNode], [nx] is [nextNode], [d] is [currentDepth], [left] is
    [nodesLeftToMove] and [a] is [availableNodes]; [delta] counts the
    nodes made available without a parent. *)
Record anlr_inv (s1 : buffer) (maximumLength nodesToMove insertDepth : Z)
    (s : buffer) (G nx d left a delta : Z) : Prop := {
  ri_agree : agree s1 s nx;
  ri_stray : delta = 0 -> stray s = stray s1;
  ri_first : nodesToMove <= G <= len_of s1 - 2;
  ri_avail : 0 <= a;
  ri_left : 0 <= left;
  ri_delta : 0 <= delta <= 2;
  ri_exact : 1 <= insertDepth -> delta = 0;
  ri_count : nx + 1 + delta = a + (G - nodesToMove) + left;
  ri_next : nx <= len_of s1 - 1;
  ri_depth : 1 <= d <= maximumLength + 1;
  ri_tail : tail_ok s nx 1 (d - 1);
  ri_done : a = 0 -> G = nodesToMove /\ left = 0;
  ri_cap : 0 < a -> d <= maximumLength;
  ri_natural : 0 < a -> d < insertDepth ->
               natural_levels s1 maximumLength nodesToMove G d left a delta;
  ri_moving : 0 < a -> insertDepth <= d ->
              moving_levels s1 maximumLength nodesToMove insertDepth
                            G d left a delta;
  ri_kraft : delta = 0 ->
             written_weight maximumLength s nx
             + a * 2 ^ (maximumLength - d) = 2 ^ maximumLength
}.

(** ** Weights in pass 1 *)

(** The sum of the [count] slots from [a] on. *)
Fixpoint slots_sum (s : buffer) (a : Z) (count : nat) : Z :=
  match count with
  | O => 0
  | S count' => slot s a + slots_sum s (a + 1) count'
  end.

(** The sum of the slots [a .. b-1]. *)
Definition range_sum (s : buffer) (a b : Z) : Z :=
  slots_sum s a (Z.to_nat (b - a)).

(** The sum of the frequencies [l]. *)
Definition total (l : list Z) : Z := fold_right Z.add 0 l.

(** ** Two runs side by side *)

(** The buffer [t] is the buffer [s] with the weights multiplied by [c]:
    the slots below [h] hold pointers and are the same, the slots from [h]
    on hold weights. *)
Definition scaled (c : Z) (s t : buffer) (h : Z) : Prop :=
  len_of t = len_of s /\ stray t = stray s /\
  (forall k, 0 <= k < h -> slot t k = slot s k) /\
  (forall k, h <= k -> slot t k = c * slot s k).

(** The buffers [s] and [t] differ in the slots up to [nx] at most. *)
Definition same_above (s t : buffer) (nx : Z) : Prop :=
  len_of t = len_of s /\ stray t = stray s /\
  forall k, 0 <= k -> nx < k -> slot t k = slot s k.

(** One turn of the limited assigner, as a function of the tree [s1]: the
    new [firstNode] and the [offset]. *)
Definition turn_first (s1 : buffer) (nodesToMove insertDepth G d : Z) : Z :=
  let fn := if G <=? nodesToMove then G else low s1 (G - 1) nodesToMove in
  if d >=? insertDepth then fn
  else if d =? insertDepth - 1 then
         if slot s1 fn =? G then fn + 1 else fn
       else fn.

Definition turn_offset (insertDepth d left : Z) : Z :=
  if d >=? insertDepth then Z.min left (2 ^ (d - insertDepth))
  else if d =? insertDepth - 1 then 1 else 0.

(** ** Runs that read only *)

(** The run stored nothing and no read stopped it: it returned the buffer
    it was given, or the fuel ran out on the way. *)
Definition reads_only {A} (m : M A) (s : buffer) : Prop :=
  match m s with
  | Ret (_, s') => s' = s
  | OutOfFuel => True
  | OutOfBounds _ => False
  end.

(** ** Exact additions *)

(** [plus] is the sum of two weights as long as the sum does not exceed
    [2^53]. *)
Definition adds_exactly (plus : Z -> Z -> Z) : Prop :=
  forall x y, 0 <= x -> 0 <= y -> x + y <= 2 ^ 53 -> plus x y = x + y.

(** The weights still in the two queues, the internal nodes [h .. t-1] and
    the leaves from [p] on, are not negative and add up to [2^53] at
    most. *)
Definition live_weights (s : buffer) (h t p : Z) : Prop :=
  (forall k, h <= k < t \/ p <= k < len_of s -> 0 <= slot s k) /\
  range_sum s h t + range_sum s p (len_of s) <= 2 ^ 53.
(** * Properties *)

(** ** The monad *)

Lemma bind_inv {A B} (m : M A) (f : A -> M B) s b s'' :
  bind m f s = Ret (b, s'') ->
  exists a s', m s = Ret (a, s') /\ f a s' = Ret (b, s'').
Proof.
  unfold bind. destruct (m s) as [[a s']| |]; try discriminate.
  intros H. exists a, s'. split; [reflexivity | exact H].
Qed.

Lemma bind_Ret {A B} (m : M A) (f : A -> M B) s a s' :
  m s = Ret (a, s') -> bind m f s = f a s'.
Proof. unfold bind. intros ->. reflexivity. Qed.

Lemma in_bounds_true s i : in_bounds s i = true <-> 0 <= i < len_of s.
Proof. unfold in_bounds. rewrite andb_true_iff, Z.leb_le, Z.ltb_lt. tauto. Qed.

Lemma in_bounds_false s i : in_bounds s i = false <-> ~ (0 <= i < len_of s).
Proof.
  rewrite <- in_bounds_true. destruct (in_bounds s i); split; congruence.
Qed.

Lemma read_inv i s v s' :
  read i s = Ret (v, s') ->
  s' = s /\ 0 <= i < len_of s /\ elems s !! Z.to_nat i = Some v.
Proof.
  unfold read. destruct (in_bounds s i) eqn:Hb; try discriminate.
  destruct (elems s !! Z.to_nat i) eqn:Hl; try discriminate.
  intros [= <- <-]. apply in_bounds_true in Hb. auto.
Qed.

Lemma lookup_in_range s i :
  0 <= i < len_of s -> exists v, elems s !! Z.to_nat i = Some v.
Proof.
  intros H. apply lookup_lt_is_Some. unfold len_of in H. lia.
Qed.

Lemma read_ok i s v :
  0 <= i -> elems s !! Z.to_nat i = Some v -> read i s = Ret (v, s).
Proof.
  intros Hi Hl. unfold read.
  assert (Hb : in_bounds s i = true).
  { apply in_bounds_true. apply lookup_lt_Some in Hl. unfold len_of. lia. }
  rewrite Hb, Hl. reflexivity.
Qed.

Lemma read_total i s :
  0 <= i < len_of s -> exists v, read i s = Ret (v, s).
Proof.
  intros H. destruct (lookup_in_range s i H) as [v Hv].
  exists v. apply read_ok; [lia | exact Hv].
Qed.

Lemma write_in i v s :
  0 <= i < len_of s ->
  write i v s = Ret (tt, Buffer (<[Z.to_nat i := v]> (elems s)) (stray s)).
Proof.
  intros H. unfold write. apply in_bounds_true in H. rewrite H. reflexivity.
Qed.

Lemma write_below i v s :
  i < 0 -> write i v s = Ret (tt, Buffer (elems s) ((i, v) :: stray s)).
Proof.
  intros H. unfold write.
  assert (Hb : in_bounds s i = false) by (apply in_bounds_false; lia).
  rewrite Hb. apply Z.ltb_lt in H. rewrite H. reflexivity.
Qed.

Lemma write_len i v s s' : write i v s = Ret (tt, s') -> len_of s' = len_of s.
Proof.
  unfold write. destruct (in_bounds s i).
  - intros [= <-]. unfold len_of. simpl. rewrite length_insert. reflexivity.
  - destruct (i <? 0); [|discriminate]. intros [= <-]. reflexivity.
Qed.

(** ** [first] and [findNodesToRelocate] only read *)

Lemma unchanged_ret {A} (a : A) s : unchanged (ret a) s.
Proof. reflexivity. Qed.

Lemma unchanged_bind {A B} (m : M A) (f : A -> M B) s :
  unchanged m s -> (forall a, unchanged (f a) s) -> unchanged (bind m f) s.
Proof.
  unfold unchanged, bind. intros Hm Hf.
  destruct (m s) as [[a s']| |]; auto. subst s'. apply Hf.
Qed.

Lemma unchanged_read i s : unchanged (read i) s.
Proof.
  unfold unchanged, read. destruct (in_bounds s i); auto.
  destruct (elems s !! Z.to_nat i); auto.
Qed.

Lemma unchanged_array_length s : unchanged array_length s.
Proof. reflexivity. Qed.

Lemma unchanged_first_gallop fuel len limit nodesToMove s :
  forall i k, unchanged (first_gallop fuel len limit nodesToMove i k) s.
Proof.
  induction fuel as [|fuel IH]; intros i k; simpl; [exact I|].
  destruct (i >=? nodesToMove); [|apply unchanged_ret].
  apply unchanged_bind; [apply unchanged_read|].
  intros x. destruct (Z.rem x len >? limit); [apply IH | apply unchanged_ret].
Qed.

Lemma unchanged_first_bisect fuel len limit s :
  forall i k, unchanged (first_bisect fuel len limit i k) s.
Proof.
  induction fuel as [|fuel IH]; intros i k; simpl; [exact I|].
  destruct (k >? i + 1); [|apply unchanged_ret].
  apply unchanged_bind; [apply unchanged_read|].
  intros x. destruct (Z.rem x len >? limit); apply IH.
Qed.

Lemma unchanged_first fuel i nodesToMove s :
  unchanged (first fuel i nodesToMove) s.
Proof.
  unfold first.
  apply unchanged_bind; [apply unchanged_array_length|]. intros len.
  apply unchanged_bind; [apply unchanged_first_gallop|]. intros [i' k'].
  apply unchanged_first_bisect.
Qed.

Lemma unchanged_fntr_loop fuel0 maximumLength s :
  forall fuel currentNode currentDepth,
    unchanged (fntr_loop fuel0 fuel maximumLength currentNode currentDepth) s.
Proof.
  induction fuel as [|fuel IH]; intros cn cd; simpl; [exact I|].
  destruct ((cd <? maximumLength - 1) && (cn >? 1)); [|apply unchanged_ret].
  apply unchanged_bind; [apply unchanged_first|]. intros k. apply IH.
Qed.

Lemma unchanged_findNodesToRelocate fuel maximumLength s :
  unchanged (findNodesToRelocate fuel maximumLength) s.
Proof.
  unfold findNodesToRelocate.
  apply unchanged_bind; [apply unchanged_array_length|]. intros len.
  apply unchanged_fntr_loop.
Qed.

Lemma unchanged_Ret {A} (m : M A) s a s' :
  unchanged m s -> m s = Ret (a, s') -> s' = s.
Proof. unfold unchanged. intros H E. rewrite E in H. exact H. Qed.

(** ** The length of the buffer never changes *)

Lemma keeps_len_ret {A} (a : A) : keeps_len (ret a).
Proof. intros s a' s' [= _ <-]. reflexivity. Qed.

Lemma keeps_len_bind {A B} (m : M A) (f : A -> M B) :
  keeps_len m -> (forall a, keeps_len (f a)) -> keeps_len (bind m f).
Proof.
  intros Hm Hf s b s'' H. apply bind_inv in H as (a & s' & H1 & H2).
  rewrite (Hf _ _ _ _ H2). eapply Hm, H1.
Qed.

Lemma keeps_len_read i : keeps_len (read i).
Proof. intros s a s' H. apply read_inv in H as [-> _]. reflexivity. Qed.

Lemma keeps_len_write i v : keeps_len (write i v).
Proof. intros s [] s' H. eapply write_len, H. Qed.

Lemma keeps_len_array_length : keeps_len array_length.
Proof. intros s a s' [= _ <-]. reflexivity. Qed.

Lemma keeps_len_unchanged {A} (m : M A) :
  (forall s, unchanged m s) -> keeps_len m.
Proof.
  intros H s a s' E. rewrite (unchanged_Ret _ _ _ _ (H s) E). reflexivity.
Qed.

Ltac keeps_len_step :=
  repeat first
    [ apply keeps_len_ret | apply keeps_len_read | apply keeps_len_write
    | apply keeps_len_array_length
    | apply keeps_len_bind; [| intros ? ]
    | match goal with
      | |- keeps_len (if ?c then _ else _) => destruct c
      | |- keeps_len (let '(_, _) := ?p in _) => destruct p
      end ].

Lemma keeps_len_spp_body len h t p : keeps_len (spp_body len h t p).
Proof.
  unfold spp_body, spp_pick1, spp_pick2, spp_test1, spp_test2.
  keeps_len_step.
Qed.

Lemma keeps_len_spp_loop count len :
  forall h t p, keeps_len (spp_loop count len h t p).
Proof.
  induction count as [|count IH]; intros h t p; simpl.
  - apply keeps_len_ret.
  - apply keeps_len_bind; [apply keeps_len_spp_body|].
    intros [h' p']. apply IH.
Qed.

Lemma keeps_len_setExtendedParentPointers :
  keeps_len setExtendedParentPointers.
Proof.
  unfold setExtendedParentPointers. keeps_len_step.
  apply keeps_len_spp_loop.
Qed.

Lemma keeps_len_write_run count :
  forall nextNode d, keeps_len (write_run count nextNode d).
Proof.
  induction count as [|count IH]; intros nx d; simpl.
  - apply keeps_len_ret.
  - apply keeps_len_bind; [apply keeps_len_write | intros _; apply IH].
Qed.

(** ** Sorted frequencies, decided *)

Lemma sorted_from_lower lo l :
  sorted_from lo l = true ->
  forall i x, l !! i = Some x -> lo <= x.
Proof.
  revert lo. induction l as [|a l IH]; intros lo H i x Hx.
  - destruct i; discriminate.
  - simpl in H. apply andb_true_iff in H as [H1 H2]. apply Z.leb_le in H1.
    destruct i as [|i]; simpl in Hx.
    + injection Hx as <-. exact H1.
    + specialize (IH a H2 i x Hx). lia.
Qed.

Lemma sorted_from_ok l : sorted_from 0 l = true -> sorted_frequencies l.
Proof.
  assert (G : forall l lo, 0 <= lo -> sorted_from lo l = true ->
              forall i j x y, (i <= j)%nat -> l !! i = Some x ->
                              l !! j = Some y -> 0 <= x <= y).
  { clear l. induction l as [|a l IH]; intros lo Hlo H i j x y Hij Hx Hy.
    - destruct i; discriminate.
    - pose proof H as H'. simpl in H'.
      apply andb_true_iff in H' as [H1 H2]. apply Z.leb_le in H1.
      destruct i as [|i], j as [|j]; simpl in Hx, Hy; try lia.
      + injection Hx as <-. injection Hy as <-. lia.
      + injection Hx as <-.
        pose proof (sorted_from_lower _ _ H2 _ _ Hy). lia.
      + apply (IH a ltac:(lia) H2 i j x y ltac:(lia) Hx Hy). }
  intros H i j x y. eapply G; eauto. lia.
Qed.

(** ** Slots *)

Lemma slot_lookup s k :
  0 <= k < len_of s -> elems s !! Z.to_nat k = Some (slot s k).
Proof.
  intros H. destruct (lookup_in_range s k H) as [v Hv].
  unfold slot. rewrite Hv. reflexivity.
Qed.

Lemma read_slot k s : 0 <= k < len_of s -> read k s = Ret (slot s k, s).
Proof.
  intros H. destruct (lookup_in_range s k H) as [v Hv].
  unfold slot. rewrite Hv. apply read_ok; [lia | exact Hv].
Qed.

Lemma write_slot k v s : 0 <= k < len_of s -> write k v s = Ret (tt, upd s k v).
Proof. apply write_in. Qed.

Lemma len_of_upd s k v : len_of (upd s k v) = len_of s.
Proof. unfold len_of, upd. simpl. rewrite length_insert. reflexivity. Qed.

Lemma stray_upd s k v : stray (upd s k v) = stray s.
Proof. reflexivity. Qed.

Lemma slot_upd_eq s k v : 0 <= k < len_of s -> slot (upd s k v) k = v.
Proof.
  intros H. unfold slot, upd. simpl.
  rewrite list_lookup_insert_eq; [reflexivity|]. unfold len_of in H. lia.
Qed.

Lemma slot_upd_ne s k v j :
  0 <= k -> 0 <= j -> j <> k -> slot (upd s k v) j = slot s j.
Proof.
  intros Hk Hj Hne. unfold slot, upd. simpl.
  rewrite list_lookup_insert_ne; [reflexivity|]. lia.
Qed.

Lemma parent_upd_ne s k v j :
  0 <= k -> 0 <= j -> j <> k -> parent (upd s k v) j = parent s j.
Proof.
  intros. unfold parent. rewrite len_of_upd, slot_upd_ne by assumption.
  reflexivity.
Qed.

Lemma rem_small x n : 0 <= x < n -> Z.rem x n = x.
Proof. intros H. apply Z.rem_small. exact H. Qed.

Lemma rem_plus_len x n : 0 <= x < n -> Z.rem (x + n) n = x.
Proof.
  intros H. rewrite Z.rem_mod_nonneg by lia.
  replace (x + n) with (x + 1 * n) by lia.
  rewrite Z.mod_add by lia. apply Z.mod_small. exact H.
Qed.

Lemma parent_upd_raw s k t :
  0 <= k < len_of s -> 0 <= t < len_of s -> parent (upd s k t) k = t.
Proof.
  intros Hk Ht. unfold parent. rewrite len_of_upd, slot_upd_eq by assumption.
  apply rem_small. exact Ht.
Qed.

Lemma parent_upd_ext s k t :
  0 <= k < len_of s -> 0 <= t < len_of s ->
  parent (upd s k (t + len_of s)) k = t.
Proof.
  intros Hk Ht. unfold parent. rewrite len_of_upd, slot_upd_eq by assumption.
  apply rem_plus_len. exact Ht.
Qed.

(** ** Growing the pointer region *)

Lemma pointers_weaken s h t t' : t <= t' -> pointers s h t -> pointers s h t'.
Proof.
  intros Ht [P1 P2 P3 P4]. split; auto.
  intros k Hk. specialize (P1 k Hk). lia.
Qed.

Lemma pointers_upd_above s h t k v :
  0 <= h <= k -> pointers s h t -> pointers (upd s k v) h t.
Proof.
  intros Hk [P1 P2 P3 P4]. split.
  - intros j Hj. rewrite parent_upd_ne by lia. auto.
  - intros j Hj. rewrite parent_upd_ne, slot_upd_ne, len_of_upd by lia. auto.
  - intros j Hj1 Hj2. rewrite !parent_upd_ne by lia. auto.
  - intros j Hj1 Hj2. rewrite !parent_upd_ne, !slot_upd_ne, len_of_upd by lia.
    auto.
Qed.

(** The first pick of a turn takes the internal node [h]. *)
Lemma pointers_push_raw s h t :
  0 <= h < t -> t < len_of s ->
  pointers s h t -> pointers (upd s h t) (h + 1) (t + 1).
Proof.
  intros Hh Ht [P1 P2 P3 P4].
  assert (Hp : parent (upd s h t) h = t) by (apply parent_upd_raw; lia).
  assert (Hs : slot (upd s h t) h = t) by (apply slot_upd_eq; lia).
  split.
  - intros k Hk. destruct (Z.eq_dec k h) as [->|Hne].
    + rewrite Hp. lia.
    + rewrite parent_upd_ne by lia. specialize (P1 k ltac:(lia)). lia.
  - intros k Hk. rewrite len_of_upd. destruct (Z.eq_dec k h) as [->|Hne].
    + rewrite Hp, Hs. auto.
    + rewrite parent_upd_ne, slot_upd_ne by lia. apply P2. lia.
  - intros k Hk1 Hk2. destruct (Z.eq_dec (k + 1) h) as [E|Hne].
    + rewrite E, Hp. rewrite parent_upd_ne by lia.
      specialize (P1 k ltac:(lia)). lia.
    + rewrite !parent_upd_ne by lia. apply P3; lia.
  - intros k Hk1 Hk2. rewrite len_of_upd.
    destruct (Z.eq_dec (k + 1) h) as [E|Hne].
    + rewrite E, Hp. rewrite parent_upd_ne by lia.
      specialize (P1 k ltac:(lia)). lia.
    + rewrite !parent_upd_ne, !slot_upd_ne by lia. apply P4; lia.
Qed.

(** The second pick of a turn takes the internal node [h], the first pick
    having taken a leaf. *)
Lemma pointers_push_ext s h t :
  0 <= h < t -> t < len_of s ->
  pointers s h t -> pointers (upd s h (t + len_of s)) (h + 1) (t + 1).
Proof.
  intros Hh Ht [P1 P2 P3 P4].
  set (s' := upd s h (t + len_of s)).
  assert (L' : len_of s' = len_of s) by apply len_of_upd.
  assert (Hp : parent s' h = t) by (apply parent_upd_ext; lia).
  assert (Hs : slot s' h = t + len_of s) by (apply slot_upd_eq; lia).
  split.
  - intros k Hk. destruct (Z.eq_dec k h) as [->|Hne].
    + rewrite Hp. lia.
    + unfold s'. rewrite parent_upd_ne by lia.
      specialize (P1 k ltac:(lia)). lia.
  - intros k Hk. rewrite L'.
    destruct (Z.eq_dec k h) as [->|Hne].
    + rewrite Hp, Hs. auto.
    + unfold s'. rewrite parent_upd_ne, slot_upd_ne by lia. apply P2. lia.
  - intros k Hk1 Hk2. destruct (Z.eq_dec (k + 1) h) as [E|Hne].
    + rewrite E, Hp. unfold s'. rewrite parent_upd_ne by lia.
      specialize (P1 k ltac:(lia)). lia.
    + unfold s'. rewrite !parent_upd_ne by lia. apply P3; lia.
  - intros k Hk1 Hk2. rewrite L'.
    destruct (Z.eq_dec (k + 1) h) as [E|Hne].
    + rewrite E, Hp. unfold s'. rewrite parent_upd_ne by lia.
      specialize (P1 k ltac:(lia)). lia.
    + unfold s'. rewrite !parent_upd_ne, !slot_upd_ne by lia. apply P4; lia.
Qed.

(** Both picks of a turn take internal nodes, [h] and [h + 1]. *)
Lemma pointers_push_both s h t :
  0 <= h -> h + 1 < t -> t < len_of s ->
  pointers s h t ->
  pointers (upd (upd s h t) (h + 1) (t + len_of s)) (h + 2) (t + 1).
Proof.
  intros Hh Hh1 Ht [P1 P2 P3 P4].
  set (s1 := upd s h t). set (s' := upd s1 (h + 1) (t + len_of s)).
  assert (L1 : len_of s1 = len_of s) by apply len_of_upd.
  assert (L' : len_of s' = len_of s)
    by (unfold s'; rewrite len_of_upd; exact L1).
  assert (Hp1 : parent s' (h + 1) = t).
  { unfold s'. rewrite <- L1. apply parent_upd_ext; lia. }
  assert (Hs1 : slot s' (h + 1) = t + len_of s)
    by (apply slot_upd_eq; lia).
  assert (Hp0 : parent s' h = t).
  { unfold s'. rewrite parent_upd_ne by lia. apply parent_upd_raw; lia. }
  assert (Hs0 : slot s' h = t).
  { unfold s'. rewrite slot_upd_ne by lia. apply slot_upd_eq; lia. }
  assert (Hpo : forall k, 0 <= k < h -> parent s' k = parent s k).
  { intros k Hk. unfold s', s1. rewrite !parent_upd_ne by lia. reflexivity. }
  assert (Hso : forall k, 0 <= k < h -> slot s' k = slot s k).
  { intros k Hk. unfold s', s1. rewrite !slot_upd_ne by lia. reflexivity. }
  assert (Cases : forall k, 0 <= k < h + 2 -> k < h \/ k = h \/ k = h + 1)
    by (intros; lia).
  split.
  - intros k Hk. destruct (Cases k Hk) as [C|[->| ->]].
    + rewrite Hpo by lia. specialize (P1 k ltac:(lia)). lia.
    + rewrite Hp0. lia.
    + rewrite Hp1. lia.
  - intros k Hk. rewrite L'. destruct (Cases k Hk) as [C|[->| ->]].
    + rewrite Hpo, Hso by lia. apply P2. lia.
    + rewrite Hp0, Hs0. auto.
    + rewrite Hp1, Hs1. auto.
  - intros k Hk1 Hk2.
    destruct (Cases (k + 1) ltac:(lia)) as [C|[E|E]].
    + rewrite !Hpo by lia. apply P3; lia.
    + rewrite E, Hp0, Hpo by lia. specialize (P1 k ltac:(lia)). lia.
    + rewrite E, Hp1. replace k with h by lia. rewrite Hp0. lia.
  - intros k Hk1 Hk2. rewrite L'.
    destruct (Cases (k + 1) ltac:(lia)) as [C|[E|E]].
    + rewrite !Hpo, !Hso by lia. apply P4; lia.
    + rewrite E, Hp0, Hpo by lia. specialize (P1 k ltac:(lia)). lia.
    + rewrite E, Hs1. replace k with h by lia. rewrite Hp0, Hs0. auto.
Qed.

(** ** Running straight-line code *)

Lemma geb_false a b : (a >=? b) = false -> a < b.
Proof. rewrite Z.geb_leb. apply Z.leb_gt. Qed.

Lemma geb_true a b : (a >=? b) = true -> b <= a.
Proof. rewrite Z.geb_leb. apply Z.leb_le. Qed.

Lemma gtb_false a b : (a >? b) = false -> a <= b.
Proof. rewrite Z.gtb_ltb. apply Z.ltb_ge. Qed.

Lemma gtb_true a b : (a >? b) = true -> b < a.
Proof. rewrite Z.gtb_ltb. apply Z.ltb_lt. Qed.

Lemma run_ret {A B} (a : A) (f : A -> M B) s : bind (ret a) f s = f a s.
Proof. reflexivity. Qed.

Lemma run_bind {A B C} (m : M A) (f : A -> M B) (g : B -> M C) s :
  bind (bind m f) g s = bind m (fun a => bind (f a) g) s.
Proof. unfold bind. destruct (m s) as [[a s']| |]; reflexivity. Qed.

Lemma run_read {B} k (f : Z -> M B) s :
  0 <= k < len_of s -> bind (read k) f s = f (slot s k) s.
Proof. intros H. apply bind_Ret, read_slot, H. Qed.

Lemma run_write {B} k v (f : unit -> M B) s :
  0 <= k < len_of s -> bind (write k v) f s = f tt (upd s k v).
Proof. intros H. apply bind_Ret, write_slot, H. Qed.

Lemma run_array_length {B} (f : Z -> M B) s :
  bind array_length f s = f (len_of s) s.
Proof. reflexivity. Qed.

Lemma run_if {A B} (c : bool) (m1 m2 : M A) (f : A -> M B) s :
  bind (if c then m1 else m2) f s
  = if c then bind m1 f s else bind m2 f s.
Proof. destruct c; reflexivity. Qed.

Lemma spp_pick1_internal s h t p :
  0 <= h < len_of s ->
  (p >=? len_of s) || (slot s h <? slot s p) = true ->
  (p < len_of s -> 0 <= p) ->
  spp_pick1 (len_of s) h t p s = Ret ((slot s h, h + 1, p), upd s h t).
Proof.
  intros Hh Hc Hp. unfold spp_pick1, spp_test1.
  destruct (p >=? len_of s) eqn:E.
  - rewrite run_ret, run_read, run_write by lia. reflexivity.
  - simpl in Hc. apply geb_false in E.
    rewrite run_bind, run_read by lia.
    rewrite run_bind, run_read by lia.
    rewrite run_ret, Hc, run_read, run_write by lia. reflexivity.
Qed.

Lemma spp_pick1_leaf s h t p :
  0 <= h < len_of s ->
  (p >=? len_of s) || (slot s h <? slot s p) = false ->
  0 <= p ->
  spp_pick1 (len_of s) h t p s = Ret ((slot s p, h, p + 1), s).
Proof.
  intros Hh Hc Hp. unfold spp_pick1, spp_test1.
  apply orb_false_iff in Hc as [E Hc]. rewrite E.
  apply geb_false in E.
  rewrite run_bind, run_read by lia.
  rewrite run_bind, run_read by lia.
  rewrite run_ret, Hc, run_read by lia. reflexivity.
Qed.

Lemma spp_pick2_internal s temp h t p :
  0 <= h < len_of s ->
  (p >=? len_of s) || ((h <? t) && (slot s h <? slot s p)) = true ->
  (p < len_of s -> 0 <= p) ->
  spp_pick2 (len_of s) temp h t p s
  = Ret ((temp + slot s h, h + 1, p), upd s h (t + len_of s)).
Proof.
  intros Hh Hc Hp. unfold spp_pick2, spp_test2.
  destruct (p >=? len_of s) eqn:E.
  - rewrite run_ret, run_read, run_write by lia. reflexivity.
  - simpl in Hc. apply andb_true_iff in Hc as [Hc1 Hc2]. rewrite Hc1.
    apply geb_false in E.
    rewrite run_bind, run_read by lia.
    rewrite run_bind, run_read by lia.
    rewrite run_ret, Hc2, run_read, run_write by lia. reflexivity.
Qed.

Lemma spp_pick2_leaf s temp h t p :
  0 <= h < len_of s ->
  (p >=? len_of s) || ((h <? t) && (slot s h <? slot s p)) = false ->
  0 <= p ->
  spp_pick2 (len_of s) temp h t p s = Ret ((temp + slot s p, h, p + 1), s).
Proof.
  intros Hh Hc Hp. unfold spp_pick2, spp_test2.
  apply orb_false_iff in Hc as [E Hc]. rewrite E.
  apply geb_false in E.
  destruct (h <? t) eqn:Eh; simpl in Hc.
  - rewrite run_bind, run_read by lia.
    rewrite run_bind, run_read by lia.
    rewrite run_ret, Hc, run_read by lia. reflexivity.
  - rewrite run_ret, run_read by lia. reflexivity.
Qed.

(** ** One turn of pass 1 keeps the invariant *)

Lemma spp_body_inv s h t p :
  spp_inv s h t p -> t <= len_of s - 2 ->
  exists s' h' p',
    spp_body (len_of s) h t p s = Ret ((h', p'), s') /\
    spp_inv s' h' (t + 1) p' /\ len_of s' = len_of s /\ stray s' = stray s.
Proof.
  intros [I1 I2 I3 I4 I5] Ht. unfold spp_body.
  destruct ((p >=? len_of s) || (slot s h <? slot s p)) eqn:C1.
  - (* the first pick is the internal node h *)
    rewrite (bind_Ret _ _ _ _ _
               (spp_pick1_internal s h t p ltac:(lia) C1 ltac:(lia))).
    set (s1 := upd s h t).
    assert (L1 : len_of s1 = len_of s) by apply len_of_upd.
    cbv beta iota. rewrite <- L1.
    destruct ((p >=? len_of s1)
              || ((h + 1 <? t) && (slot s1 (h + 1) <? slot s1 p))) eqn:C2.
    + assert (Hh1 : h + 1 < t).
      { apply orb_true_iff in C2 as [C2|C2].
        - apply geb_true in C2. lia.
        - apply andb_true_iff in C2 as [C2 _]. apply Z.ltb_lt in C2. lia. }
      rewrite (bind_Ret _ _ _ _ _
                 (spp_pick2_internal s1 (slot s h) (h + 1) t p
                    ltac:(lia) C2 ltac:(lia))).
      cbv beta iota. rewrite run_write by (rewrite len_of_upd; lia).
      eexists _, _, _. split; [reflexivity|].
      rewrite !len_of_upd, !stray_upd. split; [|split; [lia | reflexivity]].
      split; rewrite ?len_of_upd; try lia.
      apply pointers_upd_above; [lia|]. rewrite ?L1. unfold s1.
      replace (h + 1 + 1) with (h + 2) by lia.
      apply pointers_push_both; auto; lia.
    + assert (Hp : p < len_of s1).
      { apply orb_false_iff in C2 as [C2 _]. apply geb_false in C2. lia. }
      rewrite (bind_Ret _ _ _ _ _
                 (spp_pick2_leaf s1 (slot s h) (h + 1) t p
                    ltac:(lia) C2 ltac:(lia))).
      cbv beta iota. rewrite run_write by lia.
      eexists _, _, _. split; [reflexivity|].
      rewrite !len_of_upd, !stray_upd. split; [|split; [lia | reflexivity]].
      split; rewrite ?len_of_upd; try lia.
      apply pointers_upd_above; [lia|].
      apply pointers_push_raw; auto; lia.
  - (* the first pick is the leaf p *)
    assert (Hp : p < len_of s).
    { apply orb_false_iff in C1 as [C1 _]. apply geb_false in C1. lia. }
    rewrite (bind_Ret _ _ _ _ _
               (spp_pick1_leaf s h t p ltac:(lia) C1 ltac:(lia))).
    cbv beta iota.
    destruct ((p + 1 >=? len_of s)
              || ((h <? t) && (slot s h <? slot s (p + 1)))) eqn:C2.
    + rewrite (bind_Ret _ _ _ _ _
                 (spp_pick2_internal s (slot s p) h t (p + 1)
                    ltac:(lia) C2 ltac:(lia))).
      cbv beta iota. rewrite run_write by (rewrite len_of_upd; lia).
      eexists _, _, _. split; [reflexivity|].
      rewrite !len_of_upd, !stray_upd. split; [|split; [lia | reflexivity]].
      split; rewrite ?len_of_upd; try lia.
      apply pointers_upd_above; [lia|].
      apply pointers_push_ext; auto; lia.
    + assert (Hp1 : p + 1 < len_of s).
      { apply orb_false_iff in C2 as [C2 _]. apply geb_false in C2. lia. }
      rewrite (bind_Ret _ _ _ _ _
                 (spp_pick2_leaf s (slot s p) h t (p + 1)
                    ltac:(lia) C2 ltac:(lia))).
      cbv beta iota. rewrite run_write by lia.
      eexists _, _, _. split; [reflexivity|].
      rewrite !len_of_upd, !stray_upd. split; [|split; [lia | reflexivity]].
      split; rewrite ?len_of_upd; try lia.
      apply pointers_upd_above; [lia|].
      apply pointers_weaken with (t := t); [lia | auto].
Qed.

Lemma spp_loop_inv count :
  forall s h t p,
    spp_inv s h t p -> Z.of_nat count = len_of s - 1 - t ->
    exists s',
      spp_loop count (len_of s) h t p s = Ret (tt, s') /\
      pointers s' (len_of s - 2) (len_of s - 1) /\
      len_of s' = len_of s /\ stray s' = stray s.
Proof.
  induction count as [|count IH]; intros s h t p Inv Hc.
  - simpl. exists s. split; [reflexivity|].
    destruct Inv as [I1 I2 I3 I4 I5].
    assert (t = len_of s - 1) by lia. subst t.
    assert (h = len_of s - 2) by lia. subst h.
    auto.
  - simpl.
    destruct (spp_body_inv s h t p Inv ltac:(lia))
      as (s1 & h1 & p1 & E & Inv1 & L1 & S1).
    rewrite (bind_Ret _ _ _ _ _ E). cbv beta iota.
    rewrite <- L1.
    destruct (IH s1 h1 (t + 1) p1 Inv1 ltac:(lia)) as (s' & E' & P & L' & S').
    exists s'. split; [exact E'|].
    rewrite L1 in *. split; [exact P|]. split; congruence.
Qed.

(** Pass 1 returns on every buffer of three slots or more, and leaves a
    tree. *)
Lemma setExtendedParentPointers_tree s :
  3 <= len_of s ->
  exists s',
    setExtendedParentPointers s = Ret (tt, s') /\
    tree_shape s' /\ len_of s' = len_of s /\ stray s' = stray s.
Proof.
  intros Hn. unfold setExtendedParentPointers.
  rewrite run_array_length, run_read, run_read, run_write by lia.
  set (s0 := upd s 0 (slot s 0 + slot s 1)).
  assert (L0 : len_of s0 = len_of s) by apply len_of_upd.
  assert (Inv : spp_inv s0 0 1 2).
  { split; rewrite ?L0; try lia.
    split; intros; lia. }
  rewrite <- L0.
  destruct (spp_loop_inv (Z.to_nat (len_of s0 - 1 - 1)) s0 0 1 2 Inv
              ltac:(lia)) as (s' & E & P & L & S).
  exists s'. split; [exact E|]. split; [|split; [lia | exact S]].
  split; rewrite L; [lia | exact P].
Qed.

Lemma post_pass1_tree s : post_pass1 s -> tree_shape s /\ stray s = [].
Proof.
  intros (s0 & Hn & Hs & E).
  destruct (setExtendedParentPointers_tree s0 Hn) as (s' & E' & T & _ & S).
  rewrite E in E'. injection E' as <-. split; [exact T | congruence].
Qed.

(** ** The function [low] *)

Lemma scan_spec s limit count :
  forall k,
    k <= scan s limit count k <= k + Z.of_nat count /\
    (scan s limit count k < k + Z.of_nat count ->
     parent s (scan s limit count k) > limit) /\
    (forall j, k <= j < scan s limit count k -> parent s j <= limit).
Proof.
  induction count as [|count IH]; intros k; simpl scan.
  - split; [lia|]. split; intros; lia.
  - destruct (parent s k >? limit) eqn:E.
    + apply gtb_true in E. split; [lia|]. split; intros; lia.
    + apply gtb_false in E. destruct (IH (k + 1)) as (A & B & C).
      split; [lia|]. split.
      * intros H. apply B. lia.
      * intros j Hj. destruct (Z.eq_dec j k) as [->|Hne]; [exact E|].
        apply C. lia.
Qed.

Lemma low_spec s limit nodesToMove :
  nodesToMove <= limit + 1 ->
  nodesToMove <= low s limit nodesToMove <= limit + 1 /\
  (low s limit nodesToMove <= limit ->
   parent s (low s limit nodesToMove) > limit) /\
  (forall j, nodesToMove <= j < low s limit nodesToMove ->
             parent s j <= limit).
Proof.
  intros H. unfold low.
  destruct (scan_spec s limit (Z.to_nat (limit + 1 - nodesToMove))
              nodesToMove) as (A & B & C).
  rewrite Z2Nat.id in A, B by lia.
  split; [lia|]. split; [|exact C].
  intros Hl. apply B. lia.
Qed.

Lemma low_unique s limit nodesToMove k :
  nodesToMove <= k <= limit + 1 ->
  (k <= limit -> parent s k > limit) ->
  (forall j, nodesToMove <= j < k -> parent s j <= limit) ->
  low s limit nodesToMove = k.
Proof.
  intros Hk Hp Hb.
  destruct (low_spec s limit nodesToMove ltac:(lia)) as (A & B & C).
  destruct (Z.lt_trichotomy (low s limit nodesToMove) k) as [H|[H|H]].
  - specialize (Hb (low s limit nodesToMove) ltac:(lia)).
    specialize (B ltac:(lia)). lia.
  - exact H.
  - specialize (C k ltac:(lia)). specialize (Hp ltac:(lia)). lia.
Qed.

Lemma low_above s limit nodesToMove :
  limit + 1 <= nodesToMove -> low s limit nodesToMove = nodesToMove.
Proof.
  intros H. unfold low.
  replace (Z.to_nat (limit + 1 - nodesToMove)) with O by lia. reflexivity.
Qed.

(** ** The tree *)

Lemma pointers_mono s h t a b :
  pointers s h t -> 0 <= a <= b -> b < h -> parent s a <= parent s b.
Proof.
  intros P Hab Hb.
  replace b with (a + Z.of_nat (Z.to_nat (b - a))) in * by lia.
  induction (Z.to_nat (b - a)) as [|d IH].
  - replace (a + Z.of_nat 0) with a by lia. lia.
  - assert (Hd : a + Z.of_nat (S d) = a + Z.of_nat d + 1) by lia.
    rewrite Hd in *.
    pose proof (ptr_mono _ _ _ P (a + Z.of_nat d) ltac:(lia) ltac:(lia)).
    specialize (IH ltac:(lia) ltac:(lia)). lia.
Qed.

Lemma tree_parent s k :
  tree_shape s -> 0 <= k <= len_of s - 3 -> k < parent s k <= len_of s - 2.
Proof.
  intros [Hn P] Hk. pose proof (ptr_parent _ _ _ P k ltac:(lia)). lia.
Qed.

Lemma tree_mono s a b :
  tree_shape s -> 0 <= a <= b -> b <= len_of s - 3 ->
  parent s a <= parent s b.
Proof.
  intros [Hn P] Hab Hb. eapply pointers_mono; eauto. lia.
Qed.

(** ** The 32-bit operators where they do not wrap *)

Lemma toInt32_small x : - 2 ^ 31 <= x < 2 ^ 31 -> toInt32 x = x.
Proof.
  intros H. unfold toInt32. rewrite Z.mod_small by lia. lia.
Qed.

Lemma sar_1 x : 0 <= x < 2 ^ 31 -> sar x 1 = x / 2.
Proof.
  intros H. unfold sar. rewrite toInt32_small by lia.
  change (1 mod 32) with 1. rewrite Z.shiftr_div_pow2 by lia.
  reflexivity.
Qed.

Lemma shl_1 x : - 2 ^ 30 <= x < 2 ^ 30 -> shl x 1 = 2 * x.
Proof.
  intros H. unfold shl. rewrite (toInt32_small x) by lia.
  change (1 mod 32) with 1. rewrite Z.shiftl_mul_pow2 by lia.
  rewrite toInt32_small by lia. lia.
Qed.

Lemma shl_pow c : 0 <= c <= 30 -> shl 1 c = 2 ^ c.
Proof.
  intros H. unfold shl. rewrite (toInt32_small 1) by lia.
  rewrite (Z.mod_small c 32) by lia.
  rewrite Z.shiftl_mul_pow2 by lia. rewrite Z.mul_1_l.
  apply toInt32_small.
  assert (2 ^ c <= 2 ^ 30) by (apply Z.pow_le_mono_r; lia).
  assert (0 < 2 ^ c) by (apply Z.pow_pos_nonneg; lia).
  lia.
Qed.

(** ** [first] computes [low] *)

(** [first] reads the slots from [nodesToMove] to [limit] only, unless
    [limit] lies below [nodesToMove]: then it bisects up to the root, and
    every slot it meets must decode to something beyond [limit]. *)
Section First.
Variable s : buffer.
Hypothesis Hfit : fits_int32 s.
Variables limit nodesToMove : Z.
Hypothesis Hntm : 0 <= nodesToMove.
Hypothesis Hlim : nodesToMove - 1 <= limit <= len_of s - 3.
Hypothesis Hptr : pointers s (limit + 1) (len_of s - 1).
Hypothesis Hup :
  limit < nodesToMove ->
  forall k, nodesToMove <= k <= len_of s - 3 -> parent s k > limit.

Lemma first_gallop_ok fuel :
  forall i k,
    i <= limit -> i < k <= len_of s - 2 -> nodesToMove <= k ->
    (k <= limit -> parent s k > limit) ->
    (k <= limit \/ i = limit) ->
    (Z.to_nat (i - nodesToMove + 1) < fuel)%nat ->
    exists i' k',
      first_gallop fuel (len_of s) limit nodesToMove i k s
        = Ret ((i', k'), s) /\
      i' <= limit /\ i' < k' <= len_of s - 2 /\ nodesToMove <= k' /\
      (k' <= limit -> parent s k' > limit) /\
      (k' <= limit \/ i' = limit) /\
      (nodesToMove <= i' -> parent s i' <= limit).
Proof.
  induction fuel as [|fuel IH]; intros i k Hi Hk Hnk Hb Hd Hf; [lia|].
  simpl first_gallop.
  destruct (i >=? nodesToMove) eqn:E.
  - apply geb_true in E. rewrite run_read by lia.
    change (Z.rem (slot s i) (len_of s)) with (parent s i).
    destruct (parent s i >? limit) eqn:E2.
    + apply gtb_true in E2.
      apply IH; lia.
    + apply gtb_false in E2.
      exists i, k. split; [reflexivity|]. repeat split; auto; lia.
  - apply geb_false in E.
    exists i, k. split; [reflexivity|]. repeat split; auto; lia.
Qed.

Lemma first_bisect_ok fuel :
  forall i k,
    nodesToMove - 1 <= i < k -> k <= len_of s - 2 ->
    (k <= limit -> parent s k > limit) ->
    (k <= limit \/ limit < nodesToMove) ->
    (forall j, nodesToMove <= j <= i -> parent s j <= limit) ->
    (Z.to_nat (k - i) <= fuel)%nat ->
    first_bisect fuel (len_of s) limit i k s
      = Ret (low s limit nodesToMove, s).
Proof.
  unfold fits_int32 in Hfit.
  induction fuel as [|fuel IH]; intros i k Hi Hk Hb Hd Hl Hf; [lia|].
  simpl first_bisect.
  destruct (k >? i + 1) eqn:E.
  - apply gtb_true in E.
    rewrite sar_1 by lia.
    assert (Hm : i < (i + k) / 2 < k).
    { pose proof (Z.div_mod (i + k) 2 ltac:(lia)).
      pose proof (Z.mod_pos_bound (i + k) 2 ltac:(lia)). lia. }
    set (temp := (i + k) / 2) in *.
    rewrite run_read by lia.
    change (Z.rem (slot s temp) (len_of s)) with (parent s temp).
    destruct (parent s temp >? limit) eqn:E2.
    + apply gtb_true in E2. apply IH; auto; lia.
    + apply gtb_false in E2.
      destruct Hd as [Hd|Hd].
      * apply IH; auto; try lia.
        intros j Hj.
        pose proof (pointers_mono s _ _ j temp Hptr ltac:(lia) ltac:(lia)).
        lia.
      * specialize (Hup Hd temp ltac:(lia)). lia.
  - apply gtb_false in E. assert (k = i + 1) by lia. subst k.
    unfold ret. f_equal. f_equal. symmetry.
    apply low_unique; auto.
    + split; [lia|].
      destruct Hd as [Hd|Hd]; [lia|].
      destruct (Z_lt_le_dec i nodesToMove) as [C|C]; [lia|].
      specialize (Hl i ltac:(lia)).
      specialize (Hup Hd i ltac:(lia)). lia.
    + intros j Hj. apply Hl. lia.
Qed.

Lemma first_low fuel :
  (Z.to_nat (len_of s) <= fuel)%nat ->
  first fuel limit nodesToMove s = Ret (low s limit nodesToMove, s).
Proof.
  intros Hf. unfold first. rewrite run_array_length.
  destruct (first_gallop_ok fuel limit (len_of s - 2)
              ltac:(lia) ltac:(lia) ltac:(lia) ltac:(lia) ltac:(lia)
              ltac:(lia))
    as (i' & k' & E & H1 & H2 & H3 & H4 & H5 & H6).
  rewrite (bind_Ret _ _ _ _ _ E). cbv beta iota.
  assert (Hcase : k' <= limit \/ limit < nodesToMove).
  { destruct H5 as [H5|H5]; [auto|].
    destruct (Z_lt_le_dec limit nodesToMove) as [C|C]; [auto|].
    subst i'. specialize (H6 ltac:(lia)).
    pose proof (ptr_parent _ _ _ Hptr limit ltac:(lia)). lia. }
  apply first_bisect_ok; auto; try lia.
  intros j Hj.
  assert (nodesToMove <= i') by lia.
  pose proof (pointers_mono s _ _ j i' Hptr ltac:(lia) ltac:(lia)).
  specialize (H6 ltac:(lia)). lia.
Qed.
End First.

Lemma tree_pointers_below s limit :
  tree_shape s -> limit <= len_of s - 3 ->
  pointers s (limit + 1) (len_of s - 1).
Proof.
  intros [Hn [P1 P2 P3 P4]] Hl.
  split; intros; [apply P1 | apply P2 | apply P3 | apply P4]; lia.
Qed.

(** On a tree, [first] computes [low] for every [limit] from
    [nodesToMove - 1] up to the last node below the root. *)
Lemma first_low_tree s limit nodesToMove fuel :
  tree_shape s -> fits_int32 s ->
  0 <= nodesToMove -> nodesToMove - 1 <= limit <= len_of s - 3 ->
  (Z.to_nat (len_of s) <= fuel)%nat ->
  first fuel limit nodesToMove s = Ret (low s limit nodesToMove, s).
Proof.
  intros T F Hn Hl Hf. apply first_low; auto.
  - apply tree_pointers_below; [exact T | lia].
  - intros Hlt k Hk. pose proof (tree_parent s k T ltac:(lia)). lia.
Qed.

(** ** Levels *)

Lemma natstep_range s G : 0 <= G -> 0 <= natstep s G <= G.
Proof.
  intros H. unfold natstep.
  destruct (low_spec s (G - 1) 0 ltac:(lia)) as (A & _). lia.
Qed.

Lemma natstep_zero s : natstep s 0 = 0.
Proof. unfold natstep. apply low_above. lia. Qed.

Lemma natstep_lt s G :
  0 < G -> parent s (G - 1) > G - 1 -> natstep s G < G.
Proof.
  intros H Hp. unfold natstep.
  destruct (low_spec s (G - 1) 0 ltac:(lia)) as (A & _ & C).
  destruct (Z.eq_dec (low s (G - 1) 0) G) as [E|E]; [|lia].
  specialize (C (G - 1) ltac:(lia)). lia.
Qed.

Lemma natstep_lt_tree s G :
  tree_shape s -> 0 < G <= len_of s - 2 -> natstep s G < G.
Proof.
  intros T H. apply natstep_lt; [lia|].
  pose proof (tree_parent s (G - 1) T ltac:(lia)). lia.
Qed.

Lemma low_mono_limit s nodesToMove l l' :
  nodesToMove - 1 <= l <= l' ->
  low s l nodesToMove <= low s l' nodesToMove.
Proof.
  intros H.
  destruct (low_spec s l nodesToMove ltac:(lia)) as (A & B & C).
  destruct (low_spec s l' nodesToMove ltac:(lia)) as (A' & B' & C').
  destruct (Z_lt_le_dec (low s l' nodesToMove) (low s l nodesToMove))
    as [Hlt|Hle]; [|exact Hle].
  specialize (C (low s l' nodesToMove) ltac:(lia)).
  specialize (B' ltac:(lia)). lia.
Qed.

Lemma natstep_mono s G G' : 0 <= G <= G' -> natstep s G <= natstep s G'.
Proof. intros H. unfold natstep. apply low_mono_limit. lia. Qed.

Lemma natsteps_range s j : forall G, 0 <= G -> 0 <= natsteps s j G <= G.
Proof.
  induction j as [|j IH]; intros G H; simpl; [lia|].
  pose proof (natstep_range s G H).
  specialize (IH (natstep s G) ltac:(lia)). lia.
Qed.

Lemma natsteps_mono s j :
  forall G G', 0 <= G <= G' -> natsteps s j G <= natsteps s j G'.
Proof.
  induction j as [|j IH]; intros G G' H; simpl; [lia|].
  apply IH. pose proof (natstep_range s G ltac:(lia)).
  pose proof (natstep_mono s G G' H). lia.
Qed.

Lemma natsteps_zero s j : natsteps s j 0 = 0.
Proof. induction j as [|j IH]; simpl; [|rewrite natstep_zero]; auto. Qed.

Lemma natsteps_S_r s j G : natsteps s (S j) G = natstep s (natsteps s j G).
Proof.
  revert G. induction j as [|j IH]; intros G; [reflexivity|].
  change (natsteps s (S (S j)) G) with (natsteps s (S j) (natstep s G)).
  rewrite IH. reflexivity.
Qed.

Lemma natsteps_add s i j G :
  natsteps s (i + j) G = natsteps s j (natsteps s i G).
Proof.
  revert G. induction i as [|i IH]; intros G; [reflexivity|].
  simpl. apply IH.
Qed.

Lemma natsteps_le_more s i j G :
  0 <= G -> (i <= j)%nat -> natsteps s j G <= natsteps s i G.
Proof.
  intros HG Hij. replace j with (i + (j - i))%nat by lia.
  rewrite natsteps_add.
  pose proof (natsteps_range s i G HG).
  pose proof (natsteps_range s (j - i) (natsteps s i G) ltac:(lia)). lia.
Qed.

(** ** Pass 2 walks down the levels *)

Lemma fntr_loop_spec s inner maximumLength :
  tree_shape s -> fits_int32 s -> (Z.to_nat (len_of s) <= inner)%nat ->
  forall fuel currentNode currentDepth,
    0 <= currentNode <= len_of s - 2 ->
    (Z.to_nat currentNode < fuel)%nat ->
    exists j,
      fntr_loop inner fuel maximumLength currentNode currentDepth s
        = Ret (natsteps s j currentNode, s) /\
      Z.of_nat j <= Z.max 0 (maximumLength - 1 - currentDepth) /\
      (Z.of_nat j = Z.max 0 (maximumLength - 1 - currentDepth) \/
       natsteps s j currentNode <= 1).
Proof.
  intros T F Hin.
  induction fuel as [|fuel IH]; intros cn cd Hcn Hf; [lia|].
  simpl fntr_loop.
  destruct ((cd <? maximumLength - 1) && (cn >? 1)) eqn:E.
  - apply andb_true_iff in E as [E1 E2].
    apply Z.ltb_lt in E1. apply gtb_true in E2.
    rewrite (bind_Ret _ _ _ _ _
               (first_low_tree s (cn - 1) 0 inner T F ltac:(lia) ltac:(lia)
                  Hin)).
    change (low s (cn - 1) 0) with (natstep s cn).
    pose proof (natstep_range s cn ltac:(lia)).
    pose proof (natstep_lt_tree s cn T ltac:(lia)).
    destruct (IH (natstep s cn) (cd + 1) ltac:(lia) ltac:(lia))
      as (j & Ej & Hj1 & Hj2).
    exists (S j). split; [exact Ej|]. simpl natsteps. lia.
  - exists O. split; [reflexivity|]. simpl natsteps.
    apply andb_false_iff in E as [E|E].
    + apply Z.ltb_ge in E. lia.
    + apply gtb_false in E. lia.
Qed.

Lemma findNodesToRelocate_spec s fuel maximumLength :
  tree_shape s -> fits_int32 s -> (Z.to_nat (len_of s) <= fuel)%nat ->
  exists j,
    findNodesToRelocate fuel maximumLength s
      = Ret (natsteps s j (len_of s - 2), s) /\
    Z.of_nat j <= Z.max 0 (maximumLength - 2) /\
    (Z.of_nat j = Z.max 0 (maximumLength - 2) \/
     natsteps s j (len_of s - 2) <= 1).
Proof.
  intros T F Hf. unfold findNodesToRelocate. rewrite run_array_length.
  pose proof (ts_len _ T).
  destruct (fntr_loop_spec s fuel maximumLength T F Hf fuel
              (len_of s - 2) 1 ltac:(lia) ltac:(lia))
    as (j & E & H1 & H2).
  exists j. split; [exact E|].
  replace (maximumLength - 2) with (maximumLength - 1 - 1) by lia. auto.
Qed.

(** ** A parent has two children at most *)

Lemma parent_skip_two s k :
  tree_shape s -> 0 <= k -> k + 2 <= len_of s - 3 ->
  parent s k < parent s (k + 2).
Proof.
  intros [Hn P] Hk Hk2.
  pose proof (ptr_mono _ _ _ P k ltac:(lia) ltac:(lia)) as M1.
  pose proof (ptr_mono _ _ _ P (k + 1) ltac:(lia) ltac:(lia)) as M2.
  replace (k + 1 + 1) with (k + 2) in M2 by lia.
  destruct (Z.eq_dec (parent s k) (parent s (k + 2))) as [E|E]; [|lia].
  assert (E1 : parent s k = parent s (k + 1)) by lia.
  assert (E2 : parent s (k + 1) = parent s (k + 1 + 1))
    by (replace (k + 1 + 1) with (k + 2) by lia; lia).
  destruct (ptr_pair _ _ _ P k ltac:(lia) ltac:(lia) E1) as [_ S1].
  destruct (ptr_pair _ _ _ P (k + 1) ltac:(lia) ltac:(lia) E2) as [S2 _].
  lia.
Qed.

Lemma parent_climb s X :
  tree_shape s -> 0 <= X ->
  forall j : nat, X + 2 * Z.of_nat j <= len_of s - 3 ->
                  parent s X + Z.of_nat j <= parent s (X + 2 * Z.of_nat j).
Proof.
  intros T HX. induction j as [|j IH]; intros Hj.
  - replace (X + 2 * Z.of_nat 0) with X by lia. lia.
  - specialize (IH ltac:(lia)).
    pose proof (parent_skip_two s (X + 2 * Z.of_nat j) T ltac:(lia)
                  ltac:(lia)) as Hs.
    replace (X + 2 * Z.of_nat j + 2) with (X + 2 * Z.of_nat (S j)) in Hs
      by lia.
    lia.
Qed.

(** The nodes [X .. G-1] with their parents among [A .. B-1] are twice
    [B - A] at most. *)
Lemma children_bound s X G A B :
  tree_shape s -> 0 <= X <= G -> G <= len_of s - 2 -> A <= B ->
  (forall k, X <= k < G -> A <= parent s k < B) ->
  G - X <= 2 * (B - A).
Proof.
  intros T HX HG HAB Hp.
  destruct (Z_le_gt_dec (G - X) (2 * (B - A))) as [H|H]; [exact H|].
  pose proof (parent_climb s X T ltac:(lia) (Z.to_nat (B - A))) as Hc.
  rewrite Z2Nat.id in Hc by lia. specialize (Hc ltac:(lia)).
  pose proof (Hp X ltac:(lia)).
  pose proof (Hp (X + 2 * (B - A)) ltac:(lia)). lia.
Qed.

(** When they are exactly twice [B - A], the first of them is the first
    child of [A]. *)
Lemma children_full s X G A B :
  tree_shape s -> 0 <= X <= G -> G <= len_of s - 2 -> A < B ->
  (forall k, X <= k < G -> A <= parent s k < B) ->
  G - X = 2 * (B - A) ->
  slot s X = A.
Proof.
  intros T HX HG HAB Hp Hfull.
  pose proof T as [Hn P].
  pose proof (Hp X ltac:(lia)) as HpX.
  pose proof (Hp (X + 1) ltac:(lia)) as HpX1.
  pose proof (ptr_mono _ _ _ P X ltac:(lia) ltac:(lia)) as M.
  assert (E1 : parent s (X + 1) = A).
  { destruct (Z.eq_dec (parent s (X + 1)) A) as [E|E]; [exact E|].
    pose proof (parent_climb s (X + 1) T ltac:(lia)
                  (Z.to_nat (B - A - 1))) as Hc.
    rewrite Z2Nat.id in Hc by lia. specialize (Hc ltac:(lia)).
    pose proof (Hp (X + 1 + 2 * (B - A - 1)) ltac:(lia)). lia. }
  assert (E0 : parent s X = parent s (X + 1)) by lia.
  destruct (ptr_pair _ _ _ P X ltac:(lia) ltac:(lia) E0) as [S0 _]. lia.
Qed.

(** ** Buffers that agree up to an index *)

Lemma agree_refl s nx : agree s s nx.
Proof. split; auto. Qed.

Lemma agree_parent s1 s nx k :
  agree s1 s nx -> 0 <= k <= nx -> parent s k = parent s1 k.
Proof. intros [L A] Hk. unfold parent. rewrite L, A by lia. reflexivity. Qed.

Lemma agree_weaken s1 s nx nx' : nx' <= nx -> agree s1 s nx -> agree s1 s nx'.
Proof. intros H [L A]. split; [exact L|]. intros k Hk. apply A. lia. Qed.

Lemma agree_pointers s1 s nx h t :
  agree s1 s nx -> h - 1 <= nx -> pointers s1 h t -> pointers s h t.
Proof.
  intros Ag Hh [P1 P2 P3 P4]. pose proof Ag as [L A]. split.
  - intros k Hk. rewrite (agree_parent s1 s nx) by (auto; lia). auto.
  - intros k Hk. rewrite (agree_parent s1 s nx), L, A by (auto; lia). auto.
  - intros k Hk1 Hk2. rewrite !(agree_parent s1 s nx) by (auto; lia). auto.
  - intros k Hk1 Hk2.
    rewrite !(agree_parent s1 s nx), L, !A by (auto; lia). auto.
Qed.

Lemma scan_ext s s' limit count :
  forall k0,
    (forall k, k0 <= k < k0 + Z.of_nat count -> parent s k = parent s' k) ->
    scan s limit count k0 = scan s' limit count k0.
Proof.
  induction count as [|count IH]; intros k0 H; simpl; [reflexivity|].
  rewrite (H k0) by lia.
  destruct (parent s' k0 >? limit); [reflexivity|].
  apply IH. intros k Hk. apply H. lia.
Qed.

Lemma low_ext s s' limit nodesToMove :
  (forall k, nodesToMove <= k <= limit -> parent s k = parent s' k) ->
  low s limit nodesToMove = low s' limit nodesToMove.
Proof.
  intros H. unfold low. apply scan_ext. intros k Hk. apply H. lia.
Qed.

Lemma low_agree s1 s nx limit nodesToMove :
  agree s1 s nx -> 0 <= nodesToMove -> limit <= nx ->
  low s limit nodesToMove = low s1 limit nodesToMove.
Proof.
  intros Ag Hn Hl. apply low_ext. intros k Hk.
  apply (agree_parent s1 s nx); [exact Ag | lia].
Qed.

(** ** Powers of two *)

Lemma pow2_pos c : 0 <= c -> 0 < 2 ^ c.
Proof. intros H. apply Z.pow_pos_nonneg; lia. Qed.

Lemma pow2_succ c : 0 <= c -> 2 ^ (c + 1) = 2 * 2 ^ c.
Proof. intros H. rewrite Z.pow_add_r by lia. change (2 ^ 1) with 2. lia. Qed.

Lemma pow2_le a b : 0 <= a <= b -> 2 ^ a <= 2 ^ b.
Proof. intros H. apply Z.pow_le_mono_r; lia. Qed.

Lemma pow2_lt_inv a b : 0 <= a -> 0 <= b -> 2 ^ a < 2 ^ b -> a < b.
Proof.
  intros Ha Hb H. destruct (Z_lt_le_dec a b) as [C|C]; [exact C|].
  pose proof (pow2_le b a ltac:(lia)). lia.
Qed.


(** ** A run of stores *)

Lemma write_run_spec count :
  forall nx dp s,
    nx <= len_of s - 1 ->
    exists s',
      write_run count nx dp s = Ret (nx - Z.of_nat count, s') /\
      len_of s' = len_of s /\
      (forall k, 0 <= k -> nx - Z.of_nat count < k <= nx -> slot s' k = dp) /\
      (forall k, 0 <= k -> k <= nx - Z.of_nat count \/ nx < k ->
                 slot s' k = slot s k) /\
      (-1 <= nx - Z.of_nat count -> stray s' = stray s).
Proof.
  induction count as [|count IH]; intros nx dp s Hnx.
  - exists s. simpl write_run. replace (nx - Z.of_nat 0) with nx by lia.
    split; [reflexivity|]. split; [reflexivity|].
    split; [intros; lia|]. split; auto.
  - simpl write_run.
    destruct (Z_lt_le_dec nx 0) as [Hneg|Hpos].
    + rewrite (bind_Ret _ _ _ _ _ (write_below nx dp s Hneg)).
      set (s0 := Buffer (elems s) ((nx, dp) :: stray s)).
      destruct (IH (nx - 1) dp s0 ltac:(unfold len_of in *; simpl; lia))
        as (s' & E & L & A & B & C).
      exists s'. replace (nx - Z.of_nat (S count))
        with (nx - 1 - Z.of_nat count) by lia.
      split; [exact E|]. split; [exact L|].
      split; [intros; lia|]. split; [|intros; lia].
      intros k Hk Hr. rewrite B by lia. reflexivity.
    + rewrite run_write by lia.
      destruct (IH (nx - 1) dp (upd s nx dp)
                  ltac:(rewrite len_of_upd; lia))
        as (s' & E & L & A & B & C).
      rewrite len_of_upd in L. rewrite stray_upd in C.
      exists s'. replace (nx - Z.of_nat (S count))
        with (nx - 1 - Z.of_nat count) by lia.
      split; [exact E|]. split; [exact L|]. split; [|split].
      * intros k Hk Hr. destruct (Z.eq_dec k nx) as [->|Hne].
        -- rewrite B by lia. apply slot_upd_eq. lia.
        -- apply A; lia.
      * intros k Hk Hr. rewrite B by lia. apply slot_upd_ne; lia.
      * exact C.
Qed.

Lemma write_run_agree s1 s s' nx c :
  agree s1 s nx ->
  len_of s' = len_of s ->
  (forall k, 0 <= k -> k <= nx - c \/ nx < k -> slot s' k = slot s k) ->
  0 <= c ->
  agree s1 s' (nx - c).
Proof.
  intros [L A] L' B Hc. split; [congruence|].
  intros k Hk. rewrite B by lia. apply A. lia.
Qed.

Lemma write_run_tail s s' nx c lo hi dp :
  tail_ok s nx lo hi ->
  len_of s' = len_of s ->
  (forall k, 0 <= k -> nx - c < k <= nx -> slot s' k = dp) ->
  (forall k, 0 <= k -> k <= nx - c \/ nx < k -> slot s' k = slot s k) ->
  0 <= c -> lo <= dp -> hi <= dp ->
  tail_ok s' (nx - c) lo dp.
Proof.
  intros T L A B Hc Hlo Hhi q Hq Hr. rewrite L in *.
  destruct (Z_le_gt_dec q nx) as [Hin|Hout].
  - rewrite A by lia. split; [lia|]. intros Hq1.
    destruct (Z_le_gt_dec (q + 1) nx) as [Hin1|Hout1].
    + rewrite A by lia. lia.
    + rewrite B by lia. destruct (T (q + 1) ltac:(lia) ltac:(lia)). lia.
  - rewrite B by lia. destruct (T q ltac:(lia) ltac:(lia)) as [T1 T2].
    split; [lia|]. intros Hq1. rewrite B by lia. auto.
Qed.

(** ** The weight of the lengths written *)

Lemma weight_step K s q :
  0 <= q < len_of s ->
  written_weight K s (q - 1) = 2 ^ (K - slot s q) + written_weight K s q.
Proof.
  intros Hq. unfold written_weight.
  replace (Z.to_nat (q - 1 + 1)) with (Z.to_nat q) by lia.
  replace (Z.to_nat (q + 1)) with (S (Z.to_nat q)) by lia.
  rewrite (drop_S (elems s) (slot s q) (Z.to_nat q))
    by (apply slot_lookup; exact Hq).
  reflexivity.
Qed.

Lemma weight_ext K s s' nx :
  len_of s' = len_of s -> -1 <= nx ->
  (forall k, 0 <= k -> nx < k -> slot s' k = slot s k) ->
  written_weight K s' nx = written_weight K s nx.
Proof.
  intros L Hnx H. unfold written_weight. f_equal.
  apply list_eq. intros i. rewrite !lookup_drop.
  set (j := (Z.to_nat (nx + 1) + i)%nat).
  destruct (Z_lt_le_dec (Z.of_nat j) (len_of s)) as [Hin|Hout].
  - rewrite <- (Nat2Z.id j).
    rewrite !slot_lookup by lia. f_equal. apply H; lia.
  - unfold len_of in *.
    rewrite !(proj2 (lookup_ge_None _ _)) by lia. reflexivity.
Qed.

Lemma weight_start K s : written_weight K s (len_of s - 1) = 0.
Proof.
  unfold written_weight, len_of.
  rewrite drop_ge by lia. reflexivity.
Qed.

(** A run of [c] stores of the length [dp] adds [c] times the weight of
    [dp]. *)
Lemma write_run_weight K s s' nx c dp :
  len_of s' = len_of s ->
  (forall k, 0 <= k -> nx - c < k <= nx -> slot s' k = dp) ->
  (forall k, 0 <= k -> k <= nx - c \/ nx < k -> slot s' k = slot s k) ->
  0 <= c -> -1 <= nx - c -> nx <= len_of s - 1 ->
  written_weight K s' (nx - c) = c * 2 ^ (K - dp) + written_weight K s nx.
Proof.
  intros L A B Hc Hlow Hnx.
  rewrite <- (weight_ext K s s' nx L ltac:(lia)) by (intros; apply B; lia).
  assert (G : forall j : nat,
             Z.of_nat j <= c ->
             written_weight K s' (nx - Z.of_nat j)
             = Z.of_nat j * 2 ^ (K - dp) + written_weight K s' nx).
  { induction j as [|j IH]; intros Hj.
    - replace (nx - Z.of_nat 0) with nx by lia. lia.
    - replace (nx - Z.of_nat (S j)) with (nx - Z.of_nat j - 1) by lia.
      rewrite weight_step by lia.
      rewrite A by lia. rewrite IH by lia. lia. }
  specialize (G (Z.to_nat c) ltac:(lia)).
  rewrite Z2Nat.id in G by lia. exact G.
Qed.

Lemma weight_balance K d a b :
  0 <= b -> (0 < b -> d + 1 <= K) ->
  (a - b) * 2 ^ (K - d) + 2 * b * 2 ^ (K - (d + 1)) = a * 2 ^ (K - d).
Proof.
  intros Hb H. destruct (Z.eq_dec b 0) as [->|Hne].
  - lia.
  - specialize (H ltac:(lia)).
    replace (K - d) with (K - (d + 1) + 1) by lia.
    rewrite pow2_succ by lia. ring.
Qed.

Lemma kraft_rescale K M l :
  M <= K -> Forall (fun x => x <= M) l ->
  kraft_scaled K l = 2 ^ (K - M) * kraft_scaled M l.
Proof.
  intros HK H. induction H as [|x l Hx Hl IH]; simpl.
  - lia.
  - rewrite IH.
    replace (K - x) with ((K - M) + (M - x)) by lia.
    rewrite Z.pow_add_r by lia. lia.
Qed.

Lemma max_bounds l :
  0 <= fold_right Z.max 0 l /\
  Forall (fun x => x <= fold_right Z.max 0 l) l.
Proof.
  induction l as [|x l [IH1 IH2]]; simpl.
  - split; [lia | constructor].
  - split; [lia|]. constructor; [lia|].
    eapply Forall_impl; [exact IH2|]. simpl. intros a Ha. lia.
Qed.

Lemma max_reached l hi :
  Forall (fun x => x <= hi) l -> 0 <= hi -> fold_right Z.max 0 l <= hi.
Proof.
  intros H Hhi. induction H as [|x l Hx Hl IH]; simpl; lia.
Qed.

(** Kraft equality at the scale [K] is Kraft equality. *)
Lemma kraft_equality_at K l :
  0 <= K -> Forall (fun x => 1 <= x <= K) l ->
  kraft_scaled K l = 2 ^ K -> kraft_equality l.
Proof.
  intros HK H E.
  destruct (max_bounds l) as [M0 MB].
  set (M := fold_right Z.max 0 l) in *.
  assert (HM : M <= K).
  { apply max_reached; [|lia].
    eapply Forall_impl; [exact H|]. simpl. intros a Ha. lia. }
  split.
  - eapply Forall_impl; [exact H|]. simpl. intros a Ha. lia.
  - fold M.
    rewrite (kraft_rescale K M) in E by (auto; lia).
    replace K with ((K - M) + M) in E at 2 by lia.
    rewrite Z.pow_add_r in E by lia.
    pose proof (pow2_pos (K - M) ltac:(lia)).
    apply Z.mul_reg_l in E; [exact E | lia].
Qed.

Lemma tail_ok_start s lo hi : tail_ok s (len_of s - 1) lo hi.
Proof. intros q Hq Hr. lia. Qed.

Lemma tail_ok_all s hi :
  tail_ok s (-1) 1 hi ->
  non_increasing (elems s) /\ Forall (fun x => 1 <= x <= hi) (elems s).
Proof.
  intros T. split.
  - intros i x y Hx Hy.
    pose proof (lookup_lt_Some _ _ _ Hy) as Hlen.
    destruct (T (Z.of_nat i) ltac:(lia) ltac:(unfold len_of; lia))
      as [_ T2].
    specialize (T2 ltac:(unfold len_of; lia)).
    unfold slot in T2.
    replace (Z.to_nat (Z.of_nat i + 1)) with (S i) in T2 by lia.
    rewrite Nat2Z.id, Hx, Hy in T2. exact T2.
  - apply Forall_lookup. intros i x Hx.
    pose proof (lookup_lt_Some _ _ _ Hx) as Hlen.
    destruct (T (Z.of_nat i) ltac:(lia) ltac:(unfold len_of; lia))
      as [T1 _].
    unfold slot in T1. rewrite Nat2Z.id, Hx in T1. exact T1.
Qed.

(** ** The unlimited assigner *)

Lemma rem_nonneg_pos x n : 0 <= x -> 0 < n -> 0 <= Z.rem x n.
Proof. intros Hx Hn. apply Z.rem_nonneg; lia. Qed.

Section Unlimited.
Variables (s1 : buffer) (maximumLength : Z) (inner : nat).
Hypothesis Htree : tree_shape s1.
Hypothesis Hfit : fits_int32 s1.
Hypothesis Hinner : (Z.to_nat (len_of s1) <= inner)%nat.

Lemma anl_first s G nx d a :
  anl_inv s1 maximumLength s G nx d a -> 0 < a ->
  first inner (G - 1) 0 s = Ret (natstep s1 G, s).
Proof.
  intros Inv Ha. destruct Inv.
  pose proof ai_agree0 as [L A].
  pose proof (ts_len _ Htree) as Hn.
  assert (E : low s (G - 1) 0 = natstep s1 G).
  { unfold natstep. apply (low_agree s1 s nx); auto; lia. }
  rewrite <- E. apply first_low; try lia.
  - unfold fits_int32 in *. lia.
  - apply (agree_pointers s1 s nx); [exact ai_agree0 | lia |].
    rewrite L. apply tree_pointers_below; [exact Htree | lia].
  - intros Hneg k Hk. rewrite L in Hk.
    destruct (Z_le_gt_dec k nx) as [Hin|Hout].
    + rewrite (agree_parent s1 s nx) by (auto; lia).
      pose proof (tree_parent s1 k Htree ltac:(lia)). lia.
    + destruct (ai_tail0 k ltac:(lia) ltac:(lia)) as [T1 _].
      unfold parent.
      pose proof (rem_nonneg_pos (slot s k) (len_of s) ltac:(lia)
                    ltac:(lia)).
      lia.
Qed.

Lemma anl_step s G nx d a :
  anl_inv s1 maximumLength s G nx d a -> 0 < a ->
  exists s',
    write_run (Z.to_nat (a - (G - natstep s1 G))) nx d s
      = Ret (nx - (a - (G - natstep s1 G)), s') /\
    anl_inv s1 maximumLength s' (natstep s1 G)
            (nx - (a - (G - natstep s1 G))) (d + 1)
            (shl (G - natstep s1 G) 1).
Proof.
  intros Inv Ha. destruct Inv.
  pose proof ai_agree0 as [L A].
  pose proof (ts_len _ Htree) as Hn.
  destruct (ai_room0 Ha) as (U & HU & HaU & Hpar).
  destruct (ai_reach0 Ha) as (Hd & Hreach).
  set (G' := natstep s1 G) in *.
  pose proof (natstep_range s1 G ltac:(lia)) as HG'. fold G' in HG'.
  destruct (low_spec s1 (G - 1) 0 ltac:(lia)) as (_ & LB & LC).
  change (low s1 (G - 1) 0) with G' in LB, LC.
  assert (Hkids : forall k, G' <= k < G -> G <= parent s1 k < U).
  { intros k Hk. split; [|apply Hpar; lia].
    specialize (LB ltac:(lia)).
    pose proof (tree_mono s1 G' k Htree ltac:(lia) ltac:(lia)). lia. }
  pose proof (children_bound s1 G' G G U Htree ltac:(lia) ltac:(lia)
                ltac:(lia) Hkids) as Hcb.
  destruct (write_run_spec (Z.to_nat (a - (G - G'))) nx d s
              ltac:(lia)) as (s' & E & L' & WA & WB & WC).
  rewrite Z2Nat.id in E, WA, WB, WC by lia.
  exists s'. split; [exact E|].
  unfold fits_int32 in Hfit.
  rewrite shl_1 by lia.
  split.
  - apply (write_run_agree s1 s s' nx); auto; lia.
  - rewrite WC by lia. exact ai_stray0.
  - lia.
  - lia.
  - lia.
  - lia.
  - lia.
  - replace (d + 1 - 1) with d by lia.
    apply (write_run_tail s s' nx (a - (G - G')) 1 (d - 1) d); auto; lia.
  - intros Hz. assert (G' = G) by lia.
    destruct (Z.eq_dec G 0) as [E0|E0]; [lia|].
    pose proof (natstep_lt_tree s1 G Htree ltac:(lia)). fold G' in H0.
    lia.
  - intros Hpos. exists G. split; [lia|]. split; [lia|].
    intros k Hk. specialize (LC k ltac:(lia)). lia.
  - intros Hpos.
    assert (HGpos : 0 < G) by lia.
    assert (Hd1 : d < maximumLength).
    { destruct (Z.eq_dec d maximumLength) as [Ed|Ed]; [|lia].
      rewrite Ed in Hreach.
      replace (Z.to_nat (maximumLength - maximumLength)) with O in Hreach
        by lia.
      simpl in Hreach. lia. }
    split; [lia|].
    replace (Z.to_nat (maximumLength - d))
      with (S (Z.to_nat (maximumLength - (d + 1)))) in Hreach by lia.
    simpl in Hreach. exact Hreach.
  - rewrite (write_run_weight maximumLength s s' nx (a - (G - G')) d)
      by (auto; lia).
    rewrite <- ai_kraft0.
    assert (Hbal : 0 < G - G' -> d + 1 <= maximumLength).
    { intros Hpos.
      destruct (Z.eq_dec d maximumLength) as [Ed|Ed]; [|lia].
      rewrite Ed in Hreach.
      replace (Z.to_nat (maximumLength - maximumLength)) with O in Hreach
        by lia.
      simpl in Hreach. lia. }
    pose proof (weight_balance maximumLength d a (G - G') ltac:(lia) Hbal).
    lia.
Qed.

Lemma anl_exit s G nx d :
  anl_inv s1 maximumLength s G nx d 0 ->
  len_of s = len_of s1 /\ stray s = stray s1 /\
  tail_ok s (-1) 1 maximumLength /\
  written_weight maximumLength s (-1) = 2 ^ maximumLength.
Proof.
  intros I. destruct I. destruct ai_agree0 as [L _].
  specialize (ai_done0 eq_refl). subst G.
  assert (nx = -1) by lia. subst nx.
  split; [exact L|]. split; [exact ai_stray0|]. split.
  - intros q Hq Hr. destruct (ai_tail0 q Hq Hr) as [T1 T2].
    split; [lia | exact T2].
  - lia.
Qed.

Lemma anl_loop_ok fuel :
  forall s G nx d a,
    anl_inv s1 maximumLength s G nx d a ->
    (1 <= fuel)%nat ->
    a = 0 \/ (Z.to_nat G + 2 <= fuel)%nat ->
    exists s',
      anl_loop inner fuel G nx d a s = Ret (tt, s') /\
      len_of s' = len_of s1 /\ stray s' = stray s1 /\
      tail_ok s' (-1) 1 maximumLength /\
      written_weight maximumLength s' (-1) = 2 ^ maximumLength.
Proof.
  induction fuel as [|fuel IH]; intros s G nx d a Inv H1 Hf; [lia|].
  simpl anl_loop.
  destruct (a >? 0) eqn:Ea.
  - apply gtb_true in Ea. destruct Hf as [Hf|Hf]; [lia|].
    rewrite (bind_Ret _ _ _ _ _ (anl_first s G nx d a Inv Ea)).
    destruct (anl_step s G nx d a Inv Ea) as (s' & E & Inv').
    rewrite (bind_Ret _ _ _ _ _ E).
    apply (IH _ _ _ _ _ Inv'); [lia|].
    destruct (Z.eq_dec G 0) as [E0|E0].
    + left. subst G. rewrite natstep_zero. reflexivity.
    + right. destruct Inv.
      pose proof (natstep_lt_tree s1 G Htree ltac:(lia)).
      pose proof (natstep_range s1 G ltac:(lia)). lia.
  - apply gtb_false in Ea.
    assert (a = 0) by (destruct Inv; lia). subst a.
    exists s. split; [reflexivity|]. eapply anl_exit, Inv.
Qed.

Lemma allocateNodeLengths_ok :
  1 <= maximumLength ->
  natsteps s1 (Z.to_nat (maximumLength - 1)) (len_of s1 - 2) = 0 ->
  exists s',
    allocateNodeLengths inner s1 = Ret (tt, s') /\
    len_of s' = len_of s1 /\ stray s' = stray s1 /\
    tail_ok s' (-1) 1 maximumLength /\
    written_weight maximumLength s' (-1) = 2 ^ maximumLength.
Proof.
  intros Hmax Hreach. unfold allocateNodeLengths.
  rewrite run_array_length.
  pose proof (ts_len _ Htree) as Hn.
  apply anl_loop_ok; [|lia|right; lia].
  split; try lia; try apply agree_refl; try reflexivity;
    try apply tail_ok_start.
  - intros _. exists (len_of s1 - 1). split; [lia|]. split; [lia|].
    intros k Hk. pose proof (tree_parent s1 k Htree ltac:(lia)). lia.
  - rewrite weight_start.
    replace maximumLength with (maximumLength - 1 + 1) at 2 by lia.
    rewrite pow2_succ by lia. lia.
Qed.
End Unlimited.

(** ** The limited assigner *)

Lemma natsteps_S_lt s j G :
  tree_shape s -> 0 < G <= len_of s - 2 -> natsteps s (S j) G < G.
Proof.
  intros T HG. simpl.
  pose proof (natstep_lt_tree s G T HG).
  pose proof (natstep_range s G ltac:(lia)).
  pose proof (natsteps_range s j (natstep s G) ltac:(lia)). lia.
Qed.

Lemma low_clip s limit nodesToMove :
  tree_shape s -> 0 <= nodesToMove <= limit + 1 -> limit <= len_of s - 3 ->
  low s limit nodesToMove = Z.max nodesToMove (low s limit 0).
Proof.
  intros T Hn Hl.
  destruct (low_spec s limit 0 ltac:(lia)) as (A & B & C).
  apply low_unique.
  - lia.
  - intros Hk. destruct (Z_le_gt_dec nodesToMove (low s limit 0)) as [H|H].
    + rewrite Z.max_r by lia. apply B. lia.
    + rewrite Z.max_l in * by lia. specialize (B ltac:(lia)).
      pose proof (tree_mono s (low s limit 0) nodesToMove T ltac:(lia)
                    ltac:(lia)). lia.
  - intros j Hj. apply C. lia.
Qed.

Section Limited.
Variables (s1 : buffer) (maximumLength nodesToMove insertDepth : Z).
Variable inner : nat.
Hypothesis Htree : tree_shape s1.
Hypothesis Hfit : fits_int32 s1.
Hypothesis Hinner : (Z.to_nat (len_of s1) <= inner)%nat.
Hypothesis Hntm : 2 <= nodesToMove <= len_of s1 - 2.
Hypothesis Hins : 0 <= insertDepth.
Hypothesis Hwidth : 1 <= maximumLength - insertDepth <= 30.
Hypothesis Hpow :
  2 ^ (maximumLength - insertDepth - 1) <= nodesToMove - 1
  /\ nodesToMove - 1 < 2 ^ (maximumLength - insertDepth).
Hypothesis Hlong : len_of s1 <= 2 ^ maximumLength.
Hypothesis Hreach :
  natsteps s1 (Z.to_nat (maximumLength - 2)) (len_of s1 - 2) = nodesToMove.
Hypothesis Hmax : 2 <= maximumLength.

(** The next level, cut at [nodesToMove]. *)
Lemma next_level G :
  nodesToMove < G <= len_of s1 - 2 ->
  nodesToMove <= low s1 (G - 1) nodesToMove <= G - 1 /\
  (forall k, low s1 (G - 1) nodesToMove <= k < G -> G <= parent s1 k) /\
  (forall k, nodesToMove <= k < low s1 (G - 1) nodesToMove ->
             parent s1 k <= G - 1) /\
  low s1 (G - 1) nodesToMove = Z.max nodesToMove (natstep s1 G).
Proof.
  intros HG.
  destruct (low_spec s1 (G - 1) nodesToMove ltac:(lia)) as (A & B & C).
  pose proof (tree_parent s1 (G - 1) Htree ltac:(lia)) as Hp.
  assert (Hlt : low s1 (G - 1) nodesToMove <= G - 1).
  { destruct (Z_le_gt_dec (low s1 (G - 1) nodesToMove) (G - 1))
      as [H|H]; [exact H|].
    specialize (C (G - 1) ltac:(lia)). lia. }
  split; [lia|]. split; [|split; [exact C|]].
  - intros k Hk. specialize (B Hlt).
    pose proof (tree_mono s1 (low s1 (G - 1) nodesToMove) k Htree
                  ltac:(lia) ltac:(lia)). lia.
  - unfold natstep. apply low_clip; auto; lia.
Qed.

(** The slots [first] reads have not been overwritten. *)
Lemma anlr_safe s G nx d left a delta :
  anlr_inv s1 maximumLength nodesToMove insertDepth s G nx d left a delta ->
  0 < a -> nodesToMove < G -> G - 1 <= nx.
Proof.
  intros I Ha HG. destruct I.
  destruct (Z_lt_le_dec d insertDepth) as [Hd|Hd].
  - destruct (ri_natural0 Ha Hd) as (Hl & Hdl & _). lia.
  - destruct (ri_moving0 Ha Hd) as (_ & _ & Hc & Hb & _). lia.
Qed.

Lemma anlr_first s G nx d left a delta :
  anlr_inv s1 maximumLength nodesToMove insertDepth s G nx d left a delta ->
  0 < a -> nodesToMove < G ->
  first inner (G - 1) nodesToMove s
    = Ret (low s1 (G - 1) nodesToMove, s).
Proof.
  intros I Ha HG. pose proof (anlr_safe _ _ _ _ _ _ _ I Ha HG) as Hsafe.
  destruct I. pose proof ri_agree0 as [L A].
  rewrite <- (low_agree s1 s nx (G - 1) nodesToMove) by (auto; lia).
  apply first_low; try lia.
  - unfold fits_int32 in *. lia.
  - apply (agree_pointers s1 s nx); [exact ri_agree0 | lia |].
    rewrite L. apply tree_pointers_below; [exact Htree | lia].
Qed.

(** The invariant after the stores of a turn. *)
Lemma anlr_inv_after_run s G nx d left a delta c G' left' a' delta' :
  anlr_inv s1 maximumLength nodesToMove insertDepth s G nx d left a delta ->
  0 < a ->
    0 <= c ->
  nodesToMove <= G' <= len_of s1 - 2 ->
  0 <= a' -> 0 <= left' -> 0 <= delta' <= 2 ->
  (1 <= insertDepth -> delta' = 0) ->
  nx - c + 1 + delta' = a' + (G' - nodesToMove) + left' ->
  (delta' = 0 -> delta = 0) ->
  (a' = 0 -> G' = nodesToMove /\ left' = 0) ->
  (0 < a' -> d + 1 <= maximumLength) ->
  (0 < a' -> d + 1 < insertDepth ->
   natural_levels s1 maximumLength nodesToMove G' (d + 1) left' a' delta') ->
  (0 < a' -> insertDepth <= d + 1 ->
   moving_levels s1 maximumLength nodesToMove insertDepth
                 G' (d + 1) left' a' delta') ->
  (delta' = 0 ->
   c * 2 ^ (maximumLength - d) + a' * 2 ^ (maximumLength - (d + 1))
   = a * 2 ^ (maximumLength - d)) ->
  exists s',
    write_run (Z.to_nat c) nx d s = Ret (nx - c, s') /\
    anlr_inv s1 maximumLength nodesToMove insertDepth
             s' G' (nx - c) (d + 1) left' a' delta'.
Proof.
  intros I Ha Hc HG' Ha' Hl' Hd' Hex Hcount Hdd Hdone Hcap Hnat Hmov Hbal.
  destruct I. pose proof ri_agree0 as [L A].
  destruct (write_run_spec (Z.to_nat c) nx d s ltac:(lia))
    as (s' & E & L' & WA & WB & WC).
  rewrite Z2Nat.id in E, WA, WB, WC by lia.
  exists s'. split; [exact E|].
  specialize (ri_cap0 Ha).
  split; auto; try lia.
  - apply (write_run_agree s1 s s' nx); auto.
  - intros Hz. rewrite WC by lia. auto.
  - replace (d + 1 - 1) with d by lia.
    apply (write_run_tail s s' nx c 1 (d - 1) d); auto; lia.
  - intros Hz.
    rewrite (write_run_weight maximumLength s s' nx c d) by (auto; lia).
    specialize (Hbal Hz). specialize (ri_kraft0 (Hdd Hz)). lia.
Qed.

(** Above the insert depth the walk goes down the tree. *)
Lemma natural_facts G d left a delta :
  nodesToMove <= G <= len_of s1 - 2 -> d < insertDepth ->
  natural_levels s1 maximumLength nodesToMove G d left a delta ->
  nodesToMove < G /\ low s1 (G - 1) nodesToMove = natstep s1 G /\
  nodesToMove <= natstep s1 G <= G - 1 /\
  natsteps s1 (Z.to_nat (maximumLength - 1 - (d + 1))) (natstep s1 G)
    = nodesToMove.
Proof.
  intros HG Hd (Hl & Hdl & R & U & HU & HaU & Hpar).
  replace (Z.to_nat (maximumLength - 1 - d))
    with (S (Z.to_nat (maximumLength - 1 - (d + 1)))) in R by lia.
  assert (HGn : nodesToMove < G).
  { pose proof (natsteps_S_lt s1 (Z.to_nat (maximumLength - 1 - (d + 1)))
                  G Htree ltac:(lia)). lia. }
  simpl in R.
  pose proof (natstep_range s1 G ltac:(lia)) as Hr.
  pose proof (natsteps_range s1 (Z.to_nat (maximumLength - 1 - (d + 1)))
                (natstep s1 G) ltac:(lia)) as Hr2.
  destruct (next_level G ltac:(lia)) as (N1 & _ & _ & N4).
  split; [exact HGn|]. split; [lia|]. split; [lia | exact R].
Qed.

(** A turn above the insert depth, one level or more above. *)
Lemma step_natural s G nx d left a delta :
  anlr_inv s1 maximumLength nodesToMove insertDepth s G nx d left a delta ->
  0 < a -> d + 1 < insertDepth ->
  exists s',
    write_run
      (Z.to_nat (a - (G - low s1 (G - 1) nodesToMove + 0))) nx d s
      = Ret (nx - (a - (G - low s1 (G - 1) nodesToMove)), s') /\
    anlr_inv s1 maximumLength nodesToMove insertDepth s'
      (low s1 (G - 1) nodesToMove)
      (nx - (a - (G - low s1 (G - 1) nodesToMove))) (d + 1) (left - 0)
      (shl (G - low s1 (G - 1) nodesToMove + 0) 1) delta /\
    low s1 (G - 1) nodesToMove - nodesToMove + (left - 0)
      < G - nodesToMove + left.
Proof.
  intros I Ha Hd. pose proof I as I0. destruct I.
  pose proof (ri_natural0 Ha ltac:(lia)) as Nat.
  destruct (natural_facts G d left a delta ri_first0 ltac:(lia) Nat)
    as (HGn & Efn & Hfn & R').
  destruct Nat as (Hl & Hdl & R & U & HU & HaU & Hpar).
  rewrite Efn in *. set (fn := natstep s1 G) in *.
  destruct (low_spec s1 (G - 1) 0 ltac:(lia)) as (_ & LB & LC).
  change (low s1 (G - 1) 0) with fn in LB, LC.
  assert (Hkids : forall k, fn <= k < G -> G <= parent s1 k < U).
  { intros k Hk. split; [|apply Hpar; lia].
    specialize (LB ltac:(lia)).
    pose proof (tree_mono s1 fn k Htree ltac:(lia) ltac:(lia)). lia. }
  pose proof (children_bound s1 fn G G U Htree ltac:(lia) ltac:(lia)
                ltac:(lia) Hkids) as Hcb.
  unfold fits_int32 in Hfit.
  replace (G - fn + 0) with (G - fn) by lia.
  replace (left - 0) with left by lia.
  rewrite shl_1 by lia.
  destruct (anlr_inv_after_run s G nx d left a delta (a - (G - fn))
              fn left (2 * (G - fn)) delta I0 Ha)
    as (s' & E & I'); try lia.
  - intros _ _. split; [exact Hl|]. split; [exact Hdl|].
    split; [exact R'|]. exists G. split; [lia|]. split; [lia|].
    intros k Hk. specialize (LC k ltac:(lia)). lia.
  - intros _. apply weight_balance; lia.
  - exists s'. split; [exact E|]. split; [exact I' | lia].
Qed.

(** The turn just above the insert depth: one node is inserted, and the
    first node of the level moves down when it is the first child of the
    first node of the level above. *)
Lemma step_insert s G nx d left a delta fn' :
  anlr_inv s1 maximumLength nodesToMove insertDepth s G nx d left a delta ->
  0 < a -> d = insertDepth - 1 ->
  fn' = (if slot s (low s1 (G - 1) nodesToMove) =? G
         then low s1 (G - 1) nodesToMove + 1
         else low s1 (G - 1) nodesToMove) ->
  0 <= low s1 (G - 1) nodesToMove < len_of s /\
  exists s',
    write_run (Z.to_nat (a - (G - fn' + 1))) nx d s
      = Ret (nx - (a - (G - fn' + 1)), s') /\
    anlr_inv s1 maximumLength nodesToMove insertDepth s'
      fn' (nx - (a - (G - fn' + 1))) (d + 1) (left - 1)
      (shl (G - fn' + 1) 1) delta /\
    fn' - nodesToMove + (left - 1) < G - nodesToMove + left.
Proof.
  intros I Ha Hd Efn'. pose proof I as I0.
  pose proof (anlr_safe s G nx d left a delta I Ha) as Hsafe.
  destruct I. pose proof ri_agree0 as [L A].
  pose proof (ri_natural0 Ha ltac:(lia)) as Nat.
  destruct (natural_facts G d left a delta ri_first0 ltac:(lia) Nat)
    as (HGn & Efn & Hfn & R').
  specialize (Hsafe HGn).
  destruct Nat as (Hl & Hdl & R & U & HU & HaU & Hpar).
  destruct (next_level G ltac:(lia)) as (_ & _ & NC & _).
  rewrite Efn in *. set (fn := natstep s1 G) in *.
  destruct (low_spec s1 (G - 1) 0 ltac:(lia)) as (_ & LB & LC).
  change (low s1 (G - 1) 0) with fn in LB, LC.
  assert (Hkids : forall k, fn <= k < G -> G <= parent s1 k < U).
  { intros k Hk. split; [|apply Hpar; lia].
    specialize (LB ltac:(lia)).
    pose proof (tree_mono s1 fn k Htree ltac:(lia) ltac:(lia)). lia. }
  pose proof (children_bound s1 fn G G U Htree ltac:(lia) ltac:(lia)
                ltac:(lia) Hkids) as Hcb.
  unfold fits_int32 in Hfit.
  split; [lia|].
  assert (Hslot : slot s fn = slot s1 fn) by (apply A; lia).
  rewrite Hslot in Efn'.
  assert (Hb : 1 <= G - fn' + 1 <= a /\ fn <= fn' <= fn + 1).
  { destruct (slot s1 fn =? G) eqn:Ex; subst fn'.
    - lia.
    - apply Z.eqb_neq in Ex.
      destruct (Z.eq_dec (G - fn) (2 * (U - G))) as [Efull|Hne]; [|lia].
      pose proof (children_full s1 fn G G U Htree ltac:(lia) ltac:(lia)
                    ltac:(lia) Hkids Efull). lia. }
  rewrite shl_1 by lia.
  assert (P1 : 2 ^ (d + 1 - insertDepth) = 1)
    by (replace (d + 1 - insertDepth) with 0 by lia; reflexivity).
  destruct (anlr_inv_after_run s G nx d left a delta (a - (G - fn' + 1))
              fn' (left - 1) (2 * (G - fn' + 1)) delta I0 Ha)
    as (s' & E & I'); try lia.
  - intros _ _. unfold moving_levels. rewrite P1.
    split; [|split; [|split; [|split]]].
    + replace (Z.to_nat (maximumLength - (d + 1)))
        with (Z.to_nat (maximumLength - 1 - d)) by lia.
      rewrite <- R. apply natsteps_mono. lia.
    + lia.
    + lia.
    + left. lia.
    + left. intros X HX Hk.
      assert (Hmin : Z.min (left - 1) 1 <= 1) by lia.
      destruct (Z_le_gt_dec X fn) as [HXfn|HXfn]; [|lia].
      assert (Hk' : forall k, X <= k < fn -> fn' <= parent s1 k < G).
      { intros k Hkr. split; [apply Hk; lia|].
        specialize (NC k ltac:(lia)). lia. }
      pose proof (children_bound s1 X fn fn' G Htree ltac:(lia) ltac:(lia)
                    ltac:(lia) Hk'). lia.
  - intros _. apply weight_balance; lia.
  - exists s'. split; [exact E|]. split; [exact I' | lia].
Qed.

(** A turn at the insert depth or below. *)
Lemma step_moving s G nx d left a delta fn off :
  anlr_inv s1 maximumLength nodesToMove insertDepth s G nx d left a delta ->
  0 < a -> insertDepth <= d ->
  fn = (if G <=? nodesToMove then G else low s1 (G - 1) nodesToMove) ->
  off = Z.min left (shl 1 (d - insertDepth)) ->
  exists s' delta',
    write_run (Z.to_nat (a - (G - fn + off))) nx d s
      = Ret (nx - Z.max 0 (a - (G - fn + off)), s') /\
    anlr_inv s1 maximumLength nodesToMove insertDepth s'
      fn (nx - Z.max 0 (a - (G - fn + off))) (d + 1) (left - off)
      (shl (G - fn + off) 1) delta' /\
    (shl (G - fn + off) 1 = 0 \/
     fn - nodesToMove + (left - off) < G - nodesToMove + left).
Proof.
  intros I Ha Hd Efn Eoff. pose proof I as I0. destruct I.
  pose proof (ri_cap0 Ha) as Hcap.
  destruct (ri_moving0 Ha Hd) as (R & Fit & Cons & Big & Room).
  rewrite shl_pow in Eoff by lia.
  set (P := 2 ^ (d - insertDepth)) in *.
  assert (HP : 1 <= P) by (pose proof (pow2_pos (d - insertDepth)); lia).
  assert (HP' : 2 ^ (d + 1 - insertDepth) = 2 * P).
  { replace (d + 1 - insertDepth) with (d - insertDepth + 1) by lia.
    apply pow2_succ. lia. }
  unfold fits_int32 in Hfit.
  (* the next level *)
  assert (Hfn : nodesToMove <= fn <= G /\
                (nodesToMove < G -> fn <= G - 1) /\
                (forall k, fn <= k < G -> G <= parent s1 k) /\
                (forall k, nodesToMove <= k < fn -> parent s1 k <= G - 1) /\
                (fn = nodesToMove \/ fn = natstep s1 G /\ nodesToMove < G)).
  { destruct (G <=? nodesToMove) eqn:EG.
    - apply Z.leb_le in EG. subst fn.
      split; [lia|]. split; [lia|]. split; [intros; lia|].
      split; [intros; lia|]. left. lia.
    - apply Z.leb_gt in EG.
      destruct (next_level G ltac:(lia)) as (N1 & N2 & N3 & N4).
      rewrite <- Efn in *.
      split; [lia|]. split; [lia|]. split; [exact N2|].
      split; [exact N3|]. lia. }
  destruct Hfn as (F1 & F2 & F3 & F4 & F5).
  (* the nodes made available without a parent *)
  assert (Hdelta : exists delta',
             delta' = delta + Z.max 0 (G - fn + off - a) /\
             0 <= delta' <= 2 /\ (1 <= insertDepth -> delta' = 0) /\
             nodesToMove - (left - off) + delta' <= 2 * P).
  { destruct Room as [Room|(B1 & B2 & B3 & B4 & B5 & B6)].
    - specialize (Room fn ltac:(lia) F3). rewrite <- Eoff in Room.
      exists delta. split; [lia|]. split; [lia|]. split; [auto | lia].
    - assert (EP : P = 2) by (unfold P; rewrite B1, B2; reflexivity).
      assert (Hk : forall k, fn <= k < G ->
                             len_of s1 - 2 <= parent s1 k < len_of s1 - 1).
      { intros k Hk. specialize (F3 k Hk).
        pose proof (tree_parent s1 k Htree ltac:(lia)). lia. }
      pose proof (children_bound s1 fn G (len_of s1 - 2) (len_of s1 - 1)
                    Htree ltac:(lia) ltac:(lia) ltac:(lia) Hk).
      exists (G - fn + off - a). split; [lia|]. split; [lia|].
      split; lia. }
  destruct Hdelta as (delta' & Edelta & Hdr & Hdex & Hcons').
  assert (Hcap' : 0 < G - fn + off -> d + 1 <= maximumLength).
  { intros Hb. destruct (Z.eq_dec d maximumLength) as [Ed|Ed]; [|lia].
    exfalso. rewrite Ed in R.
    replace (Z.to_nat (maximumLength - maximumLength)) with O in R by lia.
    simpl in R. unfold P in *. rewrite Ed in *. lia. }
  rewrite shl_1 by lia.
  destruct (anlr_inv_after_run s G nx d left a delta
              (Z.max 0 (a - (G - fn + off)))
              fn (left - off) (2 * (G - fn + off)) delta' I0 Ha)
    as (s' & E & I'); try lia.
  - (* the levels that follow *)
    intros Hb _. specialize (Hcap' ltac:(lia)).
    unfold moving_levels. rewrite HP'.
    assert (Rfn : natsteps s1 (Z.to_nat (maximumLength - (d + 1))) fn
                  <= nodesToMove).
    { destruct F5 as [F5|[F5 F6]].
      - rewrite F5.
        pose proof (natsteps_range s1 (Z.to_nat (maximumLength - (d + 1)))
                      nodesToMove ltac:(lia)). lia.
      - rewrite F5.
        replace (Z.to_nat (maximumLength - d))
          with (S (Z.to_nat (maximumLength - (d + 1)))) in R by lia.
        exact R. }
    split; [exact Rfn|]. split; [|split; [exact Hcons'|split]].
    + destruct (Z_le_gt_dec P left) as [C|C].
      * lia.
      * pose proof (pow2_le (d + 1 - insertDepth)
                      (maximumLength - insertDepth) ltac:(lia)). lia.
    + destruct (Z_le_gt_dec P left) as [C|C]; [left; lia|].
      right.
      assert (Hlt : 2 ^ (maximumLength - insertDepth - 1)
                    < 2 ^ (d + 1 - insertDepth)) by lia.
      apply pow2_lt_inv in Hlt; try lia.
      assert (Ed : maximumLength = d + 1) by lia.
      destruct F5 as [F5|[F5 F6]]; [exact F5|].
      replace (Z.to_nat (maximumLength - d)) with 1%nat in R by lia.
      simpl in R. lia.
    + left. intros X HX Hk.
      assert (Hoff : Z.min (left - off) (2 * P) <= 2 * off) by lia.
      destruct (Z_le_gt_dec G nodesToMove) as [C|C]; [lia|].
      assert (Hk' : forall k, X <= k < fn -> fn <= parent s1 k < G).
      { intros k Hkr. split; [apply Hk; lia|].
        specialize (F4 k ltac:(lia)). lia. }
      pose proof (children_bound s1 X fn fn G Htree ltac:(lia) ltac:(lia)
                    ltac:(lia) Hk'). lia.
  - intros Hz.
    replace (Z.max 0 (a - (G - fn + off))) with (a - (G - fn + off))
      by lia.
    apply weight_balance; lia.
  - exists s', delta'.
    replace (Z.to_nat (a - (G - fn + off)))
      with (Z.to_nat (Z.max 0 (a - (G - fn + off)))) by lia.
    split; [exact E|]. split; [exact I' | lia].
Qed.

Lemma anlr_exit s G nx d left delta :
  anlr_inv s1 maximumLength nodesToMove insertDepth s G nx d left 0 delta ->
  len_of s = len_of s1 /\ tail_ok s (-1) 1 maximumLength /\
  (1 <= insertDepth ->
   stray s = stray s1 /\
   written_weight maximumLength s (-1) = 2 ^ maximumLength).
Proof.
  intros I. destruct I. destruct ri_agree0 as [L _].
  destruct (ri_done0 eq_refl) as [EG El].
  split; [exact L|]. split.
  - intros q Hq Hr. destruct (ri_tail0 q ltac:(lia) Hr) as [T1 T2].
    split; [lia | exact T2].
  - intros Hi. specialize (ri_exact0 Hi).
    split; [apply ri_stray0; exact ri_exact0|].
    specialize (ri_kraft0 ri_exact0).
    replace nx with (-1) in ri_kraft0 by lia. lia.
Qed.

Lemma anlr_loop_ok fuel :
  forall s G nx d left a delta,
    anlr_inv s1 maximumLength nodesToMove insertDepth s G nx d left a delta ->
    (1 <= fuel)%nat ->
    a = 0 \/ (Z.to_nat (G - nodesToMove + left) + 2 <= fuel)%nat ->
    exists s',
      anlr_loop inner fuel nodesToMove insertDepth G nx d left a s
        = Ret (tt, s') /\
      len_of s' = len_of s1 /\ tail_ok s' (-1) 1 maximumLength /\
      (1 <= insertDepth ->
       stray s' = stray s1 /\
       written_weight maximumLength s' (-1) = 2 ^ maximumLength).
Proof.
  induction fuel as [|fuel IH]; intros s G nx d left a delta I H1 Hf; [lia|].
  simpl anlr_loop.
  destruct (a >? 0) eqn:Ea.
  2:{ apply gtb_false in Ea.
      assert (a = 0) by (destruct I; lia). subst a.
      exists s. split; [reflexivity|]. eapply anlr_exit, I. }
  apply gtb_true in Ea.
  destruct Hf as [Hf|Hf]; [lia|].
  assert (Hnext : forall s' G' nx' left' a' delta',
             anlr_inv s1 maximumLength nodesToMove insertDepth
                      s' G' nx' (d + 1) left' a' delta' ->
             a' = 0 \/ G' - nodesToMove + left' < G - nodesToMove + left ->
             exists s'',
               anlr_loop inner fuel nodesToMove insertDepth
                         G' nx' (d + 1) left' a' s' = Ret (tt, s'') /\
               len_of s'' = len_of s1 /\
               tail_ok s'' (-1) 1 maximumLength /\
               (1 <= insertDepth ->
                stray s'' = stray s1 /\
                written_weight maximumLength s'' (-1)
                = 2 ^ maximumLength)).
  { intros s' G' nx' left' a' delta' I' Hm.
    apply (IH s' G' nx' (d + 1) left' a' delta' I'); [lia|].
    destruct Hm as [Hm|Hm]; [left; exact Hm|right].
    destruct I, I'. lia. }
  destruct (G <=? nodesToMove) eqn:EG.
  - (* the tree is used up *)
    rewrite run_ret.
    assert (Hd : insertDepth <= d).
    { destruct (Z_lt_le_dec d insertDepth) as [C|C]; [|exact C].
      exfalso. apply Z.leb_le in EG. destruct I.
      pose proof (natural_facts G d left a delta ri_first0 C
                    (ri_natural0 Ea C)). lia. }
    assert (Ed : (d >=? insertDepth) = true)
      by (rewrite Z.geb_leb; apply Z.leb_le; exact Hd).
    rewrite Ed, run_ret. cbv beta iota.
    destruct (step_moving s G nx d left a delta G
                (Z.min left (shl 1 (d - insertDepth))) I Ea Hd
                ltac:(rewrite EG; reflexivity) eq_refl)
      as (s' & delta' & E & I' & Hm).
    rewrite (bind_Ret _ _ _ _ _ E).
    apply (Hnext _ _ _ _ _ _ I' Hm).
  - apply Z.leb_gt in EG.
    rewrite (bind_Ret _ _ _ _ _ (anlr_first s G nx d left a delta I Ea EG)).
    destruct (d >=? insertDepth) eqn:Ed.
    + apply geb_true in Ed. rewrite run_ret. cbv beta iota.
      destruct (step_moving s G nx d left a delta
                  (low s1 (G - 1) nodesToMove)
                  (Z.min left (shl 1 (d - insertDepth))) I Ea Ed
                  ltac:(apply Z.leb_gt in EG; rewrite EG; reflexivity)
                  eq_refl)
        as (s' & delta' & E & I' & Hm).
      rewrite (bind_Ret _ _ _ _ _ E).
      apply (Hnext _ _ _ _ _ _ I' Hm).
    + apply geb_false in Ed.
      destruct (d =? insertDepth - 1) eqn:Ed1.
      * apply Z.eqb_eq in Ed1.
        destruct (step_insert s G nx d left a delta _ I Ea Ed1 eq_refl)
          as (Hrd & s' & E & I' & Hm).
        rewrite run_bind, run_read, run_ret by exact Hrd. cbv beta iota.
        rewrite (bind_Ret _ _ _ _ _ E).
        apply (Hnext _ _ _ _ _ _ I'). right. exact Hm.
      * apply Z.eqb_neq in Ed1. rewrite run_ret. cbv beta iota.
        destruct (step_natural s G nx d left a delta I Ea ltac:(lia))
          as (s' & E & I' & Hm).
        rewrite (bind_Ret _ _ _ _ _ E).
        apply (Hnext _ _ _ _ _ _ I'). right. exact Hm.
Qed.

Lemma root_children X :
  nodesToMove <= X <= len_of s1 - 2 ->
  (forall k, X <= k < len_of s1 - 2 -> len_of s1 - 2 <= parent s1 k) ->
  len_of s1 - 2 - X <= 2.
Proof.
  intros HX Hk.
  assert (Hk' : forall k, X <= k < len_of s1 - 2 ->
                          len_of s1 - 2 <= parent s1 k < len_of s1 - 1).
  { intros k Hkr. specialize (Hk k Hkr).
    pose proof (tree_parent s1 k Htree ltac:(lia)). lia. }
  pose proof (children_bound s1 X (len_of s1 - 2) (len_of s1 - 2)
                (len_of s1 - 1) Htree ltac:(lia) ltac:(lia) ltac:(lia) Hk').
  lia.
Qed.

Lemma anlr_start_inv :
  anlr_inv s1 maximumLength nodesToMove insertDepth s1
    (len_of s1 - 2) (len_of s1 - 1)
    (if insertDepth =? 1 then 2 else 1)
    (if insertDepth =? 1 then nodesToMove - 2 else nodesToMove)
    (shl (if insertDepth =? 1 then 2 else 1) 1) 0.
Proof.
  pose proof (ts_len _ Htree) as Hn.
  destruct (insertDepth =? 1) eqn:E1.
  - apply Z.eqb_eq in E1. change (shl 2 1) with 4.
    split; try lia; try apply agree_refl; try reflexivity;
      try apply tail_ok_start.
    + intros _ _. unfold moving_levels.
      replace (2 - insertDepth) with 1 by lia. change (2 ^ 1) with 2.
      destruct Hpow as [Hp1 Hp2].
      split; [rewrite Hreach; lia|]. split; [lia|]. split; [lia|].
      split; [left; lia|]. left. intros X HX Hk.
      pose proof (root_children X HX Hk). lia.
    + intros _. rewrite weight_start.
      replace maximumLength with (maximumLength - 2 + 1 + 1) at 2 by lia.
      rewrite !pow2_succ by lia. lia.
  - apply Z.eqb_neq in E1. change (shl 1 1) with 2.
    split; try lia; try apply agree_refl; try reflexivity;
      try apply tail_ok_start.
    + intros _ Hd. split; [reflexivity|]. split; [reflexivity|].
      replace (maximumLength - 1 - 1) with (maximumLength - 2) by lia.
      split; [exact Hreach|].
      exists (len_of s1 - 1). split; [lia|]. split; [lia|].
      intros k Hk. pose proof (tree_parent s1 k Htree ltac:(lia)). lia.
    + intros _ Hd. assert (E0 : insertDepth = 0) by lia.
      unfold moving_levels. rewrite E0.
      replace (maximumLength - 0) with maximumLength by lia.
      change (2 ^ (1 - 0)) with 2.
      split; [|split; [lia|split; [lia|split; [left; lia|]]]].
      * pose proof (natsteps_le_more s1 (Z.to_nat (maximumLength - 2))
                      (Z.to_nat (maximumLength - 1)) (len_of s1 - 2)
                      ltac:(lia) ltac:(lia)).
        lia.
      * right. repeat split; lia.
    + intros _. rewrite weight_start.
      replace maximumLength with (maximumLength - 1 + 1) at 2 by lia.
      rewrite pow2_succ by lia. lia.
Qed.

Lemma allocateNodeLengthsWithRelocation_ok :
  exists s',
    allocateNodeLengthsWithRelocation inner nodesToMove insertDepth s1
      = Ret (tt, s') /\
    len_of s' = len_of s1 /\ tail_ok s' (-1) 1 maximumLength /\
    (1 <= insertDepth ->
     stray s' = stray s1 /\
     written_weight maximumLength s' (-1) = 2 ^ maximumLength).
Proof.
  unfold allocateNodeLengthsWithRelocation. rewrite run_array_length.
  pose proof (ts_len _ Htree) as Hn.
  eapply anlr_loop_ok; [apply anlr_start_inv | lia |].
  right. destruct (insertDepth =? 1); lia.
Qed.
End Limited.

(** ** The three passes together *)

Lemma alloc_three_passes fuel maximumLength s s1 s2 nodesToRelocate a0 :
  3 <= len_of s ->
  setExtendedParentPointers s = Ret (tt, s1) ->
  findNodesToRelocate fuel maximumLength s1 = Ret (nodesToRelocate, s2) ->
  elems s1 !! 0%nat = Some a0 ->
  allocateHuffmanCodeLengths fuel maximumLength s
  = if Z.rem a0 (len_of s1) >=? nodesToRelocate
    then allocateNodeLengths fuel s1
    else allocateNodeLengthsWithRelocation fuel nodesToRelocate
           (maximumLength - fls (nodesToRelocate - 1)) s1.
Proof.
  intros Hlen H1 H2 H0.
  assert (E : s2 = s1)
    by (eapply unchanged_Ret, H2; apply unchanged_findNodesToRelocate).
  subst s2.
  assert (Hl : len_of s1 = len_of s)
    by (eapply keeps_len_setExtendedParentPointers, H1).
  unfold allocateHuffmanCodeLengths.
  unfold bind at 1. unfold array_length at 1.
  destruct (len_of s =? 2) eqn:E2; [apply Z.eqb_eq in E2; lia|].
  destruct (len_of s =? 1) eqn:E1; [apply Z.eqb_eq in E1; lia|].
  rewrite (bind_Ret _ _ _ _ _ H1), (bind_Ret _ _ _ _ _ H2).
  rewrite (bind_Ret _ _ _ a0 s1) by (apply read_ok; [lia | exact H0]).
  rewrite Hl. destruct (Z.rem a0 (len_of s) >=? nodesToRelocate); reflexivity.
Qed.

Lemma fls_spec v :
  1 <= v -> 1 <= fls v /\ 2 ^ (fls v - 1) <= v < 2 ^ fls v.
Proof.
  intros H. unfold fls.
  destruct (v <=? 0) eqn:E; [apply Z.leb_le in E; lia|].
  pose proof (Z.log2_spec v ltac:(lia)) as Hs.
  pose proof (Z.log2_nonneg v).
  replace (Z.log2 v + 1 - 1) with (Z.log2 v) by lia.
  replace (Z.succ (Z.log2 v)) with (Z.log2 v + 1) in Hs by lia.
  split; [lia | exact Hs].
Qed.

Lemma fls_le v b : 1 <= v < 2 ^ b -> fls v <= b.
Proof.
  intros H. unfold fls.
  destruct (v <=? 0) eqn:E; [apply Z.leb_le in E; lia|].
  assert (Hl : Z.log2 v < b) by (apply Z.log2_lt_pow2; lia). lia.
Qed.

Lemma pow2_small m : m <= 1 -> 2 ^ m <= 2.
Proof.
  intros H. destruct (Z_lt_le_dec m 0) as [C|C].
  - rewrite Z.pow_neg_r by lia. lia.
  - pose proof (pow2_le m 1 ltac:(lia)). change (2 ^ 1) with 2 in *. lia.
Qed.

(** On three slots or more, with [maximumLength] at least
    [ceil(log2(n))]: the run returns, every slot holds a length from [1] to
    [maximumLength], the lengths never go up, and no store went astray when
    [maximumLength] is above [ceil(log2(n))]. *)
Lemma alloc_large s fuel maximumLength :
  3 <= len_of s -> fits_int32 s -> len_of s <= 2 ^ maximumLength ->
  (Z.to_nat (len_of s) <= fuel)%nat ->
  exists s',
    allocateHuffmanCodeLengths fuel maximumLength s = Ret (tt, s') /\
    len_of s' = len_of s /\ tail_ok s' (-1) 1 maximumLength /\
    (2 * len_of s <= 2 ^ maximumLength ->
     stray s' = stray s /\
     kraft_scaled maximumLength (elems s') = 2 ^ maximumLength).
Proof.
  intros Hn Hfit Hlong Hfuel.
  assert (Hmax : 2 <= maximumLength).
  { destruct (Z_le_gt_dec maximumLength 1) as [C|C]; [|lia].
    pose proof (pow2_small maximumLength C). lia. }
  destruct (setExtendedParentPointers_tree s Hn) as (s1 & E1 & T & L1 & S1).
  assert (Hfit1 : fits_int32 s1) by (unfold fits_int32 in *; lia).
  destruct (findNodesToRelocate_spec s1 fuel maximumLength T Hfit1
              ltac:(lia)) as (j & E2 & Hj1 & Hj2).
  set (ntr := natsteps s1 j (len_of s1 - 2)) in *.
  pose proof (natsteps_range s1 j (len_of s1 - 2) ltac:(lia)) as Hntr.
  fold ntr in Hntr.
  rewrite (alloc_three_passes fuel maximumLength s s1 s1 ntr (slot s1 0)
             Hn E1 E2 (slot_lookup s1 0 ltac:(lia))).
  change (Z.rem (slot s1 0) (len_of s1)) with (parent s1 0).
  pose proof (tree_parent s1 0 T ltac:(lia)) as Hp0.
  destruct (parent s1 0 >=? ntr) eqn:Ec.
  - (* no node has to move *)
    apply geb_true in Ec.
    assert (Hz : natstep s1 ntr = 0).
    { destruct (Z.eq_dec ntr 0) as [E0|E0].
      - rewrite E0. apply natstep_zero.
      - unfold natstep. apply low_unique; intros; lia. }
    assert (Hreach : natsteps s1 (Z.to_nat (maximumLength - 1))
                       (len_of s1 - 2) = 0).
    { replace (Z.to_nat (maximumLength - 1))
        with (S j + (Z.to_nat (maximumLength - 1) - S j))%nat by lia.
      rewrite natsteps_add, natsteps_S_r. fold ntr.
      rewrite Hz. apply natsteps_zero. }
    destruct (allocateNodeLengths_ok s1 maximumLength fuel T Hfit1
                ltac:(lia) ltac:(lia) Hreach) as (s' & E & L & S & Tl & W).
    exists s'. split; [exact E|]. split; [lia|]. split; [exact Tl|].
    intros _. split; [congruence | exact W].
  - (* some nodes have to move *)
    apply geb_false in Ec.
    assert (Hj : Z.of_nat j = maximumLength - 2) by lia.
    assert (Hreach : natsteps s1 (Z.to_nat (maximumLength - 2))
                       (len_of s1 - 2) = ntr).
    { replace (Z.to_nat (maximumLength - 2)) with j by lia. reflexivity. }
    destruct (fls_spec (ntr - 1) ltac:(lia)) as (F1 & F2 & F3).
    unfold fits_int32 in Hfit1.
    pose proof (fls_le (ntr - 1) 30 ltac:(lia)) as F4.
    pose proof (fls_le (ntr - 1) maximumLength ltac:(lia)) as F5.
    set (ins := maximumLength - fls (ntr - 1)) in *.
    destruct (allocateNodeLengthsWithRelocation_ok s1 maximumLength ntr ins
                fuel T Hfit1 ltac:(lia) ltac:(lia) ltac:(lia) ltac:(lia))
      as (s' & E & L & Tl & S); try lia.
    + unfold ins.
      replace (maximumLength - (maximumLength - fls (ntr - 1)) - 1)
        with (fls (ntr - 1) - 1) by lia.
      replace (maximumLength - (maximumLength - fls (ntr - 1)))
        with (fls (ntr - 1)) by lia.
      lia.
    + exists s'. split; [exact E|]. split; [lia|]. split; [exact Tl|].
      intros Hhalf.
      assert (Hm1 : 2 ^ maximumLength = 2 * 2 ^ (maximumLength - 1)).
      { replace maximumLength with (maximumLength - 1 + 1) at 1 by lia.
        apply pow2_succ. lia. }
      pose proof (fls_le (ntr - 1) (maximumLength - 1) ltac:(lia)).
      destruct (S ltac:(unfold ins; lia)) as [S' W].
      split; [congruence | exact W].
Qed.

Lemma long_enough_pow l maximumLength :
  long_enough maximumLength l ->
  (2 <= length l)%nat ->
  Z.of_nat (length l) <= 2 ^ maximumLength.
Proof.
  unfold long_enough. intros H Hn.
  pose proof (Z.log2_up_spec (Z.of_nat (length l)) ltac:(lia)) as [_ Hs].
  pose proof (Z.log2_up_nonneg (Z.of_nat (length l))).
  pose proof (pow2_le (Z.log2_up (Z.of_nat (length l))) maximumLength
                ltac:(lia)).
  lia.
Qed.

Lemma above_minimum_pow (l : list Z) maximumLength :
  Z.log2_up (Z.of_nat (length l)) < maximumLength ->
  (2 <= length l)%nat ->
  2 * Z.of_nat (length l) <= 2 ^ maximumLength.
Proof.
  intros H Hn.
  pose proof (Z.log2_up_spec (Z.of_nat (length l)) ltac:(lia)) as [_ Hs].
  pose proof (Z.log2_up_nonneg (Z.of_nat (length l))).
  pose proof (pow2_le (Z.log2_up (Z.of_nat (length l))) (maximumLength - 1)
                ltac:(lia)).
  replace maximumLength with (maximumLength - 1 + 1) at 1 by lia.
  rewrite pow2_succ by lia. lia.
Qed.

(** The run on a list of frequencies of any length from one on. *)
Lemma alloc_any l fuel maximumLength :
  (1 <= length l)%nat -> Z.of_nat (length l) < 2 ^ 30 ->
  long_enough maximumLength l -> (length l <= fuel)%nat ->
  exists out st,
    allocateHuffmanCodeLengths fuel maximumLength (of_list l)
      = Ret (tt, Buffer out st) /\
    length out = length l /\
    non_increasing out /\
    Forall (fun x => 1 <= x <= Z.max 1 maximumLength) out /\
    (Z.log2_up (Z.of_nat (length l)) < maximumLength ->
     st = [] /\ ((2 <= length l)%nat -> kraft_equality out)).
Proof.
  intros Hn Hfit Hlong Hfuel.
  destruct l as [|x [|y [|z l]]]; [simpl in Hn; lia| | |].
  - exists [1], (@nil (Z * Z)). split; [reflexivity|]. split; [reflexivity|].
    split.
    + intros i a b Ha Hb. destruct i; discriminate.
    + split.
      * apply Forall_cons. split; [lia|]. constructor.
      * intros _. split; [reflexivity|]. simpl. lia.
  - exists [1; 1], (@nil (Z * Z)). split; [reflexivity|]. split; [reflexivity|].
    split.
    + intros i a b Ha Hb. destruct i as [|[|i]]; simpl in *;
        try discriminate. injection Ha as <-. injection Hb as <-. lia.
    + split.
      * repeat (apply Forall_cons; split; [lia|]). constructor.
      * intros _. split; [reflexivity|]. intros _.
        split; [repeat constructor; lia | reflexivity].
  - assert (Hl3 : (3 <= length (x :: y :: z :: l))%nat) by (simpl; lia).
    remember (x :: y :: z :: l) as l3 eqn:El3. clear El3.
    pose proof (long_enough_pow l3 maximumLength Hlong ltac:(lia)) as Hpow.
    assert (Ll : len_of (of_list l3) = Z.of_nat (length l3))
      by reflexivity.
    destruct (alloc_large (of_list l3) fuel maximumLength)
      as (s' & E & L & T & S); unfold fits_int32; rewrite ?Ll; try lia.
    destruct s' as [out st]. exists out, st.
    split; [exact E|].
    rewrite Ll in L. unfold len_of in L. cbn [elems] in L.
    split; [lia|].
    destruct (tail_ok_all _ _ T) as [NI FA]. cbn [elems] in NI, FA.
    split; [exact NI|]. split.
    + eapply Forall_impl; [exact FA|]. simpl. intros a Ha. lia.
    + intros Hab. rewrite Ll in S. cbn [stray of_list elems] in S.
      destruct (S (above_minimum_pow l3 maximumLength Hab ltac:(lia)))
        as [S' W].
      split; [exact S'|]. intros _.
      pose proof (Z.log2_up_nonneg (Z.of_nat (length l3))).
      apply (kraft_equality_at maximumLength); [lia | | exact W].
      eapply Forall_impl; [exact FA|]. simpl. intros a Ha. lia.
Qed.

(** * More about the three passes *)

(** ** Pass 1 keeps the total weight *)

Lemma slots_sum_ext s s' count :
  forall a,
    (forall k, a <= k < a + Z.of_nat count -> slot s' k = slot s k) ->
    slots_sum s' a count = slots_sum s a count.
Proof.
  induction count as [|count IH]; intros a H; [reflexivity|].
  simpl. rewrite H by lia. rewrite IH; [reflexivity|].
  intros k Hk. apply H. lia.
Qed.

Lemma slots_sum_snoc s count :
  forall a,
    slots_sum s a (S count)
    = slots_sum s a count + slot s (a + Z.of_nat count).
Proof.
  induction count as [|count IH]; intros a.
  - cbn [slots_sum]. change (Z.of_nat 0) with 0.
    replace (a + 0) with a by lia. lia.
  - change (slots_sum s a (S (S count)))
      with (slot s a + slots_sum s (a + 1) (S count)).
    rewrite IH.
    change (slots_sum s a (S count))
      with (slot s a + slots_sum s (a + 1) count).
    replace (a + Z.of_nat (S count)) with (a + 1 + Z.of_nat count) by lia.
    lia.
Qed.

Lemma range_sum_empty s a b : b <= a -> range_sum s a b = 0.
Proof.
  intros H. unfold range_sum. replace (Z.to_nat (b - a)) with O by lia.
  reflexivity.
Qed.

Lemma range_sum_head s a b :
  a < b -> range_sum s a b = slot s a + range_sum s (a + 1) b.
Proof.
  intros H. unfold range_sum.
  replace (Z.to_nat (b - a)) with (S (Z.to_nat (b - (a + 1)))) by lia.
  reflexivity.
Qed.

Lemma range_sum_last s a b :
  a <= b -> range_sum s a (b + 1) = range_sum s a b + slot s b.
Proof.
  intros H. unfold range_sum.
  replace (Z.to_nat (b + 1 - a)) with (S (Z.to_nat (b - a))) by lia.
  rewrite slots_sum_snoc.
  replace (a + Z.of_nat (Z.to_nat (b - a))) with b by lia. reflexivity.
Qed.

Lemma range_sum_ext s s' a b :
  (forall k, a <= k < b -> slot s' k = slot s k) ->
  range_sum s' a b = range_sum s a b.
Proof.
  intros H. unfold range_sum. apply slots_sum_ext.
  intros k Hk. apply H. lia.
Qed.

Lemma slots_sum_tail x l st count :
  forall a, 0 <= a ->
    slots_sum (Buffer (x :: l) st) (a + 1) count
    = slots_sum (Buffer l st) a count.
Proof.
  induction count as [|count IH]; intros a Ha; [reflexivity|].
  simpl. rewrite IH by lia. f_equal.
  unfold slot. cbn [elems].
  replace (Z.to_nat (a + 1)) with (S (Z.to_nat a)) by lia. reflexivity.
Qed.

Lemma range_sum_total l st :
  range_sum (Buffer l st) 0 (Z.of_nat (length l)) = total l.
Proof.
  unfold range_sum.
  replace (Z.to_nat (Z.of_nat (length l) - 0)) with (length l) by lia.
  induction l as [|x l IH]; [reflexivity|].
  simpl length. simpl slots_sum.
  rewrite (slots_sum_tail x l st (length l) 0) by lia.
  rewrite IH. reflexivity.
Qed.

(** One turn of pass 1 takes two nodes off the two queues and stores the
    sum of their weights in slot [t]; the slots from the new head on, [t]
    apart, stay as they are. *)
Lemma spp_body_weight s h t p :
  spp_inv s h t p -> t <= len_of s - 2 ->
  exists s' h' p',
    spp_body (len_of s) h t p s = Ret ((h', p'), s') /\
    (forall k, h' <= k -> k <> t -> slot s' k = slot s k) /\
    ((h' = h + 2 /\ p' = p /\ slot s' t = slot s h + slot s (h + 1)) \/
     (h' = h + 1 /\ p' = p + 1 /\ slot s' t = slot s h + slot s p) \/
     (h' = h /\ p' = p + 2 /\ slot s' t = slot s p + slot s (p + 1))).
Proof.
  intros [I1 I2 I3 I4 I5] Ht. unfold spp_body.
  destruct ((p >=? len_of s) || (slot s h <? slot s p)) eqn:C1.
  - rewrite (bind_Ret _ _ _ _ _
               (spp_pick1_internal s h t p ltac:(lia) C1 ltac:(lia))).
    set (s1 := upd s h t).
    assert (L1 : len_of s1 = len_of s) by apply len_of_upd.
    cbv beta iota. rewrite <- L1.
    destruct ((p >=? len_of s1)
              || ((h + 1 <? t) && (slot s1 (h + 1) <? slot s1 p))) eqn:C2.
    + assert (Hh1 : h + 1 < t).
      { apply orb_true_iff in C2 as [C2|C2].
        - apply geb_true in C2. lia.
        - apply andb_true_iff in C2 as [C2 _]. apply Z.ltb_lt in C2. lia. }
      rewrite (bind_Ret _ _ _ _ _
                 (spp_pick2_internal s1 (slot s h) (h + 1) t p
                    ltac:(lia) C2 ltac:(lia))).
      cbv beta iota. rewrite run_write by (rewrite len_of_upd; lia).
      eexists _, _, _. split; [reflexivity|]. split.
      * intros k Hk Hne. unfold s1. rewrite !slot_upd_ne by lia. reflexivity.
      * left. split; [lia|]. split; [reflexivity|].
        rewrite slot_upd_eq by (rewrite len_of_upd; lia).
        unfold s1. rewrite slot_upd_ne by lia. reflexivity.
    + assert (Hp : p < len_of s1).
      { apply orb_false_iff in C2 as [C2 _]. apply geb_false in C2. lia. }
      rewrite (bind_Ret _ _ _ _ _
                 (spp_pick2_leaf s1 (slot s h) (h + 1) t p
                    ltac:(lia) C2 ltac:(lia))).
      cbv beta iota. rewrite run_write by lia.
      eexists _, _, _. split; [reflexivity|]. split.
      * intros k Hk Hne. unfold s1. rewrite !slot_upd_ne by lia. reflexivity.
      * right. left. split; [reflexivity|]. split; [reflexivity|].
        rewrite slot_upd_eq by lia.
        unfold s1. rewrite slot_upd_ne by lia. reflexivity.
  - assert (Hp : p < len_of s).
    { apply orb_false_iff in C1 as [C1 _]. apply geb_false in C1. lia. }
    rewrite (bind_Ret _ _ _ _ _
               (spp_pick1_leaf s h t p ltac:(lia) C1 ltac:(lia))).
    cbv beta iota.
    destruct ((p + 1 >=? len_of s)
              || ((h <? t) && (slot s h <? slot s (p + 1)))) eqn:C2.
    + rewrite (bind_Ret _ _ _ _ _
                 (spp_pick2_internal s (slot s p) h t (p + 1)
                    ltac:(lia) C2 ltac:(lia))).
      cbv beta iota. rewrite run_write by (rewrite len_of_upd; lia).
      eexists _, _, _. split; [reflexivity|]. split.
      * intros k Hk Hne. rewrite !slot_upd_ne by lia. reflexivity.
      * right. left. split; [reflexivity|]. split; [reflexivity|].
        rewrite slot_upd_eq by (rewrite len_of_upd; lia). lia.
    + assert (Hp1 : p + 1 < len_of s).
      { apply orb_false_iff in C2 as [C2 _]. apply geb_false in C2. lia. }
      rewrite (bind_Ret _ _ _ _ _
                 (spp_pick2_leaf s (slot s p) h t (p + 1)
                    ltac:(lia) C2 ltac:(lia))).
      cbv beta iota. rewrite run_write by lia.
      eexists _, _, _. split; [reflexivity|]. split.
      * intros k Hk Hne. rewrite !slot_upd_ne by lia. reflexivity.
      * right. right. split; [reflexivity|]. split; [lia|].
        rewrite slot_upd_eq by lia. reflexivity.
Qed.

(** The weights still in the two queues add up to [W] all along: the
    internal nodes [h .. t-1] of the buffer and the leaves from [p] on of
    the buffer [s0] pass 1 started from. *)
Lemma spp_loop_weight s0 W count :
  forall s h t p s',
    spp_inv s h t p -> Z.of_nat count = len_of s - 1 - t ->
    len_of s = len_of s0 ->
    (forall k, t <= k -> slot s k = slot s0 k) ->
    range_sum s h t + range_sum s0 p (len_of s0) = W ->
    spp_loop count (len_of s) h t p s = Ret (tt, s') ->
    slot s' (len_of s0 - 2) = W /\
    slot s' (len_of s0 - 1) = slot s0 (len_of s0 - 1).
Proof.
  induction count as [|count IH]; intros s h t p s' Inv Hc L Hs HW E.
  - simpl in E. injection E as <-.
    destruct Inv as [I1 I2 I3 I4 I5].
    assert (t = len_of s0 - 1) by lia. subst t.
    assert (h = len_of s0 - 2) by lia. subst h.
    assert (p = len_of s0) by lia. subst p.
    rewrite (range_sum_empty s0) in HW by lia.
    replace (len_of s0 - 1) with (len_of s0 - 2 + 1) in HW by lia.
    rewrite range_sum_last, (range_sum_empty s) in HW by lia.
    split; [lia|]. apply Hs. lia.
  - simpl in E.
    destruct (spp_body_inv s h t p Inv ltac:(lia))
      as (s1 & h1 & p1 & E1 & Inv1 & L1 & _).
    destruct (spp_body_weight s h t p Inv ltac:(lia))
      as (s1' & h1' & p1' & E1' & Keep & Cases).
    rewrite E1 in E1'. injection E1' as <- <- <-.
    rewrite (bind_Ret _ _ _ _ _ E1) in E. cbv beta iota in E.
    rewrite <- L1 in E.
    refine (IH s1 h1 (t + 1) p1 s' Inv1 ltac:(lia) ltac:(lia) _ _ E).
    + intros k Hk. destruct Inv1 as [J1 J2 J3 J4 J5].
      rewrite Keep by lia. apply Hs. lia.
    + destruct Inv as [I1 I2 I3 I4 I5]. destruct Inv1 as [J1 J2 J3 J4 J5].
      rewrite range_sum_last by lia.
      rewrite (range_sum_ext s s1 h1 t) by (intros; apply Keep; lia).
      destruct Cases as [(-> & -> & Ws)|[(-> & -> & Ws)|(-> & -> & Ws)]];
        rewrite Ws.
      * rewrite (range_sum_head s h t), (range_sum_head s (h + 1) t) in HW
          by lia.
        replace (h + 1 + 1) with (h + 2) in HW by lia. lia.
      * rewrite (range_sum_head s h t) in HW by lia.
        rewrite (range_sum_head s0 p) in HW by lia.
        rewrite <- (Hs p) in HW by lia. lia.
      * rewrite (range_sum_head s0 p), (range_sum_head s0 (p + 1)) in HW
          by lia.
        rewrite <- (Hs p), <- (Hs (p + 1)) in HW by lia.
        replace (p + 1 + 1) with (p + 2) in HW by lia. lia.
Qed.

(** Pass 1 leaves the sum of all frequencies in the root slot, and the
    last slot as it was. *)
Lemma setExtendedParentPointers_weight l st s' :
  (3 <= length l)%nat ->
  setExtendedParentPointers (Buffer l st) = Ret (tt, s') ->
  slot s' (Z.of_nat (length l) - 2) = total l /\
  slot s' (Z.of_nat (length l) - 1)
  = slot (Buffer l st) (Z.of_nat (length l) - 1).
Proof.
  intros Hn E. set (s := Buffer l st) in *.
  assert (Ls : len_of s = Z.of_nat (length l)) by reflexivity.
  rewrite <- Ls.
  unfold setExtendedParentPointers in E.
  rewrite run_array_length, run_read, run_read, run_write in E by lia.
  set (s0 := upd s 0 (slot s 0 + slot s 1)) in *.
  assert (L0 : len_of s0 = len_of s) by apply len_of_upd.
  assert (Inv : spp_inv s0 0 1 2).
  { split; rewrite ?L0; try lia. split; intros; lia. }
  rewrite <- L0 in E.
  apply (spp_loop_weight s (total l) (Z.to_nat (len_of s0 - 1 - 1))
           s0 0 1 2 s' Inv); [lia | lia | | | exact E].
  - intros k Hk. unfold s0. apply slot_upd_ne; lia.
  - replace 1 with (0 + 1) at 1 by lia.
    rewrite range_sum_last, range_sum_empty by lia.
    unfold s0 at 1. rewrite slot_upd_eq by lia.
    rewrite <- (range_sum_total l st). fold s. rewrite <- Ls.
    rewrite (range_sum_head s 0), (range_sum_head s (0 + 1)) by lia.
    change (0 + 1 + 1) with 2. change (0 + 1) with 1. lia.
Qed.

(** ** More on pass 2 *)

Lemma natsteps_decrease s j :
  tree_shape s ->
  forall G, 0 <= G <= len_of s - 2 ->
            natsteps s j G <= Z.max 0 (G - Z.of_nat j).
Proof.
  intros T. induction j as [|j IH]; intros G HG; [simpl; lia|].
  simpl natsteps. pose proof (natstep_range s G ltac:(lia)) as R.
  specialize (IH (natstep s G) ltac:(lia)).
  destruct (Z.eq_dec G 0) as [->|Hne].
  - rewrite natstep_zero in *. lia.
  - pose proof (natstep_lt_tree s G T ltac:(lia)). lia.
Qed.

(** Pass 2 stops at the first level where the depth is used up or the
    level starts at node [1] or [0]. *)
Lemma fntr_loop_stop s inner maximumLength :
  tree_shape s -> fits_int32 s -> (Z.to_nat (len_of s) <= inner)%nat ->
  forall fuel currentNode currentDepth,
    0 <= currentNode <= len_of s - 2 ->
    (Z.to_nat currentNode < fuel)%nat ->
    exists j,
      fntr_loop inner fuel maximumLength currentNode currentDepth s
        = Ret (natsteps s j currentNode, s) /\
      Z.of_nat j <= Z.max 0 (maximumLength - 1 - currentDepth) /\
      (Z.of_nat j = Z.max 0 (maximumLength - 1 - currentDepth) \/
       natsteps s j currentNode <= 1) /\
      forall i, (i < j)%nat -> 1 < natsteps s i currentNode.
Proof.
  intros T F Hin.
  induction fuel as [|fuel IH]; intros cn cd Hcn Hf; [lia|].
  simpl fntr_loop.
  destruct ((cd <? maximumLength - 1) && (cn >? 1)) eqn:E.
  - apply andb_true_iff in E as [E1 E2].
    apply Z.ltb_lt in E1. apply gtb_true in E2.
    rewrite (bind_Ret _ _ _ _ _
               (first_low_tree s (cn - 1) 0 inner T F ltac:(lia) ltac:(lia)
                  Hin)).
    change (low s (cn - 1) 0) with (natstep s cn).
    pose proof (natstep_range s cn ltac:(lia)).
    pose proof (natstep_lt_tree s cn T ltac:(lia)).
    destruct (IH (natstep s cn) (cd + 1) ltac:(lia) ltac:(lia))
      as (j & Ej & Hj1 & Hj2 & Hj3).
    exists (S j). split; [exact Ej|]. simpl natsteps.
    split; [lia|]. split; [lia|].
    intros [|i] Hi; [simpl; lia|]. simpl natsteps. apply Hj3. lia.
  - exists O. split; [reflexivity|]. simpl natsteps.
    split; [lia|]. split; [|intros i Hi; lia].
    apply andb_false_iff in E as [E|E].
    + apply Z.ltb_ge in E. lia.
    + apply gtb_false in E. lia.
Qed.

Lemma findNodesToRelocate_stop s fuel maximumLength :
  tree_shape s -> fits_int32 s -> (Z.to_nat (len_of s) <= fuel)%nat ->
  exists j,
    findNodesToRelocate fuel maximumLength s
      = Ret (natsteps s j (len_of s - 2), s) /\
    Z.of_nat j <= Z.max 0 (maximumLength - 2) /\
    (Z.of_nat j = Z.max 0 (maximumLength - 2) \/
     natsteps s j (len_of s - 2) <= 1) /\
    forall i, (i < j)%nat -> 1 < natsteps s i (len_of s - 2).
Proof.
  intros T F Hf. unfold findNodesToRelocate. rewrite run_array_length.
  pose proof (ts_len _ T).
  destruct (fntr_loop_stop s fuel maximumLength T F Hf fuel
              (len_of s - 2) 1 ltac:(lia) ltac:(lia))
    as (j & E & H1 & H2 & H3).
  exists j. split; [exact E|].
  replace (maximumLength - 2) with (maximumLength - 1 - 1) by lia. auto.
Qed.

(** Raising the maximum length never raises the result of pass 2. *)
Lemma findNodesToRelocate_antitone s fuel m m' :
  tree_shape s -> fits_int32 s -> (Z.to_nat (len_of s) <= fuel)%nat ->
  m <= m' ->
  exists r r',
    findNodesToRelocate fuel m s = Ret (r, s) /\
    findNodesToRelocate fuel m' s = Ret (r', s) /\
    0 <= r' <= r /\ r <= len_of s - 2.
Proof.
  intros T F Hf Hm. pose proof (ts_len _ T) as Hn.
  destruct (findNodesToRelocate_stop s fuel m T F Hf)
    as (j & E & H1 & H2 & H3).
  destruct (findNodesToRelocate_stop s fuel m' T F Hf)
    as (j' & E' & H1' & H2' & H3').
  exists (natsteps s j (len_of s - 2)), (natsteps s j' (len_of s - 2)).
  split; [exact E|]. split; [exact E'|].
  pose proof (natsteps_range s j (len_of s - 2) ltac:(lia)).
  pose proof (natsteps_range s j' (len_of s - 2) ltac:(lia)).
  split; [|lia]. split; [lia|].
  destruct (Nat.le_gt_cases j j') as [C|C].
  - apply natsteps_le_more; [lia | exact C].
  - specialize (H3 j' C). lia.
Qed.

(** With [maximumLength] at [n - 1] or more pass 2 comes down to node [1]
    or [0]. *)
Lemma findNodesToRelocate_large s fuel maximumLength :
  tree_shape s -> fits_int32 s -> (Z.to_nat (len_of s) <= fuel)%nat ->
  len_of s - 1 <= maximumLength ->
  exists r,
    findNodesToRelocate fuel maximumLength s = Ret (r, s) /\ 0 <= r <= 1.
Proof.
  intros T F Hf Hm. pose proof (ts_len _ T) as Hn.
  destruct (findNodesToRelocate_stop s fuel maximumLength T F Hf)
    as (j & E & H1 & H2 & _).
  exists (natsteps s j (len_of s - 2)). split; [exact E|].
  pose proof (natsteps_range s j (len_of s - 2) ltac:(lia)).
  pose proof (natsteps_decrease s j T (len_of s - 2) ltac:(lia)). lia.
Qed.

(** ** The assigners keep the length *)

Lemma keeps_len_first fuel i nodesToMove :
  keeps_len (first fuel i nodesToMove).
Proof. apply keeps_len_unchanged. intros s. apply unchanged_first. Qed.

Lemma keeps_len_anl_loop inner fuel :
  forall G nx d a, keeps_len (anl_loop inner fuel G nx d a).
Proof.
  induction fuel as [|fuel IH]; intros G nx d a; simpl.
  - intros s x s' H. discriminate.
  - destruct (a >? 0); [|apply keeps_len_ret].
    apply keeps_len_bind; [apply keeps_len_first|]. intros G'.
    apply keeps_len_bind; [apply keeps_len_write_run|]. intros nx'.
    apply IH.
Qed.

Lemma keeps_len_allocateNodeLengths fuel :
  keeps_len (allocateNodeLengths fuel).
Proof.
  unfold allocateNodeLengths.
  apply keeps_len_bind; [apply keeps_len_array_length|]. intros len.
  apply keeps_len_anl_loop.
Qed.

(** ** How deep the unlimited assigner goes *)

Section Deep.
Variables (s1 : buffer) (maximumLength : Z) (inner : nat).
Hypothesis Htree : tree_shape s1.
Hypothesis Hfit : fits_int32 s1.
Hypothesis Hinner : (Z.to_nat (len_of s1) <= inner)%nat.

(** From a turn at depth [d] on, with [j] more levels of internal nodes
    below, the length left in slot [0] is [d + j] or more. *)
Lemma anl_loop_deep fuel :
  forall s G nx d a (j : nat) s',
    anl_inv s1 maximumLength s G nx d a -> 0 < a ->
    j = O \/ 0 < natsteps s1 (j - 1) G ->
    anl_loop inner fuel G nx d a s = Ret (tt, s') ->
    d + Z.of_nat j <= slot s' 0.
Proof.
  induction fuel as [|fuel IH]; intros s G nx d a j s' Inv Ha Hj E;
    [discriminate|].
  simpl anl_loop in E.
  destruct (a >? 0) eqn:Ea; [|apply gtb_false in Ea; lia].
  rewrite (bind_Ret _ _ _ _ _
             (anl_first s1 maximumLength inner Htree Hfit Hinner
                s G nx d a Inv Ha)) in E.
  destruct (anl_step s1 maximumLength inner Htree Hfit Hinner
              s G nx d a Inv Ha) as (s2 & E2 & Inv2).
  rewrite (bind_Ret _ _ _ _ _ E2) in E.
  pose proof (ts_len _ Htree) as Hn.
  pose proof (ai_first _ _ _ _ _ _ _ Inv) as HG.
  pose proof (natstep_range s1 G ltac:(lia)) as HG'.
  unfold fits_int32 in Hfit.
  rewrite shl_1 in E, Inv2 by lia.
  destruct (Z.eq_dec G (natstep s1 G)) as [Eq|Ne].
  - (* the last turn: the stores reach slot 0 *)
    assert (G0 : G = 0).
    { destruct (Z.eq_dec G 0) as [E0|E0]; [exact E0|].
      pose proof (natstep_lt_tree s1 G Htree ltac:(lia)). lia. }
    assert (j = O).
    { destruct Hj as [Hj|Hj]; [exact Hj|].
      rewrite G0, natsteps_zero in Hj. lia. }
    subst j. rewrite <- Eq in *.
    replace (2 * (G - G)) with 0 in E by lia.
    destruct fuel as [|fuel]; [discriminate|].
    simpl anl_loop in E. injection E as <-.
    pose proof (ai_count _ _ _ _ _ _ _ Inv) as Hc.
    pose proof (ai_next _ _ _ _ _ _ _ Inv) as Hx.
    destruct (write_run_spec (Z.to_nat (a - (G - G))) nx d s ltac:(
                destruct Inv as [[L _]]; lia)) as (s3 & E3 & _ & WA & _).
    rewrite E2 in E3. injection E3 as _ <-.
    rewrite (WA 0) by lia. lia.
  - (* a further level *)
    assert (Ha2 : 0 < 2 * (G - natstep s1 G)) by lia.
    destruct j as [|j].
    + pose proof (IH _ _ _ _ _ O s' Inv2 Ha2 ltac:(left; reflexivity) E).
      lia.
    + assert (Hj' : j = O \/ 0 < natsteps s1 (j - 1) (natstep s1 G)).
      { destruct j as [|j]; [left; reflexivity|right].
        destruct Hj as [Hj|Hj]; [discriminate|].
        replace (S (S j) - 1)%nat with (S j) in Hj by lia.
        replace (S j - 1)%nat with j by lia. exact Hj. }
      pose proof (IH _ _ _ _ _ j s' Inv2 Ha2 Hj' E). lia.
Qed.
End Deep.

(** With [j + 1] levels of internal nodes below the root, the unlimited
    assigner leaves [j + 2] or more in slot [0]. *)
Lemma allocateNodeLengths_deep s1 inner j s' :
  tree_shape s1 -> fits_int32 s1 -> (Z.to_nat (len_of s1) <= inner)%nat ->
  0 < natsteps s1 j (len_of s1 - 2) ->
  allocateNodeLengths inner s1 = Ret (tt, s') ->
  Z.of_nat j + 2 <= slot s' 0.
Proof.
  intros T F Hin Hj E. pose proof (ts_len _ T) as Hn.
  unfold allocateNodeLengths in E. rewrite run_array_length in E.
  assert (Hreach : natsteps s1 (Z.to_nat (len_of s1 - 1 - 1)) (len_of s1 - 2)
                   = 0).
  { pose proof (natsteps_decrease s1 (Z.to_nat (len_of s1 - 1 - 1)) T
                  (len_of s1 - 2) ltac:(lia)).
    pose proof (natsteps_range s1 (Z.to_nat (len_of s1 - 1 - 1))
                  (len_of s1 - 2) ltac:(lia)).
    lia. }
  assert (Inv : anl_inv s1 (len_of s1 - 1) s1 (len_of s1 - 2)
                        (len_of s1 - 1) 1 2).
  { split; try lia; try apply agree_refl; try reflexivity;
      try apply tail_ok_start.
    - intros _. exists (len_of s1 - 1). split; [lia|]. split; [lia|].
      intros k Hk. pose proof (tree_parent s1 k T ltac:(lia)). lia.
    - rewrite weight_start.
      replace (len_of s1 - 1) with (len_of s1 - 1 - 1 + 1) at 2 by lia.
      rewrite pow2_succ by lia. lia. }
  pose proof (anl_loop_deep s1 (len_of s1 - 1) inner T F Hin inner
                s1 _ _ _ _ (S j) s' Inv ltac:(lia)
                ltac:(right; replace (S j - 1)%nat with j by lia; exact Hj)
                E).
  lia.
Qed.

(** With [maximumLength] at [n - 1] or more the entry point is pass 1
    followed by the unlimited assigner. *)
Lemma alloc_large_limit s fuel maximumLength :
  3 <= len_of s -> fits_int32 s -> (Z.to_nat (len_of s) <= fuel)%nat ->
  len_of s - 1 <= maximumLength ->
  allocateHuffmanCodeLengths fuel maximumLength s
  = bind setExtendedParentPointers (fun _ => allocateNodeLengths fuel) s.
Proof.
  intros Hn Hfit Hfuel Hm.
  destruct (setExtendedParentPointers_tree s Hn) as (s1 & E1 & T & L1 & _).
  assert (Hfit1 : fits_int32 s1) by (unfold fits_int32 in *; lia).
  destruct (findNodesToRelocate_large s1 fuel maximumLength T Hfit1
              ltac:(lia) ltac:(lia)) as (r & E2 & Hr).
  rewrite (alloc_three_passes fuel maximumLength s s1 s1 r (slot s1 0)
             Hn E1 E2 (slot_lookup s1 0 ltac:(lia))).
  rewrite (bind_Ret _ _ _ _ _ E1).
  change (Z.rem (slot s1 0) (len_of s1)) with (parent s1 0).
  pose proof (tree_parent s1 0 T ltac:(lia)) as Hp0.
  destruct (parent s1 0 >=? r) eqn:Ec; [reflexivity|].
  apply geb_false in Ec. lia.
Qed.

(** When the lengths of the unlimited assigner are all within
    [maximumLength], the entry point runs the unlimited assigner. *)
Lemma alloc_fits s fuel maximumLength s1 s' :
  3 <= len_of s -> fits_int32 s -> (Z.to_nat (len_of s) <= fuel)%nat ->
  setExtendedParentPointers s = Ret (tt, s1) ->
  allocateNodeLengths fuel s1 = Ret (tt, s') ->
  slot s' 0 <= maximumLength ->
  allocateHuffmanCodeLengths fuel maximumLength s = Ret (tt, s').
Proof.
  intros Hn Hfit Hfuel E1 E3 Hs.
  destruct (setExtendedParentPointers_tree s Hn) as (s2 & E1' & T & L1 & _).
  rewrite E1 in E1'. injection E1' as <-.
  assert (Hfit1 : fits_int32 s1) by (unfold fits_int32 in *; lia).
  destruct (findNodesToRelocate_spec s1 fuel maximumLength T Hfit1
              ltac:(lia)) as (j & E2 & Hj1 & Hj2).
  rewrite (alloc_three_passes fuel maximumLength s s1 s1 _ (slot s1 0)
             Hn E1 E2 (slot_lookup s1 0 ltac:(lia))).
  change (Z.rem (slot s1 0) (len_of s1)) with (parent s1 0).
  pose proof (tree_parent s1 0 T ltac:(lia)) as Hp0.
  destruct (parent s1 0 >=? natsteps s1 j (len_of s1 - 2)) eqn:Ec;
    [exact E3|].
  exfalso. apply geb_false in Ec.
  set (r := natsteps s1 j (len_of s1 - 2)) in *.
  assert (Hlow : 0 < natstep s1 r).
  { unfold natstep.
    destruct (low_spec s1 (r - 1) 0 ltac:(lia)) as (A & B & _).
    destruct (Z.eq_dec (low s1 (r - 1) 0) 0) as [E0|E0]; [|lia].
    rewrite E0 in B. specialize (B ltac:(lia)). lia. }
  unfold r in Hlow. rewrite <- natsteps_S_r in Hlow.
  pose proof (allocateNodeLengths_deep s1 fuel (S j) s' T Hfit1 ltac:(lia)
                Hlow E3).
  lia.
Qed.

(** ** One turn of the limited assigner *)

Section Turn.
Variables (s1 : buffer) (maximumLength nodesToMove insertDepth : Z).
Variable inner : nat.
Hypothesis Htree : tree_shape s1.
Hypothesis Hfit : fits_int32 s1.
Hypothesis Hinner : (Z.to_nat (len_of s1) <= inner)%nat.
Hypothesis Hntm : 2 <= nodesToMove <= len_of s1 - 2.
Hypothesis Hins : 0 <= insertDepth.
Hypothesis Hwidth : 1 <= maximumLength - insertDepth <= 30.
Hypothesis Hpow :
  2 ^ (maximumLength - insertDepth - 1) <= nodesToMove - 1
  /\ nodesToMove - 1 < 2 ^ (maximumLength - insertDepth).
Hypothesis Hmax : 2 <= maximumLength.

(** The nodes a turn at the insert depth or below makes available. *)
Lemma moving_bound s G nx d left a delta fn off :
  anlr_inv s1 maximumLength nodesToMove insertDepth s G nx d left a delta ->
  0 < a -> insertDepth <= d ->
  fn = (if G <=? nodesToMove then G else low s1 (G - 1) nodesToMove) ->
  off = Z.min left (2 ^ (d - insertDepth)) ->
  0 <= off /\ nodesToMove <= fn <= G /\ (nodesToMove < G -> fn < G) /\
  G - fn + off < 2 ^ 30.
Proof.
  intros I Ha Hd Efn Eoff.
  destruct I as [Iagree Istray Ifirst Iavail Ileft Idelta Iexact Icount
                 Inext Idepth Itail Idone Icap Inatural Imoving Ikraft].
  pose proof (Icap Ha) as Hcap.
  destruct (Imoving Ha Hd) as (R & Fit & Cons & Big & Room).
  pose proof (pow2_pos (d - insertDepth) ltac:(lia)) as HP.
  pose proof (pow2_le (maximumLength - insertDepth) 30 ltac:(lia)) as H30.
  unfold fits_int32 in Hfit.
  assert (Hfn : nodesToMove <= fn <= G /\ (nodesToMove < G -> fn < G)).
  { destruct (G <=? nodesToMove) eqn:EG.
    - apply Z.leb_le in EG. subst fn. lia.
    - apply Z.leb_gt in EG.
      destruct (next_level s1 maximumLength nodesToMove insertDepth inner
                  Htree Hinner Hntm Hwidth Hmax G ltac:(lia)) as (N1 & _).
      rewrite <- Efn in N1. lia. }
  split; [lia|]. split; [lia|]. split; [lia|].
  destruct (Z.eq_dec G nodesToMove) as [EG|EG]; [lia|].
  destruct Big as [Big|Big]; [|lia].
  destruct (Z.eq_dec a 1) as [E1|E1]; lia.
Qed.

Lemma anlr_turn fuel s G nx d left a delta :
  anlr_inv s1 maximumLength nodesToMove insertDepth s G nx d left a delta ->
  0 < a ->
  exists s' G' off delta',
    0 <= G - G' + off < 2 ^ 30 /\
    write_run (Z.to_nat (a - (G - G' + off))) nx d s
      = Ret (nx - Z.max 0 (a - (G - G' + off)), s') /\
    anlr_loop inner (S fuel) nodesToMove insertDepth G nx d left a s
    = anlr_loop inner fuel nodesToMove insertDepth
        G' (nx - Z.max 0 (a - (G - G' + off))) (d + 1) (left - off)
        (2 * (G - G' + off)) s' /\
    anlr_inv s1 maximumLength nodesToMove insertDepth s'
      G' (nx - Z.max 0 (a - (G - G' + off))) (d + 1) (left - off)
      (2 * (G - G' + off)) delta' /\
    (d < insertDepth -> 1 <= G - G' + off) /\
    (insertDepth <= d ->
     off = Z.min left (2 ^ (d - insertDepth)) /\ G' <= G /\
     (nodesToMove < G -> G' < G)) /\
    G' = turn_first s1 nodesToMove insertDepth G d /\
    off = turn_offset insertDepth d left.
Proof.
  intros I Ha.
  pose proof (ts_len _ Htree) as Hn.
  pose proof (ri_first _ _ _ _ _ _ _ _ _ _ _ I) as HG.
  pose proof (ri_cap _ _ _ _ _ _ _ _ _ _ _ I Ha) as Hcap.
  pose proof (ri_next _ _ _ _ _ _ _ _ _ _ _ I) as Hnx.
  pose proof (ri_agree _ _ _ _ _ _ _ _ _ _ _ I) as [L _].
  assert (Ea : (a >? 0) = true) by (rewrite Z.gtb_ltb; apply Z.ltb_lt; lia).
  unfold fits_int32 in Hfit.
  assert (Moving : forall fn,
             insertDepth <= d ->
             fn = (if G <=? nodesToMove then G
                   else low s1 (G - 1) nodesToMove) ->
             exists s' G' off delta',
               0 <= G - G' + off < 2 ^ 30 /\
               write_run (Z.to_nat (a - (G - G' + off))) nx d s
                 = Ret (nx - Z.max 0 (a - (G - G' + off)), s') /\
               bind (write_run
                       (Z.to_nat
                          (a - (G - fn
                                + Z.min left (shl 1 (d - insertDepth)))))
                       nx d)
                    (fun nextNode =>
                       anlr_loop inner fuel nodesToMove insertDepth fn
                         nextNode (d + 1)
                         (left - Z.min left (shl 1 (d - insertDepth)))
                         (shl (G - fn
                               + Z.min left (shl 1 (d - insertDepth))) 1))
                    s
               = anlr_loop inner fuel nodesToMove insertDepth
                   G' (nx - Z.max 0 (a - (G - G' + off))) (d + 1)
                   (left - off) (2 * (G - G' + off)) s' /\
               anlr_inv s1 maximumLength nodesToMove insertDepth s'
                 G' (nx - Z.max 0 (a - (G - G' + off))) (d + 1)
                 (left - off) (2 * (G - G' + off)) delta' /\
               (d < insertDepth -> 1 <= G - G' + off) /\
               (insertDepth <= d ->
                off = Z.min left (2 ^ (d - insertDepth)) /\ G' <= G /\
                (nodesToMove < G -> G' < G)) /\
               G' = turn_first s1 nodesToMove insertDepth G d /\
               off = turn_offset insertDepth d left).
  { intros fn Hd Efn.
    destruct (step_moving s1 maximumLength nodesToMove insertDepth inner
                Htree Hfit Hinner Hntm Hwidth Hpow Hmax
                s G nx d left a delta fn
                (Z.min left (shl 1 (d - insertDepth))) I Ha Hd Efn eq_refl)
      as (s' & delta' & E & I' & _).
    rewrite (bind_Ret _ _ _ _ _ E).
    rewrite shl_pow in * by lia.
    destruct (moving_bound s G nx d left a delta fn
                (Z.min left (2 ^ (d - insertDepth))) I Ha Hd Efn eq_refl)
      as (B1 & B2 & B3 & B4).
    rewrite shl_1 in * by lia.
    exists s', fn, (Z.min left (2 ^ (d - insertDepth))), delta'.
    split; [lia|]. split; [exact E|]. split; [reflexivity|].
    assert (Ed : (d >=? insertDepth) = true)
      by (rewrite Z.geb_leb; apply Z.leb_le; exact Hd).
    split; [exact I'|]. split; [lia|]. split; [|split].
    - intros _. split; [reflexivity|]. split; [lia | exact B3].
    - unfold turn_first. rewrite Ed. exact Efn.
    - unfold turn_offset. rewrite Ed. reflexivity. }
  simpl anlr_loop. rewrite Ea.
  destruct (G <=? nodesToMove) eqn:EG.
  - (* the tree is used up *)
    rewrite run_ret.
    assert (Hd : insertDepth <= d).
    { destruct (Z_lt_le_dec d insertDepth) as [C|C]; [|exact C].
      exfalso. apply Z.leb_le in EG.
      pose proof (natural_facts s1 maximumLength nodesToMove insertDepth
                    inner Htree Hinner Hntm Hwidth Hmax G d left a delta
                    HG C (ri_natural _ _ _ _ _ _ _ _ _ _ _ I Ha C)).
      lia. }
    assert (Ed : (d >=? insertDepth) = true)
      by (rewrite Z.geb_leb; apply Z.leb_le; exact Hd).
    rewrite Ed, run_ret. cbv beta iota.
    apply (Moving G Hd). reflexivity.
  - apply Z.leb_gt in EG.
    rewrite (bind_Ret _ _ _ _ _
               (anlr_first s1 maximumLength nodesToMove insertDepth inner
                  Htree Hfit Hinner Hntm Hwidth Hmax
                  s G nx d left a delta I Ha EG)).
    set (fn := low s1 (G - 1) nodesToMove).
    destruct (d >=? insertDepth) eqn:Ed.
    + apply geb_true in Ed. rewrite run_ret. cbv beta iota.
      apply (Moving fn Ed). reflexivity.
    + apply geb_false in Ed.
      destruct (d =? insertDepth - 1) eqn:Ed1.
      * apply Z.eqb_eq in Ed1.
        destruct (step_insert s1 maximumLength nodesToMove insertDepth
                    inner Htree Hfit Hinner Hntm Hwidth Hpow Hmax
                    s G nx d left a delta _ I Ha Ed1 eq_refl)
          as (Hrd & s' & E & I' & Hm).
        fold fn in Hrd, E, I', Hm.
        rewrite run_bind, run_read, run_ret by exact Hrd. cbv beta iota.
        rewrite (bind_Ret _ _ _ _ _ E).
        set (fn' := if slot s fn =? G then fn + 1 else fn) in *.
        pose proof (ri_first _ _ _ _ _ _ _ _ _ _ _ I') as HG'.
        destruct (write_run_spec (Z.to_nat (a - (G - fn' + 1))) nx d s
                    ltac:(lia)) as (s3 & E3 & _).
        rewrite E in E3. injection E3 as E3 _.
        replace (nx - (a - (G - fn' + 1)))
          with (nx - Z.max 0 (a - (G - fn' + 1))) in * by lia.
        rewrite shl_1 in * by lia.
        assert (Ege : (d >=? insertDepth) = false)
          by (rewrite Z.geb_leb; apply Z.leb_gt; lia).
        assert (Eeq : (d =? insertDepth - 1) = true)
          by (apply Z.eqb_eq; exact Ed1).
        assert (EGn : (G <=? nodesToMove) = false)
          by (apply Z.leb_gt; exact EG).
        exists s', fn', 1, delta.
        split; [lia|]. split; [exact E|]. split; [reflexivity|].
        split; [exact I'|]. split; [lia|]. split; [intros; lia|]. split.
        -- unfold turn_first. rewrite Ege, Eeq, EGn. fold fn.
           pose proof (anlr_safe s1 maximumLength nodesToMove insertDepth
                         inner Hinner Hntm Hwidth Hmax
                         s G nx d left a delta I Ha EG) as Hsafe.
           destruct (ri_agree _ _ _ _ _ _ _ _ _ _ _ I) as [_ A].
           destruct (next_level s1 maximumLength nodesToMove insertDepth
                       inner Htree Hinner Hntm Hwidth Hmax G ltac:(lia))
             as (N1 & _).
           fold fn in N1. unfold fn'. rewrite (A fn) by lia. reflexivity.
        -- unfold turn_offset. rewrite Ege, Eeq. reflexivity.
      * apply Z.eqb_neq in Ed1. rewrite run_ret. cbv beta iota.
        destruct (step_natural s1 maximumLength nodesToMove insertDepth
                    inner Htree Hfit Hinner Hntm Hwidth Hmax
                    s G nx d left a delta I Ha ltac:(lia))
          as (s' & E & I' & Hm).
        fold fn in E, I', Hm.
        rewrite (bind_Ret _ _ _ _ _ E).
        pose proof (ri_first _ _ _ _ _ _ _ _ _ _ _ I') as HG'.
        destruct (write_run_spec (Z.to_nat (a - (G - fn + 0))) nx d s
                    ltac:(lia)) as (s3 & E3 & _).
        rewrite E in E3. injection E3 as E3 _.
        replace (nx - (a - (G - fn)))
          with (nx - Z.max 0 (a - (G - fn + 0))) in * by lia.
        rewrite shl_1 in * by lia.
        assert (Ege : (d >=? insertDepth) = false)
          by (rewrite Z.geb_leb; apply Z.leb_gt; lia).
        assert (Eeq : (d =? insertDepth - 1) = false)
          by (apply Z.eqb_neq; exact Ed1).
        assert (EGn : (G <=? nodesToMove) = false)
          by (apply Z.leb_gt; exact EG).
        exists s', fn, 0, delta.
        split; [lia|]. split; [exact E|]. split; [reflexivity|].
        split; [exact I'|]. split; [lia|]. split; [intros; lia|]. split.
        -- unfold turn_first. rewrite Ege, Eeq, EGn. reflexivity.
        -- unfold turn_offset. rewrite Ege, Eeq. reflexivity.
Qed.
End Turn.

(** ** The Kraft sum when stores go below the buffer *)

(** A run of stores adds the weight of the stores that land in the
    buffer. *)
Lemma write_run_excess K s s' nx c dp :
  len_of s' = len_of s ->
  (forall k, 0 <= k -> nx - c < k <= nx -> slot s' k = dp) ->
  (forall k, 0 <= k -> k <= nx - c \/ nx < k -> slot s' k = slot s k) ->
  0 <= c -> nx <= len_of s - 1 ->
  written_weight K s' (nx - c)
  = (Z.max 0 (nx + 1) - Z.max 0 (nx - c + 1)) * 2 ^ (K - dp)
    + written_weight K s nx.
Proof.
  intros L A B Hc Hnx.
  destruct (Z_le_gt_dec (-1) (nx - c)) as [Hin|Hout].
  - rewrite (write_run_weight K s s' nx c dp) by (auto; lia).
    replace (Z.max 0 (nx + 1) - Z.max 0 (nx - c + 1)) with c by lia.
    reflexivity.
  - assert (E1 : written_weight K s' (nx - c) = written_weight K s' (-1)).
    { unfold written_weight.
      replace (Z.to_nat (nx - c + 1)) with (Z.to_nat (-1 + 1)) by lia.
      reflexivity. }
    rewrite E1.
    destruct (Z_le_gt_dec (-1) nx) as [Hn1|Hn1].
    + assert (A' : forall k, 0 <= k -> nx - (nx + 1) < k <= nx ->
                             slot s' k = dp)
        by (intros k Hk Hr; apply A; lia).
      assert (B' : forall k, 0 <= k -> k <= nx - (nx + 1) \/ nx < k ->
                             slot s' k = slot s k)
        by (intros k Hk Hr; apply B; lia).
      pose proof (write_run_weight K s s' nx (nx + 1) dp L A' B'
                    ltac:(lia) ltac:(lia) Hnx) as W.
      replace (nx - (nx + 1)) with (-1) in W by lia.
      replace (Z.max 0 (nx + 1) - Z.max 0 (nx - c + 1)) with (nx + 1)
        by lia.
      rewrite W. reflexivity.
    + rewrite (weight_ext K s s' (-1) L ltac:(lia))
        by (intros; apply B; lia).
      unfold written_weight.
      replace (Z.to_nat (nx + 1)) with (Z.to_nat (-1 + 1)) by lia.
      replace (Z.max 0 (nx + 1) - Z.max 0 (nx - c + 1)) with 0 by lia.
      lia.
Qed.

(** ** Stores below the buffer *)

(** A run of stores adds one stray store for each index below [0]. *)
Lemma write_run_stray count :
  forall nx dp s nx' s',
    write_run count nx dp s = Ret (nx', s') ->
    nx' = nx - Z.of_nat count /\
    (nx <= len_of s - 1 ->
     Z.of_nat (length (stray s'))
     = Z.of_nat (length (stray s)) + Z.max 0 (-1 - nx') - Z.max 0 (-1 - nx)).
Proof.
  induction count as [|count IH]; intros nx dp s nx' s' E.
  - simpl in E. injection E as <- <-. split; lia.
  - simpl write_run in E.
    destruct (Z_lt_le_dec nx 0) as [Hneg|Hpos].
    + rewrite (bind_Ret _ _ _ _ _ (write_below nx dp s Hneg)) in E.
      destruct (IH _ _ _ _ _ E) as [E1 E2]. split; [lia|]. intros Hnx.
      rewrite E2 by (unfold len_of in *; simpl; lia).
      cbn [stray length]. lia.
    + destruct (Z_lt_le_dec nx (len_of s)) as [Hin|Hout].
      * rewrite run_write in E by lia.
        destruct (IH _ _ _ _ _ E) as [E1 E2]. split; [lia|]. intros Hnx.
        rewrite E2 by (rewrite len_of_upd; lia).
        rewrite stray_upd. lia.
      * split; [|intros; lia]. exfalso.
        unfold bind, write in E.
        assert (Hb : in_bounds s nx = false) by (apply in_bounds_false; lia).
        rewrite Hb in E.
        destruct (nx <? 0) eqn:En; [apply Z.ltb_lt in En; lia|].
        discriminate.
Qed.

(** ** How far below the buffer the stores go *)

(** The stray stores of a run of stores: one for each index below [0],
    at that index. *)
Lemma write_run_stray_list count :
  forall nx dp s nx' s',
    write_run count nx dp s = Ret (nx', s') ->
    exists new,
      stray s' = new ++ stray s /\
      Forall (fun e => nx' < fst e <= nx /\ fst e <= -1) new.
Proof.
  induction count as [|count IH]; intros nx dp s nx' s' E.
  - simpl in E. injection E as <- <-. exists []. split; [reflexivity|].
    constructor.
  - destruct (write_run_stray _ _ _ _ _ _ E) as [Enx _].
    simpl write_run in E.
    destruct (Z_lt_le_dec nx 0) as [Hneg|Hpos].
    + rewrite (bind_Ret _ _ _ _ _ (write_below nx dp s Hneg)) in E.
      destruct (IH _ _ _ _ _ E) as (new & En & Fn). cbn [stray] in En.
      exists (new ++ [(nx, dp)]). split.
      * rewrite En, <- app_assoc. reflexivity.
      * apply Forall_app. split.
        -- eapply Forall_impl; [exact Fn|]. simpl. intros e He. lia.
        -- repeat constructor; simpl; lia.
    + destruct (Z_lt_le_dec nx (len_of s)) as [Hin|Hout].
      * rewrite run_write in E by lia.
        destruct (IH _ _ _ _ _ E) as (new & En & Fn).
        rewrite stray_upd in En.
        exists new. split; [exact En|].
        eapply Forall_impl; [exact Fn|]. simpl. intros e He. lia.
      * exfalso. unfold bind, write in E.
        assert (Hb : in_bounds s nx = false) by (apply in_bounds_false; lia).
        rewrite Hb in E.
        destruct (nx <? 0) eqn:En; [apply Z.ltb_lt in En; lia|].
        discriminate.
Qed.

Section Relocated.
Variables (s1 : buffer) (maximumLength nodesToMove insertDepth : Z).
Variable inner : nat.
Hypothesis Htree : tree_shape s1.
Hypothesis Hfit : fits_int32 s1.
Hypothesis Hinner : (Z.to_nat (len_of s1) <= inner)%nat.
Hypothesis Hntm : 2 <= nodesToMove <= len_of s1 - 2.
Hypothesis Hins : 0 <= insertDepth.
Hypothesis Hwidth : 1 <= maximumLength - insertDepth <= 30.
Hypothesis Hpow :
  2 ^ (maximumLength - insertDepth - 1) <= nodesToMove - 1
  /\ nodesToMove - 1 < 2 ^ (maximumLength - insertDepth).
Hypothesis Hlong : len_of s1 <= 2 ^ maximumLength.
Hypothesis Hreach :
  natsteps s1 (Z.to_nat (maximumLength - 2)) (len_of s1 - 2) = nodesToMove.
Hypothesis Hmax : 2 <= maximumLength.

(** The nodes made available without a parent end up as stores below the
    buffer, and their number never goes down. *)
Lemma anlr_loop_stray fuel :
  forall s G nx d left a delta s',
    anlr_inv s1 maximumLength nodesToMove insertDepth s G nx d left a delta ->
    Z.of_nat (length (stray s))
    = Z.of_nat (length (stray s1)) + Z.max 0 (-1 - nx) ->
    anlr_loop inner fuel nodesToMove insertDepth G nx d left a s
      = Ret (tt, s') ->
    delta <= Z.of_nat (length (stray s')) - Z.of_nat (length (stray s1))
    <= 2.
Proof.
  induction fuel as [|fuel IH]; intros s G nx d left a delta s' I Q E;
    [discriminate|].
  destruct (Z_lt_le_dec 0 a) as [Ha|Ha].
  - destruct (anlr_turn s1 maximumLength nodesToMove insertDepth inner
                Htree Hfit Hinner Hntm Hwidth Hpow Hmax
                fuel s G nx d left a delta I Ha)
      as (s2 & G' & off & delta' & Hb & Er & El & I' & _).
    rewrite El in E.
    destruct (write_run_stray _ _ _ _ _ _ Er) as [_ Q'].
    pose proof (ri_next _ _ _ _ _ _ _ _ _ _ _ I) as Hnx.
    pose proof (ri_agree _ _ _ _ _ _ _ _ _ _ _ I) as [L _].
    specialize (Q' ltac:(lia)).
    pose proof (IH _ _ _ _ _ _ _ s' I' ltac:(lia) E) as Hf.
    pose proof (ri_count _ _ _ _ _ _ _ _ _ _ _ I).
    pose proof (ri_count _ _ _ _ _ _ _ _ _ _ _ I').
    lia.
  - pose proof (ri_avail _ _ _ _ _ _ _ _ _ _ _ I).
    assert (a = 0) by lia. subst a.
    simpl in E. injection E as <-.
    destruct (ri_done _ _ _ _ _ _ _ _ _ _ _ I eq_refl).
    pose proof (ri_count _ _ _ _ _ _ _ _ _ _ _ I).
    pose proof (ri_delta _ _ _ _ _ _ _ _ _ _ _ I).
    lia.
Qed.

(** With [insertDepth = 0] the first turn makes more nodes available than
    it has room for. *)
Lemma relocation_stray_loop fuel s' :
  insertDepth = 0 ->
  anlr_loop inner fuel nodesToMove insertDepth
    (len_of s1 - 2) (len_of s1 - 1) 1 nodesToMove 2 s1 = Ret (tt, s') ->
  (length (stray s1) < length (stray s'))%nat.
Proof.
  intros H0 E. pose proof (ts_len _ Htree) as Hn.
  pose proof (anlr_start_inv s1 maximumLength nodesToMove insertDepth inner
                Htree Hinner Hntm Hins Hwidth Hpow Hlong Hreach Hmax) as I.
  destruct (insertDepth =? 1) eqn:E1; [apply Z.eqb_eq in E1; lia|].
  change (shl 1 1) with 2 in *.
  destruct Hpow as [Hp1 Hp2].
  assert (Hm3 : 3 <= maximumLength).
  { destruct (Z.eq_dec maximumLength 2) as [E2|E2]; [|lia].
    rewrite E2, H0 in *. change (2 ^ (2 - 0 - 1)) with 2 in Hp1.
    change (2 ^ 2) with 4 in Hlong. lia. }
  assert (Hlt : nodesToMove < len_of s1 - 2).
  { rewrite <- Hreach.
    replace (Z.to_nat (maximumLength - 2))
      with (S (Z.to_nat (maximumLength - 3))) by lia.
    apply natsteps_S_lt; [exact Htree | lia]. }
  destruct fuel as [|fuel]; [discriminate|].
  destruct (anlr_turn s1 maximumLength nodesToMove insertDepth inner
              Htree Hfit Hinner Hntm Hwidth (conj Hp1 Hp2) Hmax
              fuel s1 _ _ _ _ _ _ I ltac:(lia))
    as (s2 & G' & off & delta' & Hb & Er & El & I' & _ & Hmov & _).
  rewrite El in E.
  destruct (Hmov ltac:(lia)) as (Eoff & HG' & HG'').
  specialize (HG'' Hlt).
  rewrite H0 in Eoff. change (2 ^ (1 - 0)) with 2 in Eoff.
  destruct (write_run_stray _ _ _ _ _ _ Er) as [_ Q'].
  specialize (Q' ltac:(lia)).
  pose proof (anlr_loop_stray fuel _ _ _ _ _ _ _ s' I' ltac:(lia) E) as Hf.
  pose proof (ri_count _ _ _ _ _ _ _ _ _ _ _ I').
  lia.
Qed.

(** With [insertDepth = 0] the limited assigner stores below the
    buffer. *)
Lemma relocation_stray s' :
  insertDepth = 0 ->
  allocateNodeLengthsWithRelocation inner nodesToMove insertDepth s1
    = Ret (tt, s') ->
  (length (stray s1) < length (stray s'))%nat.
Proof.
  intros H0 E. apply (relocation_stray_loop inner s' H0).
  unfold allocateNodeLengthsWithRelocation in E.
  rewrite run_array_length in E.
  destruct (insertDepth =? 1) eqn:E1; [apply Z.eqb_eq in E1; lia|].
  exact E.
Qed.

(** The stores below the buffer go to the indices [-1] and [-2] only. *)
Lemma anlr_loop_stray_list fuel :
  forall s G nx d left a delta s',
    anlr_inv s1 maximumLength nodesToMove insertDepth s G nx d left a delta ->
    anlr_loop inner fuel nodesToMove insertDepth G nx d left a s
      = Ret (tt, s') ->
    exists new,
      stray s' = new ++ stray s /\
      Forall (fun e => -2 <= fst e <= -1) new.
Proof.
  induction fuel as [|fuel IH]; intros s G nx d left a delta s' I E;
    [discriminate|].
  destruct (Z_lt_le_dec 0 a) as [Ha|Ha].
  - destruct (anlr_turn s1 maximumLength nodesToMove insertDepth inner
                Htree Hfit Hinner Hntm Hwidth Hpow Hmax
                fuel s G nx d left a delta I Ha)
      as (s2 & G' & off & delta' & Hb & Er & El & I' & _).
    rewrite El in E.
    destruct (write_run_stray_list _ _ _ _ _ _ Er) as (new1 & E1 & F1).
    destruct (IH _ _ _ _ _ _ _ s' I' E) as (new2 & E2 & F2).
    pose proof (ri_count _ _ _ _ _ _ _ _ _ _ _ I') as Hc'.
    pose proof (ri_first _ _ _ _ _ _ _ _ _ _ _ I') as HG'.
    pose proof (ri_left _ _ _ _ _ _ _ _ _ _ _ I') as Hl'.
    pose proof (ri_delta _ _ _ _ _ _ _ _ _ _ _ I') as Hd'.
    exists (new2 ++ new1). split.
    + rewrite E2, E1, app_assoc. reflexivity.
    + apply Forall_app. split; [exact F2|].
      eapply Forall_impl; [exact F1|]. simpl. intros e He. lia.
  - pose proof (ri_avail _ _ _ _ _ _ _ _ _ _ _ I).
    assert (a = 0) by lia. subst a.
    simpl in E. injection E as <-.
    exists []. split; [reflexivity | constructor].
Qed.

(** The limited assigner makes two stores below the buffer at most, at
    the indices [-1] and [-2]. *)
Lemma relocation_stray_few s' :
  allocateNodeLengthsWithRelocation inner nodesToMove insertDepth s1
    = Ret (tt, s') ->
  exists new,
    stray s' = new ++ stray s1 /\ (length new <= 2)%nat /\
    Forall (fun e => -2 <= fst e <= -1) new.
Proof.
  intros E. pose proof (ts_len _ Htree) as Hn.
  unfold allocateNodeLengthsWithRelocation in E.
  rewrite run_array_length in E.
  pose proof (anlr_start_inv s1 maximumLength nodesToMove insertDepth inner
                Htree Hinner Hntm Hins Hwidth Hpow Hlong Hreach Hmax) as I.
  destruct (anlr_loop_stray_list inner _ _ _ _ _ _ _ s' I E)
    as (new & En & Fn).
  pose proof (anlr_loop_stray inner _ _ _ _ _ _ _ s' I ltac:(lia) E) as Hc.
  exists new. split; [exact En|]. split; [|exact Fn].
  rewrite En, length_app in Hc. lia.
Qed.

(** With [insertDepth] at [1] or more, the last turn of the limited
    assigner is the one at depth [maximumLength], and its stores reach slot
    [0]. *)
Lemma anlr_loop_deep fuel :
  forall s G nx d left a delta s',
    anlr_inv s1 maximumLength nodesToMove insertDepth s G nx d left a delta ->
    0 < a -> 1 <= insertDepth ->
    anlr_loop inner fuel nodesToMove insertDepth G nx d left a s
      = Ret (tt, s') ->
    slot s' 0 = maximumLength.
Proof.
  induction fuel as [|fuel IH]; intros s G nx d left a delta s' I Ha H1 E;
    [discriminate|].
  destruct (anlr_turn s1 maximumLength nodesToMove insertDepth inner
              Htree Hfit Hinner Hntm Hwidth Hpow Hmax
              fuel s G nx d left a delta I Ha)
    as (s2 & G' & off & delta' & Hb & Er & El & I' & Hnat & Hmov & _).
  rewrite El in E.
  destruct (Z.eq_dec (G - G' + off) 0) as [Eb|Eb].
  - (* the last turn *)
    rewrite Eb in *.
    destruct fuel as [|fuel]; [discriminate|].
    simpl in E. injection E as <-.
    pose proof (ri_cap _ _ _ _ _ _ _ _ _ _ _ I Ha) as Hcap.
    pose proof (ri_next _ _ _ _ _ _ _ _ _ _ _ I) as Hnx.
    pose proof (ri_left _ _ _ _ _ _ _ _ _ _ _ I) as Hleft.
    pose proof (ri_delta _ _ _ _ _ _ _ _ _ _ _ I) as Hdelta.
    pose proof (ri_agree _ _ _ _ _ _ _ _ _ _ _ I) as [L _].
    assert (Ed : d = maximumLength).
    { destruct (Z_lt_le_dec d maximumLength) as [C|C]; [exfalso|lia].
      destruct (Z_lt_le_dec d insertDepth) as [C1|C1];
        [specialize (Hnat C1); lia|].
      destruct (Hmov C1) as (Eoff & HG' & _).
      destruct (ri_moving _ _ _ _ _ _ _ _ _ _ _ I Ha C1)
        as (_ & _ & Cons & _).
      pose proof (pow2_pos (d - insertDepth) ltac:(lia)).
      pose proof (pow2_le (d - insertDepth)
                    (maximumLength - insertDepth - 1) ltac:(lia)).
      lia. }
    destruct (ri_done _ _ _ _ _ _ _ _ _ _ _ I' eq_refl) as [D1 D2].
    pose proof (ri_count _ _ _ _ _ _ _ _ _ _ _ I') as Hc.
    pose proof (ri_exact _ _ _ _ _ _ _ _ _ _ _ I' H1) as Hz.
    destruct (write_run_spec (Z.to_nat (a - 0)) nx d s ltac:(lia))
      as (s3 & E3 & _ & WA & _).
    rewrite Er in E3. injection E3 as _ <-.
    rewrite (WA 0) by lia. exact Ed.
  - apply (IH _ _ _ _ _ _ _ s' I' ltac:(lia) H1 E).
Qed.

(** With [insertDepth] at [1] or more the limited assigner leaves
    [maximumLength] in slot [0]. *)
Lemma relocation_deep s' :
  1 <= insertDepth ->
  allocateNodeLengthsWithRelocation inner nodesToMove insertDepth s1
    = Ret (tt, s') ->
  slot s' 0 = maximumLength.
Proof.
  intros H1 E.
  unfold allocateNodeLengthsWithRelocation in E.
  rewrite run_array_length in E.
  pose proof (anlr_start_inv s1 maximumLength nodesToMove insertDepth inner
                Htree Hinner Hntm Hins Hwidth Hpow Hlong Hreach Hmax) as I.
  apply (anlr_loop_deep inner _ _ _ _ _ _ _ s' I); [|exact H1 | exact E].
  destruct (insertDepth =? 1); vm_compute; reflexivity.
Qed.

(** With [delta] nodes made available without a parent, the lengths written
    and the nodes still available weigh [delta] times the weight of the
    level above too much; what the stores below the buffer take away is
    less. *)
Lemma anlr_loop_excess fuel :
  forall s G nx d left a delta s',
    anlr_inv s1 maximumLength nodesToMove insertDepth s G nx d left a delta ->
    Z.of_nat (length (stray s))
    = Z.of_nat (length (stray s1)) + Z.max 0 (-1 - nx) ->
    2 ^ maximumLength + delta * 2 ^ (maximumLength - d + 1)
    <= written_weight maximumLength s nx + a * 2 ^ (maximumLength - d) ->
    anlr_loop inner fuel nodesToMove insertDepth G nx d left a s
      = Ret (tt, s') ->
    2 ^ maximumLength
    + (Z.of_nat (length (stray s')) - Z.of_nat (length (stray s1)))
    <= kraft_scaled maximumLength (elems s').
Proof.
  induction fuel as [|fuel IH]; intros s G nx d left a delta s' I Q HY E;
    [discriminate|].
  pose proof (ri_depth _ _ _ _ _ _ _ _ _ _ _ I) as Hd.
  pose proof (ri_delta _ _ _ _ _ _ _ _ _ _ _ I) as Hdelta.
  pose proof (ri_count _ _ _ _ _ _ _ _ _ _ _ I) as Hc.
  destruct (Z_lt_le_dec 0 a) as [Ha|Ha].
  - destruct (anlr_turn s1 maximumLength nodesToMove insertDepth inner
                Htree Hfit Hinner Hntm Hwidth Hpow Hmax
                fuel s G nx d left a delta I Ha)
      as (s2 & G' & off & delta' & Hb & Er & El & I' & _).
    rewrite El in E.
    pose proof (ri_cap _ _ _ _ _ _ _ _ _ _ _ I Ha) as Hcap.
    pose proof (ri_next _ _ _ _ _ _ _ _ _ _ _ I) as Hnx.
    pose proof (ri_agree _ _ _ _ _ _ _ _ _ _ _ I) as [L _].
    pose proof (ri_count _ _ _ _ _ _ _ _ _ _ _ I') as Hc'.
    pose proof (ri_first _ _ _ _ _ _ _ _ _ _ _ I') as HG'.
    pose proof (ri_left _ _ _ _ _ _ _ _ _ _ _ I') as Hl'.
    pose proof (ri_cap _ _ _ _ _ _ _ _ _ _ _ I') as Hcap'.
    destruct (write_run_stray _ _ _ _ _ _ Er) as [_ Q'].
    specialize (Q' ltac:(lia)).
    destruct (write_run_spec (Z.to_nat (a - (G - G' + off))) nx d s
                ltac:(lia)) as (s3 & E3 & L3 & WA & WB & _).
    rewrite Er in E3. injection E3 as E3 <-.
    set (b := G - G' + off) in *.
    pose proof (write_run_excess maximumLength s s2 nx
                  (Z.of_nat (Z.to_nat (a - b))) d L3 WA WB ltac:(lia)
                  ltac:(lia)) as W.
    replace (nx - Z.of_nat (Z.to_nat (a - b)))
      with (nx - Z.max 0 (a - b)) in W by lia.
    set (P := 2 ^ (maximumLength - d)) in *.
    assert (HP : 0 <= P) by (apply Z.pow_nonneg; lia).
    assert (HP2 : 2 ^ (maximumLength - d + 1) = 2 * P)
      by (apply pow2_succ; lia).
    assert (Hb2 : 2 * b * 2 ^ (maximumLength - (d + 1)) = b * P).
    { destruct (Z.eq_dec d maximumLength) as [Ed|Ed].
      - assert (b = 0) by lia. subst b. lia.
      - unfold P.
        replace (maximumLength - d) with (maximumLength - (d + 1) + 1)
          by lia.
        rewrite pow2_succ by lia. lia. }
    apply (IH _ _ _ _ _ _ _ s' I' ltac:(lia)); [|exact E].
    replace (maximumLength - (d + 1) + 1) with (maximumLength - d) by lia.
    fold P. rewrite W, Hb2, HP2 in *.
    destruct (Z_lt_le_dec a b) as [C|C].
    + replace (Z.max 0 (a - b)) with 0 in * by lia.
      replace (nx - 0) with nx in * by lia.
      assert (Ed' : delta' = delta + (b - a)) by lia.
      pose proof (Z.mul_nonneg_nonneg delta P ltac:(lia) HP). nia.
    + replace (Z.max 0 (a - b)) with (a - b) in * by lia.
      assert (Ed' : delta' = delta) by lia.
      assert (Hw : 0 <= delta + (Z.max 0 (nx + 1)
                                 - Z.max 0 (nx - (a - b) + 1)) + b - a)
        by lia.
      pose proof (Z.mul_nonneg_nonneg _ P Hw HP). nia.
  - pose proof (ri_avail _ _ _ _ _ _ _ _ _ _ _ I).
    assert (a = 0) by lia. subst a.
    simpl in E. injection E as <-.
    destruct (ri_done _ _ _ _ _ _ _ _ _ _ _ I eq_refl).
    assert (HW : written_weight maximumLength s nx
                 = kraft_scaled maximumLength (elems s)).
    { unfold written_weight.
      replace (Z.to_nat (nx + 1)) with O by lia. reflexivity. }
    pose proof (pow2_pos (maximumLength - d + 1) ltac:(lia)).
    rewrite HW in HY. nia.
Qed.

(** With [insertDepth = 0] the limited assigner leaves lengths whose Kraft
    sum is above [1]. *)
Lemma relocation_excess s' :
  insertDepth = 0 ->
  allocateNodeLengthsWithRelocation inner nodesToMove insertDepth s1
    = Ret (tt, s') ->
  2 ^ maximumLength < kraft_scaled maximumLength (elems s').
Proof.
  intros H0 E. pose proof (relocation_stray s' H0 E) as Hs.
  unfold allocateNodeLengthsWithRelocation in E.
  rewrite run_array_length in E.
  pose proof (anlr_start_inv s1 maximumLength nodesToMove insertDepth inner
                Htree Hinner Hntm Hins Hwidth Hpow Hlong Hreach Hmax) as I.
  pose proof (ts_len _ Htree) as Hn.
  pose proof (anlr_loop_excess inner _ _ _ _ _ _ _ s' I ltac:(lia)) as X.
  pose proof (ri_kraft _ _ _ _ _ _ _ _ _ _ _ I eq_refl) as K.
  specialize (X ltac:(lia) E). lia.
Qed.
End Relocated.

(** ** The setting of the limited assigner *)

(** When the entry point chooses the limited assigner, on a tree of no
    more than [2 ^ maximumLength] slots, its arguments are as the limited
    assigner needs them. *)
Lemma relocation_setting s1 maximumLength j :
  tree_shape s1 -> fits_int32 s1 -> len_of s1 <= 2 ^ maximumLength ->
  Z.of_nat j <= Z.max 0 (maximumLength - 2) ->
  Z.of_nat j = Z.max 0 (maximumLength - 2) \/
  natsteps s1 j (len_of s1 - 2) <= 1 ->
  parent s1 0 < natsteps s1 j (len_of s1 - 2) ->
  let r := natsteps s1 j (len_of s1 - 2) in
  let ins := maximumLength - fls (r - 1) in
  2 <= maximumLength /\ 2 <= r <= len_of s1 - 2 /\ 0 <= ins /\
  1 <= maximumLength - ins <= 30 /\
  (2 ^ (maximumLength - ins - 1) <= r - 1 /\
   r - 1 < 2 ^ (maximumLength - ins)) /\
  natsteps s1 (Z.to_nat (maximumLength - 2)) (len_of s1 - 2) = r /\
  (2 * len_of s1 <= 2 ^ maximumLength -> 1 <= ins).
Proof.
  intros T Hfit Hlong Hj1 Hj2 Hc r ins.
  pose proof (ts_len _ T) as Hn.
  assert (Hmax : 2 <= maximumLength).
  { destruct (Z_le_gt_dec maximumLength 1) as [C|C]; [|lia].
    pose proof (pow2_small maximumLength C). lia. }
  pose proof (natsteps_range s1 j (len_of s1 - 2) ltac:(lia)) as Hr.
  fold r in Hr, Hc, Hj2.
  pose proof (tree_parent s1 0 T ltac:(lia)) as Hp0.
  assert (Hj : Z.of_nat j = maximumLength - 2) by lia.
  destruct (fls_spec (r - 1) ltac:(lia)) as (F1 & F2 & F3).
  unfold fits_int32 in Hfit.
  pose proof (fls_le (r - 1) 30 ltac:(lia)) as F4.
  pose proof (fls_le (r - 1) maximumLength ltac:(lia)) as F5.
  split; [exact Hmax|]. split; [lia|]. split; [unfold ins; lia|].
  split; [unfold ins; lia|]. split; [|split].
  - unfold ins.
    replace (maximumLength - (maximumLength - fls (r - 1)) - 1)
      with (fls (r - 1) - 1) by lia.
    replace (maximumLength - (maximumLength - fls (r - 1)))
      with (fls (r - 1)) by lia.
    lia.
  - replace (Z.to_nat (maximumLength - 2)) with j by lia. reflexivity.
  - intros Hhalf.
    assert (Hm1 : 2 ^ maximumLength = 2 * 2 ^ (maximumLength - 1)).
    { replace maximumLength with (maximumLength - 1 + 1) at 1 by lia.
      apply pow2_succ. lia. }
    pose proof (fls_le (r - 1) (maximumLength - 1) ltac:(lia)).
    unfold ins. lia.
Qed.

(** The unlimited assigner on a tree, with the maximum length it can
    reach. *)
Lemma allocateNodeLengths_tree s1 fuel :
  tree_shape s1 -> fits_int32 s1 -> (Z.to_nat (len_of s1) <= fuel)%nat ->
  exists s',
    allocateNodeLengths fuel s1 = Ret (tt, s') /\
    len_of s' = len_of s1 /\ stray s' = stray s1 /\
    tail_ok s' (-1) 1 (len_of s1 - 1) /\
    written_weight (len_of s1 - 1) s' (-1) = 2 ^ (len_of s1 - 1).
Proof.
  intros T Hfit Hfuel. pose proof (ts_len _ T) as Hn.
  apply allocateNodeLengths_ok; auto; [lia|].
  pose proof (natsteps_decrease s1 (Z.to_nat (len_of s1 - 1 - 1)) T
                (len_of s1 - 2) ltac:(lia)).
  pose proof (natsteps_range s1 (Z.to_nat (len_of s1 - 1 - 1))
                (len_of s1 - 2) ltac:(lia)).
  lia.
Qed.

(** Stores below the buffer happen when the limited assigner runs with
    [insertDepth = 0], and only then. *)
Lemma alloc_stray s s1 fuel maximumLength r :
  3 <= len_of s -> fits_int32 s -> (Z.to_nat (len_of s) <= fuel)%nat ->
  len_of s <= 2 ^ maximumLength ->
  setExtendedParentPointers s = Ret (tt, s1) ->
  findNodesToRelocate fuel maximumLength s1 = Ret (r, s1) ->
  exists s',
    allocateHuffmanCodeLengths fuel maximumLength s = Ret (tt, s') /\
    (r <= parent s1 0 \/ 1 <= maximumLength - fls (r - 1) ->
     stray s' = stray s) /\
    (parent s1 0 < r -> maximumLength - fls (r - 1) <= 0 ->
     (length (stray s) < length (stray s'))%nat) /\
    (parent s1 0 < r -> 1 <= maximumLength - fls (r - 1) ->
     slot s' 0 = maximumLength) /\
    (r <= parent s1 0 -> allocateNodeLengths fuel s1 = Ret (tt, s')).
Proof.
  intros Hn Hfit Hfuel Hlong E1 E2.
  destruct (setExtendedParentPointers_tree s Hn) as (s2 & E1' & T & L1 & S1).
  rewrite E1 in E1'. injection E1' as <-.
  assert (Hfit1 : fits_int32 s1) by (unfold fits_int32 in *; lia).
  destruct (findNodesToRelocate_spec s1 fuel maximumLength T Hfit1
              ltac:(lia)) as (j & E2' & Hj1 & Hj2).
  rewrite E2 in E2'. injection E2' as Er. subst r.
  set (r := natsteps s1 j (len_of s1 - 2)) in *.
  rewrite (alloc_three_passes fuel maximumLength s s1 s1 r (slot s1 0)
             Hn E1 E2 (slot_lookup s1 0 ltac:(lia))).
  change (Z.rem (slot s1 0) (len_of s1)) with (parent s1 0).
  destruct (parent s1 0 >=? r) eqn:Ec.
  - apply geb_true in Ec.
    destruct (allocateNodeLengths_tree s1 fuel T Hfit1 ltac:(lia))
      as (s' & E & L & S & _).
    exists s'. split; [exact E|]. split; [intros _; congruence|].
    split; [intros; lia|]. split; [intros; lia|]. intros _. exact E.
  - apply geb_false in Ec.
    destruct (relocation_setting s1 maximumLength j T Hfit1 ltac:(lia)
                Hj1 Hj2 Ec) as (Hmax & Hr & Hins & Hwidth & Hpow & Hreach & _).
    fold r in Hr, Hins, Hwidth, Hpow, Hreach.
    set (ins := maximumLength - fls (r - 1)) in *.
    destruct (allocateNodeLengthsWithRelocation_ok s1 maximumLength r ins
                fuel T Hfit1 ltac:(lia) Hr Hins Hwidth Hpow ltac:(lia)
                Hreach Hmax) as (s' & E & L & Tl & S).
    exists s'. split; [exact E|]. split; [|split; [|split]].
    + intros [C|C]; [lia|]. destruct (S C) as [S' _]. congruence.
    + intros _ C. rewrite <- S1.
      apply (relocation_stray s1 maximumLength r ins fuel T Hfit1
               ltac:(lia) Hr Hins Hwidth Hpow ltac:(lia) Hreach Hmax s'
               ltac:(lia) E).
    + intros _ C.
      apply (relocation_deep s1 maximumLength r ins fuel T Hfit1
               ltac:(lia) Hr Hins Hwidth Hpow ltac:(lia) Hreach Hmax s'
               C E).
    + intros C. lia.
Qed.

(** On three slots or more, with [maximumLength] at least [ceil(log2(n))]:
    the run makes two stores below the buffer at most, at [-1] and [-2]. *)
Lemma alloc_stray_few s fuel maximumLength :
  3 <= len_of s -> fits_int32 s -> (Z.to_nat (len_of s) <= fuel)%nat ->
  len_of s <= 2 ^ maximumLength ->
  exists s' new,
    allocateHuffmanCodeLengths fuel maximumLength s = Ret (tt, s') /\
    stray s' = new ++ stray s /\ (length new <= 2)%nat /\
    Forall (fun e => -2 <= fst e <= -1) new.
Proof.
  intros Hn Hfit Hfuel Hlong.
  destruct (setExtendedParentPointers_tree s Hn) as (s1 & E1 & T & L1 & S1).
  assert (Hfit1 : fits_int32 s1) by (unfold fits_int32 in *; lia).
  destruct (findNodesToRelocate_spec s1 fuel maximumLength T Hfit1
              ltac:(lia)) as (j & E2 & Hj1 & Hj2).
  set (r := natsteps s1 j (len_of s1 - 2)) in *.
  rewrite (alloc_three_passes fuel maximumLength s s1 s1 r (slot s1 0)
             Hn E1 E2 (slot_lookup s1 0 ltac:(lia))).
  change (Z.rem (slot s1 0) (len_of s1)) with (parent s1 0).
  destruct (parent s1 0 >=? r) eqn:Ec.
  - destruct (allocateNodeLengths_tree s1 fuel T Hfit1 ltac:(lia))
      as (s' & E & L & S & _).
    exists s', []. split; [exact E|]. split; [simpl; congruence|].
    split; [simpl; lia | constructor].
  - apply geb_false in Ec.
    destruct (relocation_setting s1 maximumLength j T Hfit1 ltac:(lia)
                Hj1 Hj2 Ec) as (Hmax & Hr & Hins & Hwidth & Hpow & Hreach & _).
    fold r in Hr, Hins, Hwidth, Hpow, Hreach.
    set (ins := maximumLength - fls (r - 1)) in *.
    destruct (allocateNodeLengthsWithRelocation_ok s1 maximumLength r ins
                fuel T Hfit1 ltac:(lia) Hr Hins Hwidth Hpow ltac:(lia)
                Hreach Hmax) as (s' & E & _).
    destruct (relocation_stray_few s1 maximumLength r ins fuel T Hfit1
                ltac:(lia) Hr Hins Hwidth Hpow ltac:(lia) Hreach Hmax
                s' E) as (new & En & Ln & Fn).
    exists s', new. split; [exact E|]. rewrite <- S1. auto.
Qed.

(** ** Consequences of Kraft equality *)

Lemma non_increasing_tail a l : non_increasing (a :: l) -> non_increasing l.
Proof. intros H i x y Hx Hy. apply (H (S i) x y); assumption. Qed.

Lemma non_increasing_head a l :
  non_increasing (a :: l) -> Forall (fun x => x <= a) l.
Proof.
  revert a. induction l as [|b l IH]; intros a H; constructor.
  - apply (H O a b); reflexivity.
  - pose proof (H O a b eq_refl eq_refl) as Hab.
    eapply Forall_impl; [apply IH, (non_increasing_tail a), H|].
    simpl. intros x Hx. lia.
Qed.

Lemma kraft_scaled_even K l :
  Forall (fun x => x < K) l -> exists q, kraft_scaled K l = 2 * q.
Proof.
  intros H. induction H as [|x l Hx Hl [q IH]]; simpl.
  - exists 0. reflexivity.
  - exists (2 ^ (K - x - 1) + q). rewrite IH.
    replace (K - x) with (K - x - 1 + 1) at 1 by lia.
    rewrite pow2_succ by lia. lia.
Qed.

(** Lengths that never go up and have Kraft sum [1] start with two equal
    lengths. *)
Lemma kraft_two_longest a b l :
  non_increasing (a :: b :: l) -> kraft_equality (a :: b :: l) -> a = b.
Proof.
  intros NI [Pos K].
  pose proof (non_increasing_head a (b :: l) NI) as Ha.
  pose proof (non_increasing_head b l (non_increasing_tail a _ NI)) as Hb.
  apply Forall_cons in Pos as [Pa Pos].
  apply Forall_cons in Pos as [Pb Pos].
  apply Forall_cons in Ha as [Hba _].
  assert (M : fold_right Z.max 0 (a :: b :: l) = a).
  { assert (Hall : Forall (fun x => x <= a) (b :: l)).
    { constructor; [lia|].
      eapply Forall_impl; [exact Hb|]. simpl. intros x Hx. lia. }
    pose proof (max_reached (b :: l) a Hall Pa) as U.
    cbn [fold_right] in *. lia. }
  rewrite M in K. cbn [kraft_scaled fold_right] in K.
  destruct (Z.eq_dec a b) as [E|E]; [exact E|exfalso].
  assert (Hlt : Forall (fun x => x < a) (b :: l)).
  { constructor; [lia|].
    eapply Forall_impl; [exact Hb|]. simpl. intros x Hx. lia. }
  destruct (kraft_scaled_even a (b :: l) Hlt) as [q Hq].
  cbn [kraft_scaled fold_right] in Hq. rewrite Hq in K.
  replace (a - a) with 0 in K by lia. change (2 ^ 0) with 1 in K.
  replace a with (a - 1 + 1) in K at 1 by lia.
  rewrite pow2_succ in K by lia. lia.
Qed.

(** Lengths within [K] whose Kraft sum is [1] weigh [2 ^ K] at the scale
    [K]. *)
Lemma kraft_equality_scaled K l :
  Forall (fun x => 1 <= x <= K) l -> kraft_equality l ->
  kraft_scaled K l = 2 ^ K.
Proof.
  intros H [_ E]. destruct (max_bounds l) as [M0 MB].
  set (M := fold_right Z.max 0 l) in *.
  assert (HK : 0 <= K).
  { destruct l as [|x l]; [|apply Forall_cons in H as [Hx _]; lia].
    simpl in E. change (2 ^ 0) with 1 in E. lia. }
  assert (HM : M <= K).
  { apply max_reached; [|lia].
    eapply Forall_impl; [exact H|]. simpl. intros a Ha. lia. }
  rewrite (kraft_rescale K M) by (auto; lia). rewrite E.
  rewrite <- Z.pow_add_r by lia. f_equal. lia.
Qed.

(** On three slots or more, with [maximumLength] at least [ceil(log2(n))]:
    the Kraft sum is [1] exactly when no store went below the buffer. *)
Lemma alloc_kraft s fuel maximumLength :
  3 <= len_of s -> fits_int32 s -> (Z.to_nat (len_of s) <= fuel)%nat ->
  len_of s <= 2 ^ maximumLength ->
  exists s',
    allocateHuffmanCodeLengths fuel maximumLength s = Ret (tt, s') /\
    len_of s' = len_of s /\
    (kraft_equality (elems s') <-> stray s' = stray s) /\
    (stray s' <> stray s ->
     2 ^ maximumLength < kraft_scaled maximumLength (elems s')).
Proof.
  intros Hn Hfit Hfuel Hlong.
  destruct (setExtendedParentPointers_tree s Hn) as (s1 & E1 & T & L1 & S1).
  assert (Hfit1 : fits_int32 s1) by (unfold fits_int32 in *; lia).
  destruct (findNodesToRelocate_spec s1 fuel maximumLength T Hfit1
              ltac:(lia)) as (j & E2 & Hj1 & Hj2).
  set (r := natsteps s1 j (len_of s1 - 2)) in *.
  rewrite (alloc_three_passes fuel maximumLength s s1 s1 r (slot s1 0)
             Hn E1 E2 (slot_lookup s1 0 ltac:(lia))).
  change (Z.rem (slot s1 0) (len_of s1)) with (parent s1 0).
  destruct (parent s1 0 >=? r) eqn:Ec.
  - destruct (allocateNodeLengths_tree s1 fuel T Hfit1 ltac:(lia))
      as (s' & E & L & S & Tl & W).
    exists s'. split; [exact E|]. split; [lia|].
    assert (Se : stray s' = stray s) by congruence.
    split; [|intros Hne; contradiction].
    split; [intros _; exact Se|]. intros _.
    destruct (tail_ok_all _ _ Tl) as [_ FA].
    apply (kraft_equality_at (len_of s1 - 1)); [lia | exact FA | exact W].
  - apply geb_false in Ec.
    destruct (relocation_setting s1 maximumLength j T Hfit1 ltac:(lia)
                Hj1 Hj2 Ec) as (Hmax & Hr & Hins & Hwidth & Hpow & Hreach & _).
    fold r in Hr, Hins, Hwidth, Hpow, Hreach.
    set (ins := maximumLength - fls (r - 1)) in *.
    destruct (allocateNodeLengthsWithRelocation_ok s1 maximumLength r ins
                fuel T Hfit1 ltac:(lia) Hr Hins Hwidth Hpow ltac:(lia)
                Hreach Hmax) as (s' & E & L & Tl & S).
    exists s'. split; [exact E|]. split; [lia|].
    destruct (tail_ok_all _ _ Tl) as [_ FA].
    destruct (Z_le_gt_dec 1 ins) as [C|C].
    + destruct (S C) as [S' W].
      assert (Se : stray s' = stray s) by congruence.
      split; [|intros Hne; contradiction].
      split; [intros _; exact Se|]. intros _.
      apply (kraft_equality_at maximumLength); [lia | exact FA | exact W].
    + pose proof (relocation_stray s1 maximumLength r ins fuel T Hfit1
                    ltac:(lia) Hr Hins Hwidth Hpow ltac:(lia) Hreach Hmax
                    s' ltac:(lia) E) as Hs.
      pose proof (relocation_excess s1 maximumLength r ins fuel T Hfit1
                    ltac:(lia) Hr Hins Hwidth Hpow ltac:(lia) Hreach Hmax
                    s' ltac:(lia) E) as Hx.
      split; [|intros _; exact Hx]. split.
      * intros K. pose proof (kraft_equality_scaled _ _ FA K). lia.
      * intros S'. rewrite S', <- S1 in Hs. lia.
Qed.

(** ** Pass 1 on weights multiplied by a constant *)

Lemma ltb_scale c a b : 0 < c -> (c * a <? c * b) = (a <? b).
Proof.
  intros Hc. destruct (a <? b) eqn:E.
  - apply Z.ltb_lt in E. apply Z.ltb_lt. nia.
  - apply Z.ltb_ge in E. apply Z.ltb_ge. nia.
Qed.

(** Both runs store the same pointer in slot [h]. *)
Lemma scaled_upd_pointer c s t h v :
  scaled c s t h -> 0 <= h < len_of s ->
  scaled c (upd s h v) (upd t h v) (h + 1).
Proof.
  intros (L & S & P & W) Hh. split; [rewrite !len_of_upd; exact L|].
  split; [exact S|]. split.
  - intros k Hk. destruct (Z.eq_dec k h) as [->|Hne].
    + rewrite !slot_upd_eq by lia. reflexivity.
    + rewrite !slot_upd_ne by lia. apply P. lia.
  - intros k Hk. rewrite !slot_upd_ne by lia. apply W. lia.
Qed.

(** Both runs store a weight in slot [k]. *)
Lemma scaled_upd_weight c s t h k w :
  scaled c s t h -> 0 <= h <= k -> k < len_of s ->
  scaled c (upd s k w) (upd t k (c * w)) h.
Proof.
  intros (L & S & P & W) Hh Hk. split; [rewrite !len_of_upd; exact L|].
  split; [exact S|]. split.
  - intros j Hj. rewrite !slot_upd_ne by lia. apply P. lia.
  - intros j Hj. destruct (Z.eq_dec j k) as [->|Hne].
    + rewrite !slot_upd_eq by lia. reflexivity.
    + rewrite !slot_upd_ne by lia. apply W. lia.
Qed.

Lemma spp_body_scaled c s t h tl p s' h' p' :
  0 < c -> spp_inv s h tl p -> tl <= len_of s - 2 -> scaled c s t h ->
  spp_body (len_of s) h tl p s = Ret ((h', p'), s') ->
  exists t',
    spp_body (len_of t) h tl p t = Ret ((h', p'), t') /\
    scaled c s' t' h'.
Proof.
  intros Hc [I1 I2 I3 I4 I5] Ht Sc E.
  pose proof Sc as (L & S & P & W).
  unfold spp_body in *.
  assert (C1t : (p >=? len_of t) || (slot t h <? slot t p)
                = (p >=? len_of s) || (slot s h <? slot s p)).
  { rewrite L, (W h), (W p) by lia. rewrite ltb_scale by exact Hc.
    reflexivity. }
  destruct ((p >=? len_of s) || (slot s h <? slot s p)) eqn:C1.
  - (* the first pick is the internal node h *)
    rewrite (bind_Ret _ _ _ _ _
               (spp_pick1_internal s h tl p ltac:(lia) C1 ltac:(lia))) in E.
    rewrite (bind_Ret _ _ _ _ _
               (spp_pick1_internal t h tl p ltac:(lia) C1t ltac:(lia))).
    pose proof (scaled_upd_pointer c s t h tl Sc ltac:(lia)) as Sc1.
    set (s1 := upd s h tl) in *. set (t1 := upd t h tl) in *.
    pose proof Sc1 as (L1 & S1 & P1 & W1).
    assert (Ls1 : len_of s1 = len_of s) by apply len_of_upd.
    assert (Lt1 : len_of t1 = len_of t) by apply len_of_upd.
    cbv beta iota in *. rewrite <- Ls1 in E. rewrite <- Lt1.
    assert (C2t : (p >=? len_of t1)
                  || ((h + 1 <? tl) && (slot t1 (h + 1) <? slot t1 p))
                  = (p >=? len_of s1)
                    || ((h + 1 <? tl) && (slot s1 (h + 1) <? slot s1 p))).
    { rewrite L1, (W1 (h + 1)), (W1 p) by lia.
      rewrite ltb_scale by exact Hc. reflexivity. }
    destruct ((p >=? len_of s1)
              || ((h + 1 <? tl) && (slot s1 (h + 1) <? slot s1 p))) eqn:C2.
    + assert (Hh1 : h + 1 < tl).
      { apply orb_true_iff in C2 as [C2|C2].
        - apply geb_true in C2. lia.
        - apply andb_true_iff in C2 as [C2 _]. apply Z.ltb_lt in C2. lia. }
      rewrite (bind_Ret _ _ _ _ _
                 (spp_pick2_internal s1 (slot s h) (h + 1) tl p
                    ltac:(lia) C2 ltac:(lia))) in E.
      rewrite (bind_Ret _ _ _ _ _
                 (spp_pick2_internal t1 (slot t h) (h + 1) tl p
                    ltac:(lia) C2t ltac:(lia))).
      cbv beta iota in *.
      rewrite run_write in E by (rewrite len_of_upd; lia).
      rewrite run_write by (rewrite len_of_upd; lia).
      injection E as <- <- <-.
      eexists. split; [reflexivity|].
      rewrite (W h), (W1 (h + 1)), L1 by lia.
      replace (c * slot s h + c * slot s1 (h + 1))
        with (c * (slot s h + slot s1 (h + 1))) by lia.
      apply scaled_upd_weight; [|lia|rewrite len_of_upd; lia].
      apply scaled_upd_pointer; [exact Sc1 | lia].
    + assert (Hp : p < len_of s1).
      { apply orb_false_iff in C2 as [C2 _]. apply geb_false in C2. lia. }
      rewrite (bind_Ret _ _ _ _ _
                 (spp_pick2_leaf s1 (slot s h) (h + 1) tl p
                    ltac:(lia) C2 ltac:(lia))) in E.
      rewrite (bind_Ret _ _ _ _ _
                 (spp_pick2_leaf t1 (slot t h) (h + 1) tl p
                    ltac:(lia) C2t ltac:(lia))).
      cbv beta iota in *.
      rewrite run_write in E by lia. rewrite run_write by lia.
      injection E as <- <- <-.
      eexists. split; [reflexivity|].
      rewrite (W h), (W1 p) by lia.
      replace (c * slot s h + c * slot s1 p)
        with (c * (slot s h + slot s1 p)) by lia.
      apply scaled_upd_weight; [exact Sc1 | lia | lia].
  - (* the first pick is the leaf p *)
    assert (Hp : p < len_of s).
    { apply orb_false_iff in C1 as [C1 _]. apply geb_false in C1. lia. }
    rewrite (bind_Ret _ _ _ _ _
               (spp_pick1_leaf s h tl p ltac:(lia) C1 ltac:(lia))) in E.
    rewrite (bind_Ret _ _ _ _ _
               (spp_pick1_leaf t h tl p ltac:(lia) C1t ltac:(lia))).
    cbv beta iota in *.
    assert (C2t : (p + 1 >=? len_of t)
                  || ((h <? tl) && (slot t h <? slot t (p + 1)))
                  = (p + 1 >=? len_of s)
                    || ((h <? tl) && (slot s h <? slot s (p + 1)))).
    { rewrite L, (W h), (W (p + 1)) by lia.
      rewrite ltb_scale by exact Hc. reflexivity. }
    destruct ((p + 1 >=? len_of s)
              || ((h <? tl) && (slot s h <? slot s (p + 1)))) eqn:C2.
    + rewrite (bind_Ret _ _ _ _ _
                 (spp_pick2_internal s (slot s p) h tl (p + 1)
                    ltac:(lia) C2 ltac:(lia))) in E.
      rewrite (bind_Ret _ _ _ _ _
                 (spp_pick2_internal t (slot t p) h tl (p + 1)
                    ltac:(lia) C2t ltac:(lia))).
      cbv beta iota in *.
      rewrite run_write in E by (rewrite len_of_upd; lia).
      rewrite run_write by (rewrite len_of_upd; lia).
      injection E as <- <- <-.
      eexists. split; [reflexivity|].
      rewrite (W h), (W p), L by lia.
      replace (c * slot s p + c * slot s h)
        with (c * (slot s p + slot s h)) by lia.
      apply scaled_upd_weight; [|lia|rewrite len_of_upd; lia].
      apply scaled_upd_pointer; [exact Sc | lia].
    + assert (Hp1 : p + 1 < len_of s).
      { apply orb_false_iff in C2 as [C2 _]. apply geb_false in C2. lia. }
      rewrite (bind_Ret _ _ _ _ _
                 (spp_pick2_leaf s (slot s p) h tl (p + 1)
                    ltac:(lia) C2 ltac:(lia))) in E.
      rewrite (bind_Ret _ _ _ _ _
                 (spp_pick2_leaf t (slot t p) h tl (p + 1)
                    ltac:(lia) C2t ltac:(lia))).
      cbv beta iota in *.
      rewrite run_write in E by lia. rewrite run_write by lia.
      injection E as <- <- <-.
      eexists. split; [reflexivity|].
      rewrite (W p), (W (p + 1)) by lia.
      replace (c * slot s p + c * slot s (p + 1))
        with (c * (slot s p + slot s (p + 1))) by lia.
      apply scaled_upd_weight; [exact Sc | lia | lia].
Qed.

Lemma spp_loop_scaled c count :
  0 < c ->
  forall s t h tl p s',
    spp_inv s h tl p -> Z.of_nat count = len_of s - 1 - tl ->
    scaled c s t h ->
    spp_loop count (len_of s) h tl p s = Ret (tt, s') ->
    exists t',
      spp_loop count (len_of t) h tl p t = Ret (tt, t') /\
      scaled c s' t' (len_of s - 2).
Proof.
  intros Hc. induction count as [|count IH]; intros s t h tl p s' Inv Hn Sc E.
  - simpl in E. injection E as <-. exists t. split; [reflexivity|].
    destruct Inv as [I1 I2 I3 I4 I5].
    replace (len_of s - 2) with h by lia. exact Sc.
  - simpl in E. simpl spp_loop.
    destruct (spp_body_inv s h tl p Inv ltac:(lia))
      as (s1 & h1 & p1 & E1 & Inv1 & L1 & _).
    rewrite (bind_Ret _ _ _ _ _ E1) in E. cbv beta iota in E.
    destruct (spp_body_scaled c s t h tl p s1 h1 p1 Hc Inv ltac:(lia) Sc E1)
      as (t1 & Et1 & Sc1).
    rewrite (bind_Ret _ _ _ _ _ Et1). cbv beta iota.
    pose proof Sc as (L & _). pose proof Sc1 as (Lt1 & _).
    rewrite <- L1 in E.
    replace (len_of t) with (len_of t1) by lia.
    destruct (IH s1 t1 h1 (tl + 1) p1 s' Inv1 ltac:(lia) Sc1 E)
      as (t' & Et' & Sc').
    exists t'. split; [exact Et'|]. rewrite <- L1. exact Sc'.
Qed.

Lemma slot_map c l st k :
  slot (Buffer (map (Z.mul c) l) st) k = c * slot (Buffer l st) k.
Proof.
  unfold slot. cbn [elems]. rewrite list_lookup_fmap.
  destruct (l !! Z.to_nat k); simpl; lia.
Qed.

(** Pass 1 on the frequencies multiplied by [c] leaves the same pointers,
    and the two weights multiplied by [c]. *)
Lemma setExtendedParentPointers_scaled c l st s' :
  0 < c -> (3 <= length l)%nat ->
  setExtendedParentPointers (Buffer l st) = Ret (tt, s') ->
  exists t',
    setExtendedParentPointers (Buffer (map (Z.mul c) l) st) = Ret (tt, t') /\
    scaled c s' t' (Z.of_nat (length l) - 2).
Proof.
  intros Hc Hn E.
  set (s := Buffer l st) in *. set (t := Buffer (map (Z.mul c) l) st).
  assert (Ls : len_of s = Z.of_nat (length l)) by reflexivity.
  assert (Lt : len_of t = len_of s).
  { unfold len_of, t, s. cbn [elems]. rewrite length_map. reflexivity. }
  assert (Sc : scaled c s t 0).
  { split; [exact Lt|]. split; [reflexivity|]. split; [intros; lia|].
    intros k _. apply slot_map. }
  unfold setExtendedParentPointers in *.
  rewrite run_array_length, run_read, run_read, run_write in E by lia.
  rewrite run_array_length, run_read, run_read, run_write by lia.
  pose proof Sc as (_ & _ & _ & W).
  rewrite (W 0), (W 1) by lia.
  replace (c * slot s 0 + c * slot s 1) with (c * (slot s 0 + slot s 1))
    by lia.
  pose proof (scaled_upd_weight c s t 0 0 (slot s 0 + slot s 1) Sc
                ltac:(lia) ltac:(lia)) as Sc0.
  set (s0 := upd s 0 (slot s 0 + slot s 1)) in *.
  set (t0 := upd t 0 (c * (slot s 0 + slot s 1))) in *.
  assert (L0 : len_of s0 = len_of s) by apply len_of_upd.
  assert (Lt0 : len_of t0 = len_of t) by apply len_of_upd.
  assert (Inv : spp_inv s0 0 1 2).
  { split; rewrite ?L0; try lia. split; intros; lia. }
  rewrite <- L0 in E. rewrite <- Lt0.
  replace (Z.to_nat (len_of t0 - 1 - 1))
    with (Z.to_nat (len_of s0 - 1 - 1)) by lia.
  destruct (spp_loop_scaled c (Z.to_nat (len_of s0 - 1 - 1)) Hc s0 t0 0 1 2
              s' Inv ltac:(lia) Sc0 E) as (t' & Et & Sc').
  exists t'. split; [exact Et|]. rewrite <- Ls, <- L0. exact Sc'.
Qed.

(** ** Passes 2 and 3 read the pointers only *)

Lemma same_above_eq s t nx : same_above s t nx -> nx <= -1 -> t = s.
Proof.
  intros (L & S & A) Hnx.
  assert (E : elems t = elems s).
  { apply list_eq. intros i.
    destruct (Z_lt_le_dec (Z.of_nat i) (len_of s)) as [Hin|Hout].
    - pose proof (slot_lookup s (Z.of_nat i) ltac:(lia)) as Hs.
      pose proof (slot_lookup t (Z.of_nat i) ltac:(lia)) as Ht.
      rewrite Nat2Z.id in Hs, Ht. rewrite Hs, Ht. f_equal. apply A; lia.
    - unfold len_of in *.
      rewrite !(proj2 (lookup_ge_None _ _)) by lia. reflexivity. }
  destruct s, t. simpl in *. congruence.
Qed.

Lemma slot_beyond s k : len_of s <= k -> slot s k = 0.
Proof.
  intros H. unfold slot, len_of in *.
  rewrite (proj2 (lookup_ge_None _ _)) by lia. reflexivity.
Qed.

Lemma same_above_start s t :
  len_of t = len_of s -> stray t = stray s ->
  same_above s t (len_of s - 1).
Proof.
  intros L S. split; [exact L|]. split; [exact S|].
  intros k Hk Hn. rewrite !slot_beyond by lia. reflexivity.
Qed.

(** Two runs of stores on buffers that are the same above [nx]. *)
Lemma write_run_sim count :
  forall nx dp s t nx' s',
    same_above s t nx ->
    write_run count nx dp s = Ret (nx', s') ->
    exists t',
      write_run count nx dp t = Ret (nx', t') /\ same_above s' t' nx'.
Proof.
  induction count as [|count IH]; intros nx dp s t nx' s' Sa E.
  - simpl in E. injection E as <- <-. exists t. split; [reflexivity|exact Sa].
  - simpl write_run in *. pose proof Sa as (L & S & A).
    destruct (Z_lt_le_dec nx 0) as [Hneg|Hpos].
    + rewrite (bind_Ret _ _ _ _ _ (write_below nx dp s Hneg)) in E.
      rewrite (bind_Ret _ _ _ _ _ (write_below nx dp t Hneg)).
      eapply IH; [|exact E].
      split; [exact L|]. split; [simpl; congruence|].
      intros k Hk Hn. apply A; lia.
    + destruct (Z_lt_le_dec nx (len_of s)) as [Hin|Hout].
      * rewrite run_write in E by lia. rewrite run_write by lia.
        eapply IH; [|exact E].
        split; [rewrite !len_of_upd; exact L|]. split; [exact S|].
        intros k Hk Hn. destruct (Z.eq_dec k nx) as [->|Hne].
        -- rewrite !slot_upd_eq by lia. reflexivity.
        -- rewrite !slot_upd_ne by lia. apply A; lia.
      * exfalso. unfold bind, write in E.
        assert (Hb : in_bounds s nx = false) by (apply in_bounds_false; lia).
        rewrite Hb in E.
        destruct (nx <? 0) eqn:En; [apply Z.ltb_lt in En; lia|].
        discriminate.
Qed.

Lemma same_tree_shape s1 t1 :
  tree_shape s1 -> agree s1 t1 (len_of s1 - 3) -> tree_shape t1.
Proof.
  intros [Hn P] Ag. pose proof Ag as [L A].
  split; [lia|]. rewrite L.
  apply (agree_pointers s1 t1 (len_of s1 - 3)); [exact Ag | lia | exact P].
Qed.

Lemma same_tree_low s1 t1 limit nodesToMove :
  agree s1 t1 (len_of s1 - 3) ->
  0 <= nodesToMove -> limit <= len_of s1 - 3 ->
  low t1 limit nodesToMove = low s1 limit nodesToMove.
Proof. intros. apply (low_agree s1 t1 (len_of s1 - 3)); auto. Qed.

Lemma same_tree_natstep s1 t1 G :
  agree s1 t1 (len_of s1 - 3) -> G <= len_of s1 - 2 ->
  natstep t1 G = natstep s1 G.
Proof. intros. unfold natstep. apply same_tree_low; auto; lia. Qed.

Lemma same_tree_natsteps s1 t1 j :
  agree s1 t1 (len_of s1 - 3) ->
  forall G, 0 <= G <= len_of s1 - 2 -> natsteps t1 j G = natsteps s1 j G.
Proof.
  intros Ag. induction j as [|j IH]; intros G HG; [reflexivity|]. simpl.
  rewrite (same_tree_natstep s1 t1 G Ag) by lia.
  apply IH. pose proof (natstep_range s1 G ltac:(lia)). lia.
Qed.

Lemma fntr_loop_same s1 t1 inner maximumLength :
  tree_shape s1 -> fits_int32 s1 -> (Z.to_nat (len_of s1) <= inner)%nat ->
  agree s1 t1 (len_of s1 - 3) ->
  forall fuel currentNode currentDepth r,
    0 <= currentNode <= len_of s1 - 2 ->
    fntr_loop inner fuel maximumLength currentNode currentDepth s1
      = Ret (r, s1) ->
    fntr_loop inner fuel maximumLength currentNode currentDepth t1
      = Ret (r, t1).
Proof.
  intros T F Hin Ag.
  pose proof (same_tree_shape s1 t1 T Ag) as Tt.
  pose proof Ag as [L _].
  assert (Ft : fits_int32 t1) by (unfold fits_int32 in *; lia).
  induction fuel as [|fuel IH]; intros cn cd r Hcn E; [discriminate|].
  simpl fntr_loop in *.
  destruct ((cd <? maximumLength - 1) && (cn >? 1)) eqn:C.
  - apply andb_true_iff in C as [C1 C2]. apply gtb_true in C2.
    rewrite (bind_Ret _ _ _ _ _
               (first_low_tree s1 (cn - 1) 0 inner T F ltac:(lia)
                  ltac:(lia) Hin)) in E.
    rewrite (bind_Ret _ _ _ _ _
               (first_low_tree t1 (cn - 1) 0 inner Tt Ft ltac:(lia)
                  ltac:(lia) ltac:(lia))).
    rewrite (same_tree_low s1 t1 (cn - 1) 0 Ag) by lia.
    apply IH; [|exact E].
    change (low s1 (cn - 1) 0) with (natstep s1 cn).
    pose proof (natstep_range s1 cn ltac:(lia)). lia.
  - injection E as <-. reflexivity.
Qed.

Lemma findNodesToRelocate_same s1 t1 inner maximumLength r :
  tree_shape s1 -> fits_int32 s1 -> (Z.to_nat (len_of s1) <= inner)%nat ->
  agree s1 t1 (len_of s1 - 3) ->
  findNodesToRelocate inner maximumLength s1 = Ret (r, s1) ->
  findNodesToRelocate inner maximumLength t1 = Ret (r, t1).
Proof.
  intros T F Hin Ag E. pose proof (ts_len _ T). pose proof Ag as [L _].
  unfold findNodesToRelocate in *. rewrite run_array_length in *.
  rewrite L. apply (fntr_loop_same s1 t1 inner maximumLength T F Hin Ag).
  - lia.
  - exact E.
Qed.

Lemma anl_loop_same s1 t1 inner maximumLength :
  tree_shape s1 -> fits_int32 s1 -> (Z.to_nat (len_of s1) <= inner)%nat ->
  agree s1 t1 (len_of s1 - 3) ->
  forall fuel s t G nx d a s',
    anl_inv s1 maximumLength s G nx d a ->
    anl_inv t1 maximumLength t G nx d a ->
    same_above s t nx ->
    anl_loop inner fuel G nx d a s = Ret (tt, s') ->
    anl_loop inner fuel G nx d a t = Ret (tt, s').
Proof.
  intros T F Hin Ag.
  pose proof (same_tree_shape s1 t1 T Ag) as Tt.
  pose proof Ag as [L _].
  assert (Ft : fits_int32 t1) by (unfold fits_int32 in *; lia).
  induction fuel as [|fuel IH]; intros s t G nx d a s' Is It Sa E;
    [discriminate|].
  simpl anl_loop in *.
  destruct (a >? 0) eqn:Ea.
  - apply gtb_true in Ea.
    pose proof (ai_first _ _ _ _ _ _ _ Is) as HG.
    rewrite (bind_Ret _ _ _ _ _
               (anl_first s1 maximumLength inner T F Hin
                  s G nx d a Is Ea)) in E.
    rewrite (bind_Ret _ _ _ _ _
               (anl_first t1 maximumLength inner Tt Ft ltac:(lia)
                  t G nx d a It Ea)).
    destruct (anl_step s1 maximumLength inner T F Hin
                s G nx d a Is Ea) as (s2 & Es & Is2).
    destruct (anl_step t1 maximumLength inner Tt Ft ltac:(lia)
                t G nx d a It Ea) as (t2 & Et & It2).
    rewrite (same_tree_natstep s1 t1 G Ag) in * by lia.
    rewrite (bind_Ret _ _ _ _ _ Es) in E.
    rewrite (bind_Ret _ _ _ _ _ Et).
    destruct (write_run_sim _ _ _ _ _ _ _ Sa Es) as (t2' & Et' & Sa2).
    rewrite Et in Et'. injection Et' as <-.
    apply (IH _ _ _ _ _ _ _ Is2 It2 Sa2 E).
  - apply gtb_false in Ea. injection E as <-.
    pose proof (ai_avail _ _ _ _ _ _ _ Is).
    assert (a = 0) by lia. subst a.
    pose proof (ai_done _ _ _ _ _ _ _ Is eq_refl).
    pose proof (ai_count _ _ _ _ _ _ _ Is).
    rewrite (same_above_eq s t nx Sa ltac:(lia)). reflexivity.
Qed.

(** The state the unlimited assigner starts from. *)
Lemma anl_start_inv s1 :
  tree_shape s1 ->
  anl_inv s1 (len_of s1 - 1) s1 (len_of s1 - 2) (len_of s1 - 1) 1 2.
Proof.
  intros T. pose proof (ts_len _ T) as Hn.
  assert (Hreach : natsteps s1 (Z.to_nat (len_of s1 - 1 - 1)) (len_of s1 - 2)
                   = 0).
  { pose proof (natsteps_decrease s1 (Z.to_nat (len_of s1 - 1 - 1)) T
                  (len_of s1 - 2) ltac:(lia)).
    pose proof (natsteps_range s1 (Z.to_nat (len_of s1 - 1 - 1))
                  (len_of s1 - 2) ltac:(lia)).
    lia. }
  split; try lia; try apply agree_refl; try reflexivity;
    try apply tail_ok_start.
  - intros _. exists (len_of s1 - 1). split; [lia|]. split; [lia|].
    intros k Hk. pose proof (tree_parent s1 k T ltac:(lia)). lia.
  - rewrite weight_start.
    replace (len_of s1 - 1) with (len_of s1 - 1 - 1 + 1) at 2 by lia.
    rewrite pow2_succ by lia. lia.
Qed.

(** The unlimited assigner gives the same lengths on two trees with the
    same pointers. *)
Lemma allocateNodeLengths_same s1 t1 inner s' :
  tree_shape s1 -> fits_int32 s1 -> (Z.to_nat (len_of s1) <= inner)%nat ->
  agree s1 t1 (len_of s1 - 3) -> stray t1 = stray s1 ->
  allocateNodeLengths inner s1 = Ret (tt, s') ->
  allocateNodeLengths inner t1 = Ret (tt, s').
Proof.
  intros T F Hin Ag St E. pose proof Ag as [L _].
  unfold allocateNodeLengths in *. rewrite run_array_length in *.
  rewrite L.
  apply (anl_loop_same s1 t1 inner (len_of s1 - 1) T F Hin Ag inner
           s1 t1 _ _ _ _ s'); [apply anl_start_inv; exact T| | |exact E].
  - rewrite <- L. apply anl_start_inv.
    apply (same_tree_shape s1 t1 T Ag).
  - apply same_above_start; assumption.
Qed.

Lemma turn_first_same s1 t1 nodesToMove insertDepth G d :
  tree_shape s1 -> agree s1 t1 (len_of s1 - 3) ->
  0 <= nodesToMove -> nodesToMove <= G <= len_of s1 - 2 ->
  (d < insertDepth -> nodesToMove < G) ->
  turn_first t1 nodesToMove insertDepth G d
  = turn_first s1 nodesToMove insertDepth G d.
Proof.
  intros T Ag Hn HG Hnat. pose proof Ag as [L A]. unfold turn_first.
  destruct (G <=? nodesToMove) eqn:EG.
  - apply Z.leb_le in EG.
    destruct (d >=? insertDepth) eqn:Ed; [reflexivity|].
    apply geb_false in Ed. specialize (Hnat Ed). lia.
  - apply Z.leb_gt in EG.
    rewrite (same_tree_low s1 t1 (G - 1) nodesToMove Ag) by lia.
    destruct (low_spec s1 (G - 1) nodesToMove ltac:(lia)) as (B1 & _ & B3).
    assert (Hlow : low s1 (G - 1) nodesToMove <= G - 1).
    { destruct (Z_le_gt_dec (low s1 (G - 1) nodesToMove) (G - 1))
        as [C|C]; [exact C|].
      specialize (B3 (G - 1) ltac:(lia)).
      pose proof (tree_parent s1 (G - 1) T ltac:(lia)). lia. }
    rewrite (A (low s1 (G - 1) nodesToMove)) by lia. reflexivity.
Qed.

(** The limited assigner on two trees with the same pointers. *)
Lemma anlr_loop_same s1 t1 maximumLength nodesToMove insertDepth inner :
  tree_shape s1 -> fits_int32 s1 -> (Z.to_nat (len_of s1) <= inner)%nat ->
  2 <= nodesToMove <= len_of s1 - 2 ->
  1 <= maximumLength - insertDepth <= 30 ->
  2 ^ (maximumLength - insertDepth - 1) <= nodesToMove - 1
  /\ nodesToMove - 1 < 2 ^ (maximumLength - insertDepth) ->
  2 <= maximumLength ->
  agree s1 t1 (len_of s1 - 3) ->
  forall fuel s t G nx d left a delta delta_t s',
    anlr_inv s1 maximumLength nodesToMove insertDepth s G nx d left a delta ->
    anlr_inv t1 maximumLength nodesToMove insertDepth t G nx d left a
             delta_t ->
    same_above s t nx ->
    anlr_loop inner fuel nodesToMove insertDepth G nx d left a s
      = Ret (tt, s') ->
    anlr_loop inner fuel nodesToMove insertDepth G nx d left a t
      = Ret (tt, s').
Proof.
  intros T F Hin Hntm Hwidth Hpow Hmax Ag.
  pose proof (same_tree_shape s1 t1 T Ag) as Tt.
  pose proof Ag as [L _].
  assert (Ft : fits_int32 t1) by (unfold fits_int32 in *; lia).
  induction fuel as [|fuel IH];
    intros s t G nx d left a delta delta_t s' Is It Sa E; [discriminate|].
  destruct (Z_lt_le_dec 0 a) as [Ha|Ha].
  - destruct (anlr_turn s1 maximumLength nodesToMove insertDepth inner
                T F Hin Hntm Hwidth Hpow Hmax
                fuel s G nx d left a delta Is Ha)
      as (s2 & G' & off & delta' & _ & Er & El & Is2 & _ & _ & EG' & Eoff).
    destruct (anlr_turn t1 maximumLength nodesToMove insertDepth inner
                Tt Ft ltac:(lia) ltac:(lia) Hwidth Hpow Hmax
                fuel t G nx d left a delta_t It Ha)
      as (t2 & Gt & offt & deltat' & _ & Ert & Elt & It2 & _ & _ & EGt
          & Eofft).
    pose proof (ri_first _ _ _ _ _ _ _ _ _ _ _ Is) as HG.
    assert (Hnat : d < insertDepth -> nodesToMove < G).
    { intros C.
      pose proof (natural_facts s1 maximumLength nodesToMove insertDepth
                    inner T Hin Hntm Hwidth Hmax G d left a delta HG C
                    (ri_natural _ _ _ _ _ _ _ _ _ _ _ Is Ha C)).
      lia. }
    rewrite (turn_first_same s1 t1 nodesToMove insertDepth G d T Ag
               ltac:(lia) HG Hnat) in EGt.
    subst Gt offt G' off.
    rewrite El in E. rewrite Elt.
    destruct (write_run_sim _ _ _ _ _ _ _ Sa Er) as (t2' & Et' & Sa2).
    rewrite Ert in Et'. injection Et' as <-.
    apply (IH _ _ _ _ _ _ _ _ _ _ Is2 It2 Sa2 E).
  - pose proof (ri_avail _ _ _ _ _ _ _ _ _ _ _ Is).
    assert (a = 0) by lia. subst a.
    simpl in *. injection E as <-.
    destruct (ri_done _ _ _ _ _ _ _ _ _ _ _ Is eq_refl).
    pose proof (ri_count _ _ _ _ _ _ _ _ _ _ _ Is).
    pose proof (ri_delta _ _ _ _ _ _ _ _ _ _ _ Is).
    rewrite (same_above_eq s t nx Sa ltac:(lia)). reflexivity.
Qed.

Lemma allocateNodeLengthsWithRelocation_same
    s1 t1 maximumLength nodesToMove insertDepth inner s' :
  tree_shape s1 -> fits_int32 s1 -> (Z.to_nat (len_of s1) <= inner)%nat ->
  2 <= nodesToMove <= len_of s1 - 2 -> 0 <= insertDepth ->
  1 <= maximumLength - insertDepth <= 30 ->
  2 ^ (maximumLength - insertDepth - 1) <= nodesToMove - 1
  /\ nodesToMove - 1 < 2 ^ (maximumLength - insertDepth) ->
  len_of s1 <= 2 ^ maximumLength ->
  natsteps s1 (Z.to_nat (maximumLength - 2)) (len_of s1 - 2) = nodesToMove ->
  2 <= maximumLength ->
  agree s1 t1 (len_of s1 - 3) -> stray t1 = stray s1 ->
  allocateNodeLengthsWithRelocation inner nodesToMove insertDepth s1
    = Ret (tt, s') ->
  allocateNodeLengthsWithRelocation inner nodesToMove insertDepth t1
    = Ret (tt, s').
Proof.
  intros T F Hin Hntm Hins Hwidth Hpow Hlong Hreach Hmax Ag St E.
  pose proof (same_tree_shape s1 t1 T Ag) as Tt.
  pose proof Ag as [L _]. pose proof (ts_len _ T) as Hn.
  pose proof (anlr_start_inv s1 maximumLength nodesToMove insertDepth inner
                T Hin Hntm Hins Hwidth Hpow Hlong Hreach Hmax) as Is.
  assert (Hreach' : natsteps t1 (Z.to_nat (maximumLength - 2))
                      (len_of t1 - 2) = nodesToMove).
  { rewrite L, (same_tree_natsteps s1 t1 _ Ag) by lia. exact Hreach. }
  pose proof (anlr_start_inv t1 maximumLength nodesToMove insertDepth inner
                Tt ltac:(lia) ltac:(lia) Hins Hwidth Hpow ltac:(lia)
                Hreach' Hmax) as It.
  unfold allocateNodeLengthsWithRelocation in *.
  rewrite run_array_length in *. rewrite L in *.
  apply (anlr_loop_same s1 t1 maximumLength nodesToMove insertDepth inner
           T F Hin Hntm Hwidth Hpow Hmax Ag inner s1 t1 _ _ _ _ _ _ _ s'
           Is It); [|exact E].
  apply same_above_start; assumption.
Qed.

(** ** The run on frequencies multiplied by a constant *)

Lemma alloc_scaled c l st fuel maximumLength :
  0 < c -> (3 <= length l)%nat -> Z.of_nat (length l) < 2 ^ 30 ->
  Z.of_nat (length l) <= 2 ^ maximumLength -> (length l <= fuel)%nat ->
  exists s',
    allocateHuffmanCodeLengths fuel maximumLength (Buffer l st)
      = Ret (tt, s') /\
    allocateHuffmanCodeLengths fuel maximumLength
      (Buffer (map (Z.mul c) l) st) = Ret (tt, s').
Proof.
  intros Hc Hl Hfit Hlong Hfuel.
  set (s := Buffer l st). set (t := Buffer (map (Z.mul c) l) st).
  assert (Ls : len_of s = Z.of_nat (length l)) by reflexivity.
  assert (Lt : len_of t = len_of s).
  { unfold len_of, t, s. cbn [elems]. rewrite length_map. reflexivity. }
  assert (Hn : 3 <= len_of s) by lia.
  destruct (setExtendedParentPointers_tree s Hn) as (s1 & E1 & T & L1 & S1).
  destruct (setExtendedParentPointers_scaled c l st s1 Hc Hl E1)
    as (t1 & Et1 & (Lt1 & St1 & P & _)).
  fold t in Et1.
  assert (Ag : agree s1 t1 (len_of s1 - 3)).
  { split; [exact Lt1|]. intros k Hk. apply P. lia. }
  assert (Hfit1 : fits_int32 s1) by (unfold fits_int32; lia).
  destruct (findNodesToRelocate_spec s1 fuel maximumLength T Hfit1
              ltac:(lia)) as (j & E2 & Hj1 & Hj2).
  set (r := natsteps s1 j (len_of s1 - 2)) in *.
  pose proof (findNodesToRelocate_same s1 t1 fuel maximumLength r T Hfit1
                ltac:(lia) Ag E2) as Et2.
  rewrite (alloc_three_passes fuel maximumLength s s1 s1 r (slot s1 0)
             Hn E1 E2 (slot_lookup s1 0 ltac:(lia))).
  rewrite (alloc_three_passes fuel maximumLength t t1 t1 r (slot t1 0)
             ltac:(lia) Et1 Et2 (slot_lookup t1 0 ltac:(lia))).
  change (Z.rem (slot s1 0) (len_of s1)) with (parent s1 0).
  change (Z.rem (slot t1 0) (len_of t1)) with (parent t1 0).
  rewrite (agree_parent s1 t1 (len_of s1 - 3) 0 Ag) by lia.
  destruct (parent s1 0 >=? r) eqn:Ec.
  - destruct (allocateNodeLengths_tree s1 fuel T Hfit1 ltac:(lia))
      as (s' & E & _).
    exists s'. split; [exact E|].
    apply (allocateNodeLengths_same s1 t1 fuel s' T Hfit1 ltac:(lia) Ag St1
             E).
  - apply geb_false in Ec.
    destruct (relocation_setting s1 maximumLength j T Hfit1 ltac:(lia)
                Hj1 Hj2 Ec) as (Hmax & Hr & Hins & Hwidth & Hpow & Hreach & _).
    fold r in Hr, Hins, Hwidth, Hpow, Hreach.
    set (ins := maximumLength - fls (r - 1)) in *.
    destruct (allocateNodeLengthsWithRelocation_ok s1 maximumLength r ins
                fuel T Hfit1 ltac:(lia) Hr Hins Hwidth Hpow ltac:(lia)
                Hreach Hmax) as (s' & E & _).
    exists s'. split; [exact E|].
    apply (allocateNodeLengthsWithRelocation_same s1 t1 maximumLength r ins
             fuel s' T Hfit1 ltac:(lia) Hr Hins Hwidth Hpow ltac:(lia)
             Hreach Hmax Ag St1 E).
Qed.

(** * Calls on any arguments, sums in doubles *)

(** ** [first] and [findNodesToRelocate] with reads anywhere *)

Lemma reads_only_ret {A} (a : A) s : reads_only (ret a) s.
Proof. reflexivity. Qed.

Lemma reads_only_bind {A B} (m : M A) (f : A -> M B) s :
  reads_only m s -> (forall a, reads_only (f a) s) ->
  reads_only (bind m f) s.
Proof.
  unfold reads_only, bind. intros Hm Hf.
  destruct (m s) as [[a s']| |]; auto. subst s'. apply Hf.
Qed.

Lemma reads_only_load i s : reads_only (load i) s.
Proof. reflexivity. Qed.

Lemma reads_only_first_gallop_any fuel len limit nodesToMove s :
  forall i k,
    reads_only (first_gallop_any fuel len limit nodesToMove i k) s.
Proof.
  induction fuel as [|fuel IH]; intros i k; simpl; [exact I|].
  destruct (i >=? nodesToMove); [|apply reads_only_ret].
  apply reads_only_bind; [apply reads_only_load|].
  intros x. destruct (beyond x len limit); [apply IH | apply reads_only_ret].
Qed.

Lemma reads_only_first_bisect_any fuel len limit s :
  forall i k, reads_only (first_bisect_any fuel len limit i k) s.
Proof.
  induction fuel as [|fuel IH]; intros i k; simpl; [exact I|].
  destruct (k >? i + 1); [|apply reads_only_ret].
  apply reads_only_bind; [apply reads_only_load|].
  intros x. destruct (beyond x len limit); apply IH.
Qed.

Lemma reads_only_first_any fuel i nodesToMove s :
  reads_only (first_any fuel i nodesToMove) s.
Proof.
  unfold first_any.
  apply reads_only_bind; [reflexivity|]. intros len.
  apply reads_only_bind; [apply reads_only_first_gallop_any|].
  intros [i' k']. apply reads_only_first_bisect_any.
Qed.

Lemma reads_only_fntr_loop_any inner maximumLength s :
  forall fuel currentNode currentDepth,
    reads_only
      (fntr_loop_any inner fuel maximumLength currentNode currentDepth) s.
Proof.
  induction fuel as [|fuel IH]; intros cn cd; simpl; [exact I|].
  destruct ((cd <? maximumLength - 1) && (cn >? 1)); [|apply reads_only_ret].
  apply reads_only_bind; [apply reads_only_first_any|]. intros k. apply IH.
Qed.

Lemma reads_only_findNodesToRelocate_any fuel maximumLength s :
  reads_only (findNodesToRelocate_any fuel maximumLength) s.
Proof.
  unfold findNodesToRelocate_any.
  apply reads_only_bind; [reflexivity|]. intros len.
  apply reads_only_fntr_loop_any.
Qed.

(** Where [read] returns, [load] returns the same value, and the test on
    it is the same. *)
Lemma load_read i s v s' :
  read i s = Ret (v, s') -> load i s = Ret (Some v, s') /\ 0 < len_of s.
Proof.
  intros H. apply read_inv in H as (-> & Hi & Hv).
  unfold load. apply in_bounds_true in Hi as Hb. rewrite Hb, Hv.
  split; [reflexivity | lia].
Qed.

Lemma beyond_some v len limit :
  0 < len -> beyond (Some v) len limit = (Z.rem v len >? limit).
Proof.
  intros H. unfold beyond.
  destruct (len =? 0) eqn:E; [apply Z.eqb_eq in E; lia | reflexivity].
Qed.

Lemma first_gallop_any_agrees fuel limit nodesToMove s r :
  forall i k,
    first_gallop fuel (len_of s) limit nodesToMove i k s = Ret r ->
    first_gallop_any fuel (len_of s) limit nodesToMove i k s = Ret r.
Proof.
  induction fuel as [|fuel IH]; intros i k; [discriminate|].
  cbn [first_gallop first_gallop_any].
  destruct (i >=? nodesToMove); [|auto].
  intros H. destruct r as [r sr].
  apply bind_inv in H as (v & s' & E & H).
  destruct (load_read _ _ _ _ E) as [El Hl].
  apply read_inv in E as (-> & _).
  rewrite (bind_Ret _ _ _ _ _ El), beyond_some by exact Hl.
  destruct (Z.rem v (len_of s) >? limit); [apply IH |]; exact H.
Qed.

Lemma first_bisect_any_agrees fuel limit s r :
  forall i k,
    first_bisect fuel (len_of s) limit i k s = Ret r ->
    first_bisect_any fuel (len_of s) limit i k s = Ret r.
Proof.
  induction fuel as [|fuel IH]; intros i k; [discriminate|].
  cbn [first_bisect first_bisect_any].
  destruct (k >? i + 1); [|auto].
  intros H. destruct r as [r sr].
  apply bind_inv in H as (v & s' & E & H).
  destruct (load_read _ _ _ _ E) as [El Hl].
  apply read_inv in E as (-> & _).
  cbv zeta. rewrite (bind_Ret _ _ _ _ _ El), beyond_some by exact Hl.
  destruct (Z.rem v (len_of s) >? limit); apply IH; exact H.
Qed.

(** A call of [first] that returns is a call of [first_any], and so for
    [findNodesToRelocate]. *)
Lemma first_any_agrees fuel i nodesToMove s r :
  first fuel i nodesToMove s = Ret r ->
  first_any fuel i nodesToMove s = Ret r.
Proof.
  unfold first, first_any. rewrite !run_array_length.
  intros H. destruct r as [r sr].
  apply bind_inv in H as ([i' k'] & s' & E & H).
  assert (s' = s)
    by (eapply unchanged_Ret, E; apply unchanged_first_gallop).
  subst s'.
  rewrite (bind_Ret _ _ _ _ _ (first_gallop_any_agrees _ _ _ _ _ _ _ E)).
  apply first_bisect_any_agrees. exact H.
Qed.

Lemma fntr_loop_any_agrees inner maximumLength s r :
  forall fuel currentNode currentDepth,
    fntr_loop inner fuel maximumLength currentNode currentDepth s = Ret r ->
    fntr_loop_any inner fuel maximumLength currentNode currentDepth s
    = Ret r.
Proof.
  induction fuel as [|fuel IH]; intros cn cd; [discriminate|].
  cbn [fntr_loop fntr_loop_any].
  destruct ((cd <? maximumLength - 1) && (cn >? 1)); [|auto].
  intros H. destruct r as [r sr].
  apply bind_inv in H as (k & s' & E & H).
  assert (s' = s) by (eapply unchanged_Ret, E; apply unchanged_first).
  subst s'. rewrite (bind_Ret _ _ _ _ _ (first_any_agrees _ _ _ _ _ E)).
  apply IH. exact H.
Qed.

Lemma findNodesToRelocate_any_agrees fuel maximumLength s r :
  findNodesToRelocate fuel maximumLength s = Ret r ->
  findNodesToRelocate_any fuel maximumLength s = Ret r.
Proof.
  unfold findNodesToRelocate, findNodesToRelocate_any.
  rewrite !run_array_length. apply fntr_loop_any_agrees.
Qed.

(** ** The two functions return *)

Lemma run_load {B} i (f : option Z -> M B) s :
  exists x, bind (load i) f s = f x s.
Proof. eexists. reflexivity. Qed.

Lemma sar_half x : - 2 ^ 31 <= x < 2 ^ 31 -> sar x 1 = x / 2.
Proof.
  intros H. unfold sar. rewrite toInt32_small by lia.
  change (1 mod 32) with 1. rewrite Z.shiftr_div_pow2 by lia.
  reflexivity.
Qed.

Lemma pow2_nat_succ (f : nat) : 2 ^ Z.of_nat (S f) = 2 * 2 ^ Z.of_nat f.
Proof.
  replace (Z.of_nat (S f)) with (Z.of_nat f + 1) by lia.
  rewrite Z.pow_add_r by lia. change (2 ^ 1) with 2. lia.
Qed.

(** The galloping loop doubles its stride: [fuel] turns carry it over
    [2 ^ fuel - 1] indices. *)
Lemma first_gallop_any_returns s len limit nodesToMove fuel :
  forall i k,
    i <= limit ->
    i - nodesToMove < (limit - i + 1) * (2 ^ Z.of_nat fuel - 1) ->
    exists i' k',
      first_gallop_any (S fuel) len limit nodesToMove i k s
        = Ret ((i', k'), s) /\
      (k' = k \/ k' <= limit).
Proof.
  induction fuel as [|fuel IH]; intros i k Hi Hf.
  - change (2 ^ Z.of_nat 0) with 1 in Hf.
    cbn [first_gallop_any].
    destruct (i >=? nodesToMove) eqn:E; [apply geb_true in E; lia|].
    exists i, k. split; [reflexivity | auto].
  - remember (S fuel) as fuel1 eqn:Ef. cbn [first_gallop_any].
    destruct (i >=? nodesToMove) eqn:E.
    + destruct (run_load i
                  (fun x =>
                     if beyond x len limit
                     then first_gallop_any fuel1 len limit nodesToMove
                            (i - (limit - i + 1)) i
                     else ret (i, k)) s) as [x ->].
      destruct (beyond x len limit).
      * subst fuel1. apply geb_true in E.
        rewrite pow2_nat_succ in Hf.
        destruct (IH (i - (limit - i + 1)) i ltac:(lia) ltac:(nia))
          as (i' & k' & E' & Hk).
        exists i', k'. split; [exact E'|]. right. lia.
      * exists i, k. split; [reflexivity | auto].
    + exists i, k. split; [reflexivity | auto].
Qed.

(** The bisection halves the distance from [i] to [k]. *)
Lemma first_bisect_any_returns s len limit fuel :
  forall i k,
    - 2 ^ 30 - 1 <= i -> k <= 2 ^ 30 -> k - i <= 2 ^ Z.of_nat fuel ->
    exists r,
      first_bisect_any (S fuel) len limit i k s = Ret (r, s) /\ r <= k.
Proof.
  induction fuel as [|fuel IH]; intros i k Hi Hk Hf.
  - change (2 ^ Z.of_nat 0) with 1 in Hf. cbn [first_bisect_any].
    destruct (k >? i + 1) eqn:E; [apply gtb_true in E; lia|].
    exists k. split; [reflexivity | lia].
  - remember (S fuel) as fuel1 eqn:Ef. cbn [first_bisect_any].
    destruct (k >? i + 1) eqn:E.
    + apply gtb_true in E. cbv zeta. rewrite sar_half by lia.
      assert (Hm : i < (i + k) / 2 < k /\ 2 * ((i + k) / 2) <= i + k
                   /\ i + k <= 2 * ((i + k) / 2) + 1).
      { pose proof (Z.div_mod (i + k) 2 ltac:(lia)).
        pose proof (Z.mod_pos_bound (i + k) 2 ltac:(lia)). lia. }
      set (temp := (i + k) / 2) in *.
      destruct (run_load temp
                  (fun x =>
                     if beyond x len limit
                     then first_bisect_any fuel1 len limit i temp
                     else first_bisect_any fuel1 len limit temp k) s)
        as [x ->].
      subst fuel1. rewrite pow2_nat_succ in Hf.
      destruct (beyond x len limit).
      * destruct (IH i temp ltac:(lia) ltac:(lia) ltac:(lia))
          as (r & E' & Hr).
        exists r. split; [exact E' | lia].
      * destruct (IH temp k ltac:(lia) ltac:(lia) ltac:(lia))
          as (r & E' & Hr).
        exists r. split; [exact E' | lia].
    + exists k. split; [reflexivity | lia].
Qed.

Lemma pow2_nat_le (a b : nat) :
  (a <= b)%nat -> 2 ^ Z.of_nat a <= 2 ^ Z.of_nat b.
Proof. intros H. apply Z.pow_le_mono_r; lia. Qed.

Lemma load_beyond_end s i : len_of s <= i -> load i s = Ret (None, s).
Proof.
  intros H. unfold load.
  assert (Hb : in_bounds s i = false) by (apply in_bounds_false; lia).
  rewrite Hb.
  assert (Hn : 0 <= len_of s) by (unfold len_of; lia).
  destruct (i <? 0) eqn:E; [apply Z.ltb_lt in E; lia | reflexivity].
Qed.

(** With [33] turns for each loop, [first_any] returns on every buffer of
    fewer than [2^30] slots for every [i], as long as [nodesToMove] is not
    below [-2^30]: then no sum of two indices leaves the 32-bit
    integers. *)
Lemma first_any_returns s fuel i nodesToMove :
  fits_int32 s -> (33 <= fuel)%nat -> - 2 ^ 30 <= nodesToMove ->
  exists k,
    first_any fuel i nodesToMove s = Ret (k, s) /\
    k <= Z.max (len_of s - 2) i.
Proof.
  unfold fits_int32. intros Hfit Hfuel Hn.
  destruct fuel as [|fuel]; [lia|].
  assert (Hp : 2 ^ 32 <= 2 ^ Z.of_nat fuel).
  { change 32 with (Z.of_nat 32). apply pow2_nat_le. lia. }
  unfold first_any. rewrite run_array_length.
  destruct (Z_lt_le_dec i (len_of s)) as [Hi|Hi].
  - (* [i] lies in the buffer or below it *)
    destruct (first_gallop_any_returns s (len_of s) i nodesToMove fuel
                i (len_of s - 2) ltac:(lia) ltac:(lia))
      as (i' & k' & E & Hk).
    rewrite (bind_Ret _ _ _ _ _ E). cbv beta iota zeta.
    destruct (Z_le_gt_dec k' (Z.max (nodesToMove - 1) i' + 1)) as [C|C].
    + destruct fuel; [simpl in Hp; lia|]. cbn [first_bisect_any].
      destruct (k' >? Z.max (nodesToMove - 1) i' + 1) eqn:E2;
        [apply gtb_true in E2; lia|].
      exists k'. split; [reflexivity | lia].
    + destruct (first_bisect_any_returns s (len_of s) i fuel
                  (Z.max (nodesToMove - 1) i') k'
                  ltac:(lia) ltac:(lia) ltac:(lia)) as (r & E' & Hr).
      exists r. split; [exact E' | lia].
  - (* [i] lies beyond the buffer: [array[i]] is [undefined] *)
    cbn [first_gallop_any].
    assert (E : (if i >=? nodesToMove
                 then bind (load i)
                        (fun x =>
                           if beyond x (len_of s) i
                           then first_gallop_any fuel (len_of s) i
                                  nodesToMove (i - (i - i + 1)) i
                           else ret (i, len_of s - 2))
                 else ret (i, len_of s - 2)) s
                = Ret ((i, len_of s - 2), s)).
    { destruct (i >=? nodesToMove); [|reflexivity].
      rewrite (bind_Ret _ _ _ _ _ (load_beyond_end s i Hi)). reflexivity. }
    rewrite (bind_Ret _ _ _ _ _ E). cbv beta iota zeta.
    destruct fuel; [simpl in Hp; lia|]. cbn [first_bisect_any].
    destruct (len_of s - 2 >? Z.max (nodesToMove - 1) i + 1) eqn:E2;
      [apply gtb_true in E2; lia|].
    exists (len_of s - 2). split; [reflexivity | lia].
Qed.

Lemma fntr_loop_any_returns s inner maximumLength :
  fits_int32 s -> (33 <= inner)%nat ->
  forall fuel currentNode currentDepth,
    currentNode <= len_of s - 2 ->
    maximumLength - 1 - currentDepth < Z.of_nat fuel -> (1 <= fuel)%nat ->
    exists r,
      fntr_loop_any inner fuel maximumLength currentNode currentDepth s
      = Ret (r, s).
Proof.
  intros Hfit Hin.
  induction fuel as [|fuel IH]; intros cn cd Hcn Hf H1; [lia|].
  cbn [fntr_loop_any].
  destruct ((cd <? maximumLength - 1) && (cn >? 1)) eqn:E.
  - apply andb_true_iff in E as [E1 E2].
    apply Z.ltb_lt in E1. apply gtb_true in E2.
    unfold fits_int32 in Hfit.
    destruct (first_any_returns s inner (cn - 1) 0 Hfit Hin ltac:(lia))
      as (k & Ek & Hk).
    rewrite (bind_Ret _ _ _ _ _ Ek).
    apply IH; lia.
  - exists cn. reflexivity.
Qed.

(** [findNodesToRelocate_any] takes [maximumLength - 2] turns at most. *)
Lemma findNodesToRelocate_any_returns s fuel maximumLength :
  fits_int32 s -> (33 <= fuel)%nat -> maximumLength - 2 < Z.of_nat fuel ->
  exists r, findNodesToRelocate_any fuel maximumLength s = Ret (r, s).
Proof.
  intros Hfit Hfuel Hm. unfold findNodesToRelocate_any.
  rewrite run_array_length.
  apply fntr_loop_any_returns; auto; lia.
Qed.

(** Where a sum of two indices leaves the 32-bit integers, [first] need
    not return: on six slots the bisection from [5 - 2^32] stays at
    [k = 4] for ever. *)
Lemma first_any_wraps fuel :
  first_any fuel (5 - 2 ^ 32) (5 - 2 ^ 32) (of_list [1; 1; 1; 1; 1; 1])
  = OutOfFuel.
Proof.
  destruct fuel as [|fuel]; [reflexivity|].
  unfold first_any. rewrite run_array_length.
  change (bind (first_gallop_any (S fuel) _ _ _ _ _) _ _)
    with (first_bisect_any (S fuel) 6 (5 - 2 ^ 32) (5 - 2 ^ 32) 4
            (of_list [1; 1; 1; 1; 1; 1])).
  generalize (S fuel) as m. clear fuel.
  induction m as [|m IH]; [reflexivity|]. exact IH.
Qed.

(** ** Pass 1 with sums in doubles *)

Lemma round_double_exact x : Z.abs x <= 2 ^ 53 -> round_double x = x.
Proof.
  intros H. unfold round_double.
  destruct (Z.eq_dec (Z.abs x) (2 ^ 53)) as [E|E].
  - rewrite E. change (Z.log2 (2 ^ 53) - 52 <=? 0) with false.
    cbv iota zeta.
    change (2 ^ (Z.log2 (2 ^ 53) - 52)) with 2.
    change (2 ^ 53 mod 2) with 0. change (2 ^ 53 / 2) with (2 ^ 52).
    change (2 * 0 <? 2) with true. cbv iota.
    change (2 ^ 52 * 2) with (2 ^ 53). rewrite <- E.
    rewrite Z.mul_comm. apply Z.abs_sgn.
  - assert (Hl : Z.log2 (Z.abs x) < 53).
    { destruct (Z.eq_dec (Z.abs x) 0) as [->|Hz]; [reflexivity|].
      apply Z.log2_lt_pow2; lia. }
    destruct (Z.log2 (Z.abs x) - 52 <=? 0) eqn:El; [reflexivity|].
    apply Z.leb_gt in El. lia.
Qed.

(** The addition of the doubles is exact up to [2^53]. *)
Lemma double_add_exact : adds_exactly double_add.
Proof.
  intros x y Hx Hy H. unfold double_add. apply round_double_exact. lia.
Qed.

Lemma range_sum_nonneg s a b :
  (forall k, a <= k < b -> 0 <= slot s k) -> 0 <= range_sum s a b.
Proof.
  intros H. unfold range_sum.
  assert (G : forall count a,
            (forall k, a <= k < a + Z.of_nat count -> 0 <= slot s k) ->
            0 <= slots_sum s a count).
  { clear. induction count as [|count IH]; intros a H; [simpl; lia|].
    cbn [slots_sum]. pose proof (H a ltac:(lia)).
    pose proof (IH (a + 1) ltac:(intros k Hk; apply H; lia)). lia. }
  apply G. intros k Hk. apply H. lia.
Qed.

Lemma spp_pick2_with_internal plus s temp h t p :
  0 <= h < len_of s ->
  (p >=? len_of s) || ((h <? t) && (slot s h <? slot s p)) = true ->
  (p < len_of s -> 0 <= p) ->
  spp_pick2_with plus (len_of s) temp h t p s
  = Ret ((plus temp (slot s h), h + 1, p), upd s h (t + len_of s)).
Proof.
  intros Hh Hc Hp. unfold spp_pick2_with, spp_test2.
  destruct (p >=? len_of s) eqn:E.
  - rewrite run_ret, run_read, run_write by lia. reflexivity.
  - simpl in Hc. apply andb_true_iff in Hc as [Hc1 Hc2]. rewrite Hc1.
    apply geb_false in E.
    rewrite run_bind, run_read by lia.
    rewrite run_bind, run_read by lia.
    rewrite run_ret, Hc2, run_read, run_write by lia. reflexivity.
Qed.

Lemma spp_pick2_with_leaf plus s temp h t p :
  0 <= h < len_of s ->
  (p >=? len_of s) || ((h <? t) && (slot s h <? slot s p)) = false ->
  0 <= p ->
  spp_pick2_with plus (len_of s) temp h t p s
  = Ret ((plus temp (slot s p), h, p + 1), s).
Proof.
  intros Hh Hc Hp. unfold spp_pick2_with, spp_test2.
  apply orb_false_iff in Hc as [E Hc]. rewrite E.
  apply geb_false in E.
  destruct (h <? t) eqn:Eh; simpl in Hc.
  - rewrite run_bind, run_read by lia.
    rewrite run_bind, run_read by lia.
    rewrite run_ret, Hc, run_read by lia. reflexivity.
  - rewrite run_ret, run_read by lia. reflexivity.
Qed.

(** One turn of pass 1 adds two weights of the queues: its sum is exact,
    and the weights of the queues stay what they were in total. *)
Lemma spp_body_with_exact plus s h t p :
  adds_exactly plus -> spp_inv s h t p -> t <= len_of s - 2 ->
  live_weights s h t p ->
  exists s' h' p',
    spp_body_with plus (len_of s) h t p s = Ret ((h', p'), s') /\
    spp_body (len_of s) h t p s = Ret ((h', p'), s') /\
    live_weights s' h' (t + 1) p'.
Proof.
  intros Hplus Inv Ht [N B].
  destruct (spp_body_inv s h t p Inv Ht) as (s1 & h1 & p1 & E1 & Inv1 & L1 & _).
  destruct (spp_body_weight s h t p Inv Ht)
    as (s1' & h1' & p1' & E1' & Keep & Cases).
  rewrite E1 in E1'. injection E1' as <- <- <-.
  exists s1, h1, p1.
  destruct Inv as [I1 I2 I3 I4 I5]. destruct Inv1 as [J1 J2 J3 J4 J5].
  assert (Rh : forall a, h <= a -> 0 <= range_sum s a t).
  { intros a Ha. apply range_sum_nonneg. intros k Hk. apply N. lia. }
  assert (Rp : forall a, p <= a -> 0 <= range_sum s a (len_of s)).
  { intros a Ha. apply range_sum_nonneg. intros k Hk. apply N. lia. }
  assert (Sum : slot s1 t <= 2 ^ 53 /\ 0 <= slot s1 t /\
                range_sum s1 h1 (t + 1) + range_sum s1 p1 (len_of s1)
                = range_sum s h t + range_sum s p (len_of s)).
  { rewrite L1. rewrite range_sum_last by lia.
    rewrite (range_sum_ext s s1 h1 t) by (intros; apply Keep; lia).
    rewrite (range_sum_ext s s1 p1 (len_of s)) by (intros; apply Keep; lia).
    destruct Cases as [(-> & -> & Ws)|[(-> & -> & Ws)|(-> & -> & Ws)]];
      rewrite Ws.
    - pose proof (N h ltac:(lia)). pose proof (N (h + 1) ltac:(lia)).
      pose proof (Rh (h + 2) ltac:(lia)). pose proof (Rp p ltac:(lia)).
      rewrite (range_sum_head s h t), (range_sum_head s (h + 1) t) in *
        by lia.
      replace (h + 1 + 1) with (h + 2) in * by lia. lia.
    - pose proof (N h ltac:(lia)). pose proof (N p ltac:(lia)).
      pose proof (Rh (h + 1) ltac:(lia)). pose proof (Rp (p + 1) ltac:(lia)).
      rewrite (range_sum_head s h t) in * by lia.
      rewrite (range_sum_head s p) in * by lia. lia.
    - pose proof (N p ltac:(lia)). pose proof (N (p + 1) ltac:(lia)).
      pose proof (Rh h ltac:(lia)). pose proof (Rp (p + 2) ltac:(lia)).
      rewrite (range_sum_head s p), (range_sum_head s (p + 1)) in * by lia.
      replace (p + 1 + 1) with (p + 2) in * by lia. lia. }
  destruct Sum as (S1 & S2 & S3).
  split; [|split; [exact E1|]].
  - (* the run with [plus] *)
    clear J5 I5. unfold spp_body in E1. unfold spp_body_with.
    destruct ((p >=? len_of s) || (slot s h <? slot s p)) eqn:C1.
    + rewrite (bind_Ret _ _ _ _ _
                 (spp_pick1_internal s h t p ltac:(lia) C1 ltac:(lia)))
        in E1.
      rewrite (bind_Ret _ _ _ _ _
                 (spp_pick1_internal s h t p ltac:(lia) C1 ltac:(lia))).
      set (s0 := upd s h t) in *.
      assert (L0 : len_of s0 = len_of s) by apply len_of_upd.
      cbv beta iota in E1. cbv beta iota. rewrite <- L0 in E1 |- *.
      destruct ((p >=? len_of s0)
                || ((h + 1 <? t) && (slot s0 (h + 1) <? slot s0 p))) eqn:C2.
      * assert (Hh1 : h + 1 < t).
        { apply orb_true_iff in C2 as [C2|C2].
          - apply geb_true in C2. lia.
          - apply andb_true_iff in C2 as [C2 _]. apply Z.ltb_lt in C2. lia. }
        rewrite (bind_Ret _ _ _ _ _
                   (spp_pick2_internal s0 (slot s h) (h + 1) t p
                      ltac:(lia) C2 ltac:(lia))) in E1.
        rewrite (bind_Ret _ _ _ _ _
                   (spp_pick2_with_internal plus s0 (slot s h) (h + 1) t p
                      ltac:(lia) C2 ltac:(lia))).
        cbv beta iota in E1. cbv beta iota.
        rewrite run_write in E1 by (rewrite len_of_upd; lia).
        rewrite run_write by (rewrite len_of_upd; lia).
        injection E1 as <- <- <-.
        rewrite slot_upd_eq in S1, S2 by (rewrite len_of_upd; lia).
        assert (0 <= slot s0 (h + 1)).
        { unfold s0. rewrite slot_upd_ne by lia. apply N. lia. }
        rewrite Hplus; [reflexivity | apply N; lia | lia | lia].
      * assert (Hp : p < len_of s0).
        { apply orb_false_iff in C2 as [C2 _]. apply geb_false in C2. lia. }
        rewrite (bind_Ret _ _ _ _ _
                   (spp_pick2_leaf s0 (slot s h) (h + 1) t p
                      ltac:(lia) C2 ltac:(lia))) in E1.
        rewrite (bind_Ret _ _ _ _ _
                   (spp_pick2_with_leaf plus s0 (slot s h) (h + 1) t p
                      ltac:(lia) C2 ltac:(lia))).
        cbv beta iota in E1. cbv beta iota.
        rewrite run_write in E1 by lia. rewrite run_write by lia.
        injection E1 as <- <- <-.
        rewrite slot_upd_eq in S1, S2 by lia.
        assert (0 <= slot s0 p).
        { unfold s0. rewrite slot_upd_ne by lia. apply N. lia. }
        rewrite Hplus; [reflexivity | apply N; lia | lia | lia].
    + assert (Hp : p < len_of s).
      { apply orb_false_iff in C1 as [C1 _]. apply geb_false in C1. lia. }
      rewrite (bind_Ret _ _ _ _ _
                 (spp_pick1_leaf s h t p ltac:(lia) C1 ltac:(lia))) in E1.
      rewrite (bind_Ret _ _ _ _ _
                 (spp_pick1_leaf s h t p ltac:(lia) C1 ltac:(lia))).
      cbv beta iota in E1. cbv beta iota.
      destruct ((p + 1 >=? len_of s)
                || ((h <? t) && (slot s h <? slot s (p + 1)))) eqn:C2.
      * rewrite (bind_Ret _ _ _ _ _
                   (spp_pick2_internal s (slot s p) h t (p + 1)
                      ltac:(lia) C2 ltac:(lia))) in E1.
        rewrite (bind_Ret _ _ _ _ _
                   (spp_pick2_with_internal plus s (slot s p) h t (p + 1)
                      ltac:(lia) C2 ltac:(lia))).
        cbv beta iota in E1. cbv beta iota.
        rewrite run_write in E1 by (rewrite len_of_upd; lia).
        rewrite run_write by (rewrite len_of_upd; lia).
        injection E1 as <- <- <-.
        rewrite slot_upd_eq in S1, S2 by (rewrite len_of_upd; lia).
        rewrite Hplus; [reflexivity | apply N; lia | apply N; lia | lia].
      * assert (Hp1 : p + 1 < len_of s).
        { apply orb_false_iff in C2 as [C2 _]. apply geb_false in C2. lia. }
        rewrite (bind_Ret _ _ _ _ _
                   (spp_pick2_leaf s (slot s p) h t (p + 1)
                      ltac:(lia) C2 ltac:(lia))) in E1.
        rewrite (bind_Ret _ _ _ _ _
                   (spp_pick2_with_leaf plus s (slot s p) h t (p + 1)
                      ltac:(lia) C2 ltac:(lia))).
        cbv beta iota in E1. cbv beta iota.
        rewrite run_write in E1 by lia. rewrite run_write by lia.
        injection E1 as <- <- <-.
        rewrite slot_upd_eq in S1, S2 by lia.
        rewrite Hplus; [reflexivity | apply N; lia | apply N; lia | lia].
  - (* the queues after the turn *)
    split; [|lia].
    intros k Hk. destruct (Z.eq_dec k t) as [->|Hne]; [exact S2|].
    rewrite Keep by lia. apply N. lia.
Qed.

Lemma spp_loop_with_exact plus count :
  adds_exactly plus ->
  forall s h t p,
    spp_inv s h t p -> Z.of_nat count = len_of s - 1 - t ->
    live_weights s h t p ->
    spp_loop_with plus count (len_of s) h t p s
    = spp_loop count (len_of s) h t p s.
Proof.
  intros Hplus. induction count as [|count IH]; intros s h t p Inv Hc Lw.
  - reflexivity.
  - cbn [spp_loop_with spp_loop].
    destruct (spp_body_with_exact plus s h t p Hplus Inv ltac:(lia) Lw)
      as (s1 & h1 & p1 & Ew & E & Lw1).
    destruct (spp_body_inv s h t p Inv ltac:(lia))
      as (s1' & h1' & p1' & E' & Inv1 & L1 & _).
    rewrite E in E'. injection E' as <- <- <-.
    rewrite (bind_Ret _ _ _ _ _ Ew), (bind_Ret _ _ _ _ _ E).
    cbv beta iota. rewrite <- L1. apply IH; auto. lia.
Qed.

Lemma slot_nonneg l st k :
  Forall (fun x => 0 <= x) l -> 0 <= slot (Buffer l st) k.
Proof.
  intros H. unfold slot. cbn [elems].
  destruct (l !! Z.to_nat k) eqn:E; simpl; [|lia].
  rewrite Forall_lookup in H. apply (H _ _ E).
Qed.

(** On frequencies that are not negative and add up to [2^53] at most,
    every sum of pass 1 is exact. *)
Lemma setExtendedParentPointers_with_exact plus l st :
  adds_exactly plus -> (3 <= length l)%nat ->
  Forall (fun x => 0 <= x) l -> total l <= 2 ^ 53 ->
  setExtendedParentPointers_with plus (Buffer l st)
  = setExtendedParentPointers (Buffer l st).
Proof.
  intros Hplus Hn Hl Ht. set (s := Buffer l st).
  assert (Ls : len_of s = Z.of_nat (length l)) by reflexivity.
  assert (N : forall k, 0 <= slot s k) by (intros k; apply slot_nonneg, Hl).
  assert (W : slot s 0 + slot s 1 + range_sum s 2 (len_of s) = total l).
  { rewrite <- (range_sum_total l st). fold s. rewrite <- Ls.
    rewrite (range_sum_head s 0), (range_sum_head s (0 + 1)) by lia.
    change (0 + 1 + 1) with 2. change (0 + 1) with 1. lia. }
  assert (R : 0 <= range_sum s 2 (len_of s))
    by (apply range_sum_nonneg; intros; apply N).
  unfold setExtendedParentPointers_with, setExtendedParentPointers.
  rewrite !run_array_length, !run_read, !run_write by lia.
  pose proof (N 0). pose proof (N 1).
  rewrite Hplus by lia.
  set (s0 := upd s 0 (slot s 0 + slot s 1)).
  assert (L0 : len_of s0 = len_of s) by apply len_of_upd.
  assert (Inv : spp_inv s0 0 1 2).
  { split; rewrite ?L0; try lia. split; intros; lia. }
  rewrite <- L0. apply spp_loop_with_exact; [exact Hplus | exact Inv | lia |].
  split.
  - intros k Hk. destruct (Z.eq_dec k 0) as [->|Hne].
    + unfold s0. rewrite slot_upd_eq by lia. lia.
    + unfold s0. rewrite slot_upd_ne by lia. apply N.
  - replace 1 with (0 + 1) at 1 by lia.
    rewrite range_sum_last, range_sum_empty by lia.
    unfold s0 at 1. rewrite slot_upd_eq by lia.
    rewrite L0.
    rewrite (range_sum_ext s s0 2 (len_of s))
      by (intros; unfold s0; apply slot_upd_ne; lia).
    lia.
Qed.

Lemma alloc_with_exact plus l st fuel maximumLength :
  adds_exactly plus -> Forall (fun x => 0 <= x) l -> total l <= 2 ^ 53 ->
  allocateHuffmanCodeLengths_with plus fuel maximumLength (Buffer l st)
  = allocateHuffmanCodeLengths fuel maximumLength (Buffer l st).
Proof.
  intros Hplus Hl Ht.
  unfold allocateHuffmanCodeLengths_with, allocateHuffmanCodeLengths.
  rewrite !run_array_length.
  destruct (len_of (Buffer l st) =? 2) eqn:E2; [reflexivity|].
  destruct (len_of (Buffer l st) =? 1) eqn:E1; [reflexivity|].
  destruct (Z_lt_le_dec (len_of (Buffer l st)) 3) as [C|C].
  - assert (E0 : l = []).
    { apply Z.eqb_neq in E1, E2. unfold len_of in *. cbn [elems] in *.
      destruct l; [reflexivity | simpl in *; lia]. }
    subst l. reflexivity.
  - unfold bind at 1 3.
    rewrite setExtendedParentPointers_with_exact; auto.
    unfold len_of in C. cbn [elems] in C. lia.
Qed.

Lemma total_map c l : total (map (Z.mul c) l) = c * total l.
Proof. induction l as [|x l IH]; simpl; [lia | rewrite IH; lia]. Qed.

Lemma total_nonneg l : Forall (fun x => 0 <= x) l -> 0 <= total l.
Proof.
  induction 1 as [|x l Hx _ IH]; simpl; lia.
Qed.

Lemma nonneg_map c l :
  0 < c -> Forall (fun x => 0 <= x) l ->
  Forall (fun x => 0 <= x) (map (Z.mul c) l).
Proof.
  intros Hc H. induction H as [|x l Hx _ IH]; simpl; constructor;
    [nia | exact IH].
Qed.

(** With the exact addition the two models of pass 1 are one. *)
Lemma spp_loop_with_add count :
  forall len h t p s,
    spp_loop_with Z.add count len h t p s = spp_loop count len h t p s.
Proof.
  induction count as [|count IH]; intros len h t p s; [reflexivity|].
  cbn [spp_loop_with spp_loop].
  change (spp_body_with Z.add len h t p) with (spp_body len h t p).
  unfold bind. destruct (spp_body len h t p s) as [[[h' p'] s']| |]; auto.
Qed.

Lemma setExtendedParentPointers_with_add s :
  setExtendedParentPointers_with Z.add s = setExtendedParentPointers s.
Proof.
  unfold setExtendedParentPointers_with, setExtendedParentPointers, bind.
  destruct (array_length s) as [[len s0]| |]; auto.
  destruct (read 0 s0) as [[a0 s1]| |]; auto.
  destruct (read 1 s1) as [[a1 s2]| |]; auto.
  destruct (write 0 (a0 + a1) s2) as [[[] s3]| |]; auto.
  apply spp_loop_with_add.
Qed.

Lemma allocateHuffmanCodeLengths_with_add fuel maximumLength s :
  allocateHuffmanCodeLengths_with Z.add fuel maximumLength s
  = allocateHuffmanCodeLengths fuel maximumLength s.
Proof.
  unfold allocateHuffmanCodeLengths_with, allocateHuffmanCodeLengths.
  rewrite !run_array_length.
  destruct (len_of s =? 2); [reflexivity|].
  destruct (len_of s =? 1); [reflexivity|].
  unfold bind at 1 3. rewrite setExtendedParentPointers_with_add.
  reflexivity.
Qed.

(** Beyond [2^53] the sums are rounded: the root of [[2^53; 1; 1]] holds
    [2^53], and multiplying four frequencies by [3] changes the tree. *)
Lemma setExtendedParentPointers_rounds :
  setExtendedParentPointers_with double_add (of_list [2 ^ 53; 1; 1])
    = Ret (tt, of_list [4; 2 ^ 53; 1]) /\
  setExtendedParentPointers (of_list [2 ^ 53; 1; 1])
    = Ret (tt, of_list [4; 2 ^ 53 + 2; 1]).
Proof. split; vm_compute; reflexivity. Qed.

Lemma scaling_rounds :
  allocateHuffmanCodeLengths_with double_add 4 3
    (of_list [3; 2 ^ 53; 2 ^ 53 + 4; 2 ^ 53 + 4])
    = Ret (tt, of_list [2; 2; 2; 2]) /\
  allocateHuffmanCodeLengths_with double_add 4 3
    (of_list (map (Z.mul 3) [3; 2 ^ 53; 2 ^ 53 + 4; 2 ^ 53 + 4]))
    = Ret (tt, of_list [3; 3; 2; 1]).
Proof. split; vm_compute; reflexivity. Qed.

(** * The statements *)

(** ** Degenerate sizes *)

(** C6.  A buffer of one slot becomes [[1]] and a buffer of two slots
    becomes [[1; 1]], whatever the frequencies and the maximum length, and
    whatever the fuel, [0] too: no loop of the three passes runs. *)
Theorem trivial_sizes
    (fuel : nat) (maximumLength x y : Z) (st : list (Z * Z)) :
  allocateHuffmanCodeLengths fuel maximumLength (Buffer [x] st)
    = Ret (tt, Buffer [1] st) /\
  allocateHuffmanCodeLengths fuel maximumLength (Buffer [x; y] st)
    = Ret (tt, Buffer [1; 1] st).
Proof. split; reflexivity. Qed.

Lemma alloc_small_any_fuel fuel fuel' m m' s :
  len_of s = 1 \/ len_of s = 2 ->
  allocateHuffmanCodeLengths fuel m s = allocateHuffmanCodeLengths fuel' m' s.
Proof.
  intros H. unfold allocateHuffmanCodeLengths, bind, array_length.
  destruct H as [-> | ->]; reflexivity.
Qed.

(** C9.  On a buffer of one or two slots the result does not depend on the
    maximum length. *)
Theorem small_sizes_ignore_maximumLength
    (fuel : nat) (maximumLength1 maximumLength2 : Z) (s : buffer) :
  len_of s = 1 \/ len_of s = 2 ->
  allocateHuffmanCodeLengths fuel maximumLength1 s
  = allocateHuffmanCodeLengths fuel maximumLength2 s.
Proof. apply alloc_small_any_fuel. Qed.

Lemma small_sizes_ignore_maximumLength_witness :
  allocateHuffmanCodeLengths 3 0 (of_list [7; 9])
  = allocateHuffmanCodeLengths 3 15 (of_list [7; 9]).
Proof.
  apply (small_sizes_ignore_maximumLength 3 0 15 (of_list [7; 9])).
  right. reflexivity.
Defined.

(** ** The start of the limited assigner *)

(** C10.  With [insertDepth = 1] the level walk starts at depth 2 with four
    available nodes and [nodesToMove - 2] nodes left to move; with
    [insertDepth >= 2] it starts at depth 1 with two available nodes and
    [nodesToMove] nodes left to move. *)
Theorem relocation_start (fuel : nat) (nodesToMove insertDepth : Z)
    (s : buffer) :
  allocateNodeLengthsWithRelocation fuel nodesToMove 1 s
  = anlr_loop fuel fuel nodesToMove 1
      (len_of s - 2) (len_of s - 1) 2 (nodesToMove - 2) 4 s /\
  (2 <= insertDepth ->
   allocateNodeLengthsWithRelocation fuel nodesToMove insertDepth s
   = anlr_loop fuel fuel nodesToMove insertDepth
       (len_of s - 2) (len_of s - 1) 1 nodesToMove 2 s).
Proof.
  split.
  - reflexivity.
  - intros H. unfold allocateNodeLengthsWithRelocation, bind, array_length.
    destruct (insertDepth =? 1) eqn:E; [apply Z.eqb_eq in E; lia|].
    reflexivity.
Qed.

Lemma relocation_start_witness :
  allocateNodeLengthsWithRelocation 9 4 2
    (of_list [1; 10; 11; 12; 13; 14; 88; 35])
  = anlr_loop 9 9 4 2 6 7 1 4 2 (of_list [1; 10; 11; 12; 13; 14; 88; 35]).
Proof.
  apply (proj2 (relocation_start 9 4 2
                  (of_list [1; 10; 11; 12; 13; 14; 88; 35]))).
  lia.
Defined.

(** ** The choice of the third pass *)

(** C7.  On a buffer of three slots or more, with [s1] the buffer after
    pass 1 and [nodesToRelocate] the result of pass 2, the entry point runs
    the unlimited assigner on [s1] when [array[0] % n >= nodesToRelocate]
    and otherwise the limited assigner on [s1] with [insertDepth =
    maximumLength - fls (nodesToRelocate - 1)]. *)
Theorem third_pass_choice (fuel : nat) (maximumLength : Z)
    (s s1 s2 : buffer) (nodesToRelocate a0 : Z) :
  3 <= len_of s ->
  setExtendedParentPointers s = Ret (tt, s1) ->
  findNodesToRelocate fuel maximumLength s1 = Ret (nodesToRelocate, s2) ->
  elems s1 !! 0%nat = Some a0 ->
  allocateHuffmanCodeLengths fuel maximumLength s
  = if Z.rem a0 (len_of s1) >=? nodesToRelocate
    then allocateNodeLengths fuel s1
    else allocateNodeLengthsWithRelocation fuel nodesToRelocate
           (maximumLength - fls (nodesToRelocate - 1)) s1.
Proof. apply alloc_three_passes. Qed.

Lemma third_pass_choice_witness :
  allocateHuffmanCodeLengths 9 4 (of_list [1; 1; 3; 5; 8; 13; 22; 35])
  = allocateNodeLengthsWithRelocation 9 4 2
      (of_list [1; 10; 11; 12; 13; 14; 88; 35]).
Proof.
  apply (third_pass_choice 9 4 (of_list [1; 1; 3; 5; 8; 13; 22; 35])
           (of_list [1; 10; 11; 12; 13; 14; 88; 35])
           (of_list [1; 10; 11; 12; 13; 14; 88; 35]) 4 1);
    [vm_compute; discriminate | reflexivity | reflexivity | reflexivity].
Defined.

(** ** Purity of the two read-only functions *)

(** C8.  [first] and [findNodesToRelocate] store nothing, whatever the
    buffer, [i], [nodesToMove] and [maximumLength], a read outside the
    buffer going on with [undefined] as it does in JavaScript: a run
    returns the buffer it was given, or the fuel runs out, and nothing
    else happens.  And the two return: on a buffer of fewer than [2^30]
    slots, with [33] turns or more for each loop, [first] returns for
    every [i] and every [nodesToMove] from [-2^30] on, where no sum of two
    indices leaves the 32-bit integers, and [findNodesToRelocate] returns
    for every [maximumLength] with more than [maximumLength - 2] turns. *)
Theorem first_and_findNodesToRelocate_only_read
    (fuel : nat) (i nodesToMove maximumLength : Z) (s : buffer) :
  reads_only (first_any fuel i nodesToMove) s /\
  reads_only (findNodesToRelocate_any fuel maximumLength) s /\
  (fits_int32 s -> (33 <= fuel)%nat ->
   (- 2 ^ 30 <= nodesToMove ->
    exists k, first_any fuel i nodesToMove s = Ret (k, s)) /\
   (maximumLength - 2 < Z.of_nat fuel ->
    exists r, findNodesToRelocate_any fuel maximumLength s = Ret (r, s))).
Proof.
  split; [apply reads_only_first_any|].
  split; [apply reads_only_findNodesToRelocate_any|].
  intros Hfit Hfuel. split.
  - intros Hn.
    destruct (first_any_returns s fuel i nodesToMove Hfit Hfuel Hn)
      as (k & E & _).
    exists k. exact E.
  - intros Hm. apply findNodesToRelocate_any_returns; assumption.
Qed.

Lemma first_and_findNodesToRelocate_only_read_witness :
  (exists k,
     first_any 33 8 0 (of_list [1; 10; 11; 12; 13; 14; 88; 35])
     = Ret (k, of_list [1; 10; 11; 12; 13; 14; 88; 35])) /\
  (exists r,
     findNodesToRelocate_any 33 3 (of_list [1; 10; 11; 12; 13; 14; 88; 35])
     = Ret (r, of_list [1; 10; 11; 12; 13; 14; 88; 35])).
Proof.
  pose proof (first_and_findNodesToRelocate_only_read 33 8 0 3
                (of_list [1; 10; 11; 12; 13; 14; 88; 35])) as H.
  apply proj2, proj2 in H.
  assert (F : fits_int32 (of_list [1; 10; 11; 12; 13; 14; 88; 35]))
    by (unfold fits_int32; vm_compute; reflexivity).
  specialize (H F ltac:(lia)).
  split; [apply (proj1 H); lia | apply (proj2 H); lia].
Defined.

(** ** Where the statements of the spec fail *)

(** C1, at the failing input.  Eight sorted frequencies with
    [maximumLength = 3 = ceil(log2 8)]: pass 2 asks for five nodes to be
    relocated, [insertDepth] is [3 - fls 4 = 0], and the limited assigner
    stores once at index [-1] and leaves lengths whose Kraft sum is
    [11/8]. *)
Theorem kraft_fails_at_eight :
  sorted_frequencies [1; 1; 3; 5; 8; 13; 22; 35] /\
  long_enough 3 [1; 1; 3; 5; 8; 13; 22; 35] /\
  allocateHuffmanCodeLengths 9 3 (of_list [1; 1; 3; 5; 8; 13; 22; 35])
    = Ret (tt, Buffer [3; 3; 3; 3; 3; 2; 2; 2] [(-1, 3)]) /\
  kraft_scaled 3 [3; 3; 3; 3; 3; 2; 2; 2] = 11 /\
  ~ kraft_equality [3; 3; 3; 3; 3; 2; 2; 2].
Proof.
  split; [apply sorted_from_ok; reflexivity|].
  split; [unfold long_enough; vm_compute; discriminate|].
  split; [vm_compute; reflexivity|].
  split; [reflexivity|].
  intros [_ H]. vm_compute in H. discriminate.
Qed.

(** X11.  Above the minimum the Kraft sum is exact: on frequencies in any
    order, two or more and fewer than [2^30], with [maximumLength] above
    [ceil(log2(n))], the run returns with enough fuel and leaves lengths
    whose Kraft sum is [1]. *)
Theorem kraft_equality_above_minimum
    (l : list Z) (maximumLength : Z) (fuel : nat) :
  (2 <= length l)%nat -> Z.of_nat (length l) < 2 ^ 30 ->
  Z.log2_up (Z.of_nat (length l)) < maximumLength ->
  (length l <= fuel)%nat ->
  exists out st,
    allocateHuffmanCodeLengths fuel maximumLength (of_list l)
      = Ret (tt, Buffer out st) /\
    length out = length l /\ kraft_equality out.
Proof.
  intros Hn Hfit Hab Hfuel.
  destruct (alloc_any l fuel maximumLength ltac:(lia) Hfit
              ltac:(unfold long_enough; lia) Hfuel)
    as (out & st & E & L & _ & _ & S).
  exists out, st. split; [exact E|]. split; [exact L|].
  apply (S Hab). exact Hn.
Qed.

Lemma kraft_equality_above_minimum_witness :
  exists out st,
    allocateHuffmanCodeLengths 8 4 (of_list [35; 1; 13; 5; 8; 3; 22; 1])
      = Ret (tt, Buffer out st) /\
    length out = length [35; 1; 13; 5; 8; 3; 22; 1] /\ kraft_equality out.
Proof.
  apply (kraft_equality_above_minimum [35; 1; 13; 5; 8; 3; 22; 1] 4 8).
  - simpl. lia.
  - simpl. lia.
  - vm_compute. reflexivity.
  - simpl. lia.
Defined.

(** C2 fails on one slot: with [maximumLength = 0 = ceil(log2 1)] the
    length written is [1]. *)
Lemma cap_fails_on_one_slot :
  sorted_frequencies [5] /\ long_enough 0 [5] /\
  allocateHuffmanCodeLengths 9 0 (of_list [5]) = Ret (tt, of_list [1]) /\
  ~ Forall (fun x => x <= 0) [1].
Proof.
  split; [apply sorted_from_ok; reflexivity|].
  split; [unfold long_enough; vm_compute; discriminate|].
  split; [reflexivity|].
  intros H. apply Forall_cons in H as [H _]. lia.
Qed.


(** Nor does the statement hold at the root, [i = n - 2], whose slot holds
    a weight and no pointer: on the pass-1 form of [[1; 2; 4; 9]], [first]
    at [i = 2] returns [2], and [array[2] % 4] is [0]. *)
Lemma first_fails_at_root :
  post_pass1 (of_list [1; 2; 16; 9]) /\
  first 9 2 0 (of_list [1; 2; 16; 9]) = Ret (2, of_list [1; 2; 16; 9]) /\
  ~ smallest_beyond (of_list [1; 2; 16; 9]) 2 0 2.
Proof.
  split.
  { exists (of_list [1; 2; 4; 9]).
    split; [vm_compute; discriminate|]. split; reflexivity. }
  split; [reflexivity|].
  intros (_ & (x & Hx & Hr) & _). vm_compute in Hx. injection Hx as <-.
  vm_compute in Hr. discriminate.
Qed.


(** ** What holds on every input *)

(** C3.  On sorted frequencies, one or more and fewer than [2^30], with
    [maximumLength] at least [ceil(log2(n))], the run returns with enough
    fuel and leaves lengths that never go up with the index. *)
Theorem lengths_never_go_up
    (l : list Z) (maximumLength : Z) (fuel : nat) :
  (1 <= length l)%nat -> Z.of_nat (length l) < 2 ^ 30 ->
  sorted_frequencies l -> long_enough maximumLength l ->
  (length l <= fuel)%nat ->
  exists out st,
    allocateHuffmanCodeLengths fuel maximumLength (of_list l)
      = Ret (tt, Buffer out st) /\
    length out = length l /\ non_increasing out.
Proof.
  intros Hn Hfit _ Hlong Hfuel.
  destruct (alloc_any l fuel maximumLength Hn Hfit Hlong Hfuel)
    as (out & st & E & L & NI & _).
  exists out, st. auto.
Qed.

Lemma lengths_never_go_up_witness :
  exists out st,
    allocateHuffmanCodeLengths 8 4 (of_list [1; 1; 3; 5; 8; 13; 22; 35])
      = Ret (tt, Buffer out st) /\
    length out = length [1; 1; 3; 5; 8; 13; 22; 35] /\ non_increasing out.
Proof.
  apply (lengths_never_go_up [1; 1; 3; 5; 8; 13; 22; 35] 4 8).
  - simpl. lia.
  - simpl. lia.
  - apply sorted_from_ok. reflexivity.
  - unfold long_enough. vm_compute. discriminate.
  - simpl. lia.
Defined.

(** C2, amended.  On sorted frequencies, one or more and fewer than
    [2^30], with [maximumLength] at least [1] and at least
    [ceil(log2(n))], the run returns with enough fuel and no length it
    leaves is above [maximumLength]. *)
Theorem cap_respected (l : list Z) (maximumLength : Z) (fuel : nat) :
  (1 <= length l)%nat -> Z.of_nat (length l) < 2 ^ 30 ->
  sorted_frequencies l -> 1 <= maximumLength ->
  long_enough maximumLength l -> (length l <= fuel)%nat ->
  exists out st,
    allocateHuffmanCodeLengths fuel maximumLength (of_list l)
      = Ret (tt, Buffer out st) /\
    length out = length l /\ Forall (fun x => x <= maximumLength) out.
Proof.
  intros Hn Hfit _ Hone Hlong Hfuel.
  destruct (alloc_any l fuel maximumLength Hn Hfit Hlong Hfuel)
    as (out & st & E & L & _ & FA & _).
  exists out, st. split; [exact E|]. split; [exact L|].
  eapply Forall_impl; [exact FA|]. simpl. intros a Ha. lia.
Qed.

Lemma cap_respected_witness :
  exists out st,
    allocateHuffmanCodeLengths 8 3 (of_list [1; 1; 3; 5; 8; 13; 22; 35])
      = Ret (tt, Buffer out st) /\
    length out = length [1; 1; 3; 5; 8; 13; 22; 35] /\
    Forall (fun x => x <= 3) out.
Proof.
  apply (cap_respected [1; 1; 3; 5; 8; 13; 22; 35] 3 8).
  - simpl. lia.
  - simpl. lia.
  - apply sorted_from_ok. reflexivity.
  - lia.
  - unfold long_enough. vm_compute. discriminate.
  - simpl. lia.
Defined.





(** * Further properties of the code *)

(** ** Pass 1, [setExtendedParentPointers] *)

(** X1.  On every buffer of three slots or more, whatever it holds, pass 1
    returns, keeps the length and stores nowhere outside the buffer; each
    slot [k] from [0] to [n - 3] then holds a pointer to a parent above
    [k] and no higher than the root [n - 2], written as the parent itself
    or as the parent plus [n]. *)
Theorem pass1_parent_pointers (s : buffer) :
  3 <= len_of s ->
  exists s',
    setExtendedParentPointers s = Ret (tt, s') /\
    len_of s' = len_of s /\ stray s' = stray s /\
    forall k, 0 <= k <= len_of s - 3 ->
      k < parent s' k <= len_of s - 2 /\
      (slot s' k = parent s' k \/ slot s' k = parent s' k + len_of s).
Proof.
  intros Hn.
  destruct (setExtendedParentPointers_tree s Hn) as (s' & E & [_ P] & L & S).
  exists s'. split; [exact E|]. split; [exact L|]. split; [exact S|].
  intros k Hk. rewrite <- L.
  pose proof (ptr_parent _ _ _ P k ltac:(lia)).
  pose proof (ptr_slot _ _ _ P k ltac:(lia)).
  split; [lia | assumption].
Qed.

Lemma pass1_parent_pointers_witness :
  exists s',
    setExtendedParentPointers (of_list [1; 1; 3; 5; 8; 13; 22; 35])
      = Ret (tt, s') /\
    len_of s' = len_of (of_list [1; 1; 3; 5; 8; 13; 22; 35]) /\
    stray s' = stray (of_list [1; 1; 3; 5; 8; 13; 22; 35]) /\
    forall k, 0 <= k <= len_of (of_list [1; 1; 3; 5; 8; 13; 22; 35]) - 3 ->
      k < parent s' k <= len_of (of_list [1; 1; 3; 5; 8; 13; 22; 35]) - 2 /\
      (slot s' k = parent s' k \/
       slot s' k
       = parent s' k + len_of (of_list [1; 1; 3; 5; 8; 13; 22; 35])).
Proof.
  apply (pass1_parent_pointers (of_list [1; 1; 3; 5; 8; 13; 22; 35])).
  vm_compute. discriminate.
Defined.

(** X2.  After pass 1 the parents go up with the index: of two neighbours
    below the root the second has the same parent or a higher one; when
    they share the parent, the first holds the parent itself and the second
    the parent plus [n]; and two slots further on the parent is strictly
    higher, so that no node is the parent of three. *)
Theorem pass1_parents_in_order (s s' : buffer) (k : Z) :
  3 <= len_of s -> setExtendedParentPointers s = Ret (tt, s') ->
  0 <= k -> k + 1 <= len_of s - 3 ->
  parent s' k <= parent s' (k + 1) /\
  (parent s' k = parent s' (k + 1) ->
   slot s' k = parent s' k /\ slot s' (k + 1) = parent s' k + len_of s) /\
  (k + 2 <= len_of s - 3 -> parent s' k < parent s' (k + 2)).
Proof.
  intros Hn E Hk Hk1.
  destruct (setExtendedParentPointers_tree s Hn) as (s2 & E2 & T & L & _).
  rewrite E in E2. injection E2 as <-.
  pose proof T as [_ P]. rewrite <- L.
  split; [apply (ptr_mono _ _ _ P); lia|]. split.
  - apply (ptr_pair _ _ _ P); lia.
  - intros Hk2. apply parent_skip_two; [exact T | lia | lia].
Qed.

Lemma pass1_parents_in_order_witness :
  parent (of_list [1; 10; 11; 12; 13; 14; 88; 35]) 1
  <= parent (of_list [1; 10; 11; 12; 13; 14; 88; 35]) (1 + 1) /\
  (parent (of_list [1; 10; 11; 12; 13; 14; 88; 35]) 1
   = parent (of_list [1; 10; 11; 12; 13; 14; 88; 35]) (1 + 1) ->
   slot (of_list [1; 10; 11; 12; 13; 14; 88; 35]) 1
   = parent (of_list [1; 10; 11; 12; 13; 14; 88; 35]) 1 /\
   slot (of_list [1; 10; 11; 12; 13; 14; 88; 35]) (1 + 1)
   = parent (of_list [1; 10; 11; 12; 13; 14; 88; 35]) 1
     + len_of (of_list [1; 1; 3; 5; 8; 13; 22; 35])) /\
  (1 + 2 <= len_of (of_list [1; 1; 3; 5; 8; 13; 22; 35]) - 3 ->
   parent (of_list [1; 10; 11; 12; 13; 14; 88; 35]) 1
   < parent (of_list [1; 10; 11; 12; 13; 14; 88; 35]) (1 + 2)).
Proof.
  apply (pass1_parents_in_order (of_list [1; 1; 3; 5; 8; 13; 22; 35])
           (of_list [1; 10; 11; 12; 13; 14; 88; 35]) 1).
  - vm_compute. discriminate.
  - reflexivity.
  - lia.
  - vm_compute. discriminate.
Defined.

(** X3.  Pass 1 keeps the total weight.  On three frequencies or more, in
    any order, that are not negative and add up to [2^53] at most, with
    any addition [plus] that is exact up to [2^53], as the addition of the
    doubles is: pass 1 returns and leaves the sum of the frequencies in
    the root slot [n - 2], and the last slot as it was. *)
Theorem pass1_root_holds_total
    (plus : Z -> Z -> Z) (l : list Z) (st : list (Z * Z)) :
  adds_exactly plus -> (3 <= length l)%nat ->
  Forall (fun x => 0 <= x) l -> total l <= 2 ^ 53 ->
  exists s',
    setExtendedParentPointers_with plus (Buffer l st) = Ret (tt, s') /\
    elems s' !! (length l - 2)%nat = Some (total l) /\
    elems s' !! (length l - 1)%nat = l !! (length l - 1)%nat.
Proof.
  intros Hplus Hn Hl Ht.
  rewrite (setExtendedParentPointers_with_exact plus l st Hplus Hn Hl Ht).
  destruct (setExtendedParentPointers_tree (Buffer l st)
              ltac:(unfold len_of; simpl; lia)) as (s' & E & _).
  exists s'. split; [exact E|].
  destruct (setExtendedParentPointers_weight l st s' Hn E) as [W K].
  assert (L : len_of s' = Z.of_nat (length l)).
  { apply (keeps_len_setExtendedParentPointers _ _ _ E). }
  pose proof (slot_lookup s' (Z.of_nat (length l) - 2) ltac:(lia)) as A.
  pose proof (slot_lookup s' (Z.of_nat (length l) - 1) ltac:(lia)) as B.
  pose proof (slot_lookup (Buffer l st) (Z.of_nat (length l) - 1)
                ltac:(unfold len_of; simpl; lia)) as C.
  cbn [elems] in C.
  replace (Z.to_nat (Z.of_nat (length l) - 2)) with (length l - 2)%nat in A
    by lia.
  replace (Z.to_nat (Z.of_nat (length l) - 1)) with (length l - 1)%nat
    in B, C by lia.
  rewrite A, B, C, W, K. split; reflexivity.
Qed.

Lemma pass1_root_holds_total_witness :
  exists s',
    setExtendedParentPointers_with double_add
      (of_list [1; 1; 3; 5; 8; 13; 22; 35]) = Ret (tt, s') /\
    elems s' !! (length [1; 1; 3; 5; 8; 13; 22; 35] - 2)%nat
    = Some (total [1; 1; 3; 5; 8; 13; 22; 35]) /\
    elems s' !! (length [1; 1; 3; 5; 8; 13; 22; 35] - 1)%nat
    = [1; 1; 3; 5; 8; 13; 22; 35]
        !! (length [1; 1; 3; 5; 8; 13; 22; 35] - 1)%nat.
Proof.
  apply (pass1_root_holds_total double_add [1; 1; 3; 5; 8; 13; 22; 35] []).
  - exact double_add_exact.
  - simpl. lia.
  - repeat constructor; lia.
  - vm_compute. discriminate.
Defined.

(** ** [first] *)

(** X4.  On a buffer in the form pass 1 leaves, of fewer than [2^30]
    slots, [first] called one position below [nodesToMove] finds no index
    to try and returns [nodesToMove] itself, for every [nodesToMove] from
    [0] to the root; so [first(array, -1, 0)] is [0]. *)
Theorem first_on_empty_range (s : buffer) (nodesToMove : Z) (fuel : nat) :
  post_pass1 s -> fits_int32 s ->
  0 <= nodesToMove <= len_of s - 2 ->
  (Z.to_nat (len_of s) <= fuel)%nat ->
  first fuel (nodesToMove - 1) nodesToMove s = Ret (nodesToMove, s).
Proof.
  intros Hp Hfit Hn Hfuel.
  destruct (post_pass1_tree s Hp) as [T _].
  rewrite (first_low_tree s (nodesToMove - 1) nodesToMove fuel T Hfit)
    by (auto; lia).
  rewrite low_above by lia. reflexivity.
Qed.

Lemma first_on_empty_range_witness :
  first 8 (3 - 1) 3 (of_list [1; 10; 11; 12; 13; 14; 88; 35])
  = Ret (3, of_list [1; 10; 11; 12; 13; 14; 88; 35]).
Proof.
  apply (first_on_empty_range (of_list [1; 10; 11; 12; 13; 14; 88; 35]) 3 8).
  - exists (of_list [1; 1; 3; 5; 8; 13; 22; 35]).
    split; [vm_compute; discriminate|]. split; reflexivity.
  - unfold fits_int32. vm_compute. reflexivity.
  - vm_compute. split; discriminate.
  - vm_compute. lia.
Defined.

(** X5.  On such a buffer the result of [first] lies between
    [nodesToMove] and [i + 1], and it goes up with [i]: a higher position
    never gives a lower result. *)
Theorem first_monotone_in_position
    (s : buffer) (i i' nodesToMove : Z) (fuel : nat) :
  post_pass1 s -> fits_int32 s -> 0 <= nodesToMove ->
  nodesToMove - 1 <= i <= i' -> i' <= len_of s - 3 ->
  (Z.to_nat (len_of s) <= fuel)%nat ->
  exists k k',
    first fuel i nodesToMove s = Ret (k, s) /\
    first fuel i' nodesToMove s = Ret (k', s) /\
    nodesToMove <= k <= i + 1 /\ k <= k' <= i' + 1.
Proof.
  intros Hp Hfit Hn Hi Hi' Hfuel.
  destruct (post_pass1_tree s Hp) as [T _].
  exists (low s i nodesToMove), (low s i' nodesToMove).
  split; [apply first_low_tree; auto; lia|].
  split; [apply first_low_tree; auto; lia|].
  destruct (low_spec s i nodesToMove ltac:(lia)) as (A & _).
  destruct (low_spec s i' nodesToMove ltac:(lia)) as (A' & _).
  pose proof (low_mono_limit s nodesToMove i i' ltac:(lia)). lia.
Qed.

Lemma first_monotone_in_position_witness :
  exists k k',
    first 8 2 0 (of_list [1; 10; 11; 12; 13; 14; 88; 35])
      = Ret (k, of_list [1; 10; 11; 12; 13; 14; 88; 35]) /\
    first 8 4 0 (of_list [1; 10; 11; 12; 13; 14; 88; 35])
      = Ret (k', of_list [1; 10; 11; 12; 13; 14; 88; 35]) /\
    0 <= k <= 2 + 1 /\ k <= k' <= 4 + 1.
Proof.
  apply (first_monotone_in_position
           (of_list [1; 10; 11; 12; 13; 14; 88; 35]) 2 4 0 8).
  - exists (of_list [1; 1; 3; 5; 8; 13; 22; 35]).
    split; [vm_compute; discriminate|]. split; reflexivity.
  - unfold fits_int32. vm_compute. reflexivity.
  - lia.
  - lia.
  - vm_compute. discriminate.
  - vm_compute. lia.
Defined.

(** X6.  On such a buffer [nodesToMove] only cuts the result off from
    below: [first(array, i, nodesToMove)] is the larger of [nodesToMove]
    and [first(array, i, 0)]. *)
Theorem first_clipped_at_nodesToMove
    (s : buffer) (i nodesToMove : Z) (fuel : nat) :
  post_pass1 s -> fits_int32 s ->
  0 <= nodesToMove <= i + 1 -> i <= len_of s - 3 ->
  (Z.to_nat (len_of s) <= fuel)%nat ->
  exists k0,
    first fuel i 0 s = Ret (k0, s) /\
    first fuel i nodesToMove s = Ret (Z.max nodesToMove k0, s).
Proof.
  intros Hp Hfit Hn Hi Hfuel.
  destruct (post_pass1_tree s Hp) as [T _].
  exists (low s i 0).
  split; [apply first_low_tree; auto; lia|].
  rewrite <- low_clip by (auto; lia).
  apply first_low_tree; auto; lia.
Qed.

Lemma first_clipped_at_nodesToMove_witness :
  exists k0,
    first 8 4 0 (of_list [1; 10; 11; 12; 13; 14; 88; 35])
      = Ret (k0, of_list [1; 10; 11; 12; 13; 14; 88; 35]) /\
    first 8 4 3 (of_list [1; 10; 11; 12; 13; 14; 88; 35])
      = Ret (Z.max 3 k0, of_list [1; 10; 11; 12; 13; 14; 88; 35]).
Proof.
  apply (first_clipped_at_nodesToMove
           (of_list [1; 10; 11; 12; 13; 14; 88; 35]) 4 3 8).
  - exists (of_list [1; 1; 3; 5; 8; 13; 22; 35]).
    split; [vm_compute; discriminate|]. split; reflexivity.
  - unfold fits_int32. vm_compute. reflexivity.
  - lia.
  - vm_compute. discriminate.
  - vm_compute. lia.
Defined.

(** ** Pass 2, [findNodesToRelocate] *)

(** X7.  On a buffer in the form pass 1 leaves, of fewer than [2^30]
    slots, pass 2 returns with enough fuel, its result lies between [0]
    and the root [n - 2], and a larger [maximumLength] never gives a
    larger result. *)
Theorem findNodesToRelocate_never_grows
    (s : buffer) (fuel : nat) (maximumLength maximumLength' : Z) :
  post_pass1 s -> fits_int32 s -> (Z.to_nat (len_of s) <= fuel)%nat ->
  maximumLength <= maximumLength' ->
  exists r r',
    findNodesToRelocate fuel maximumLength s = Ret (r, s) /\
    findNodesToRelocate fuel maximumLength' s = Ret (r', s) /\
    0 <= r' <= r /\ r <= len_of s - 2.
Proof.
  intros Hp Hfit Hfuel Hm.
  destruct (post_pass1_tree s Hp) as [T _].
  apply findNodesToRelocate_antitone; assumption.
Qed.

Lemma findNodesToRelocate_never_grows_witness :
  exists r r',
    findNodesToRelocate 8 3 (of_list [1; 10; 11; 12; 13; 14; 88; 35])
      = Ret (r, of_list [1; 10; 11; 12; 13; 14; 88; 35]) /\
    findNodesToRelocate 8 5 (of_list [1; 10; 11; 12; 13; 14; 88; 35])
      = Ret (r', of_list [1; 10; 11; 12; 13; 14; 88; 35]) /\
    0 <= r' <= r /\
    r <= len_of (of_list [1; 10; 11; 12; 13; 14; 88; 35]) - 2.
Proof.
  apply (findNodesToRelocate_never_grows
           (of_list [1; 10; 11; 12; 13; 14; 88; 35]) 8 3 5).
  - exists (of_list [1; 1; 3; 5; 8; 13; 22; 35]).
    split; [vm_compute; discriminate|]. split; reflexivity.
  - unfold fits_int32. vm_compute. reflexivity.
  - vm_compute. lia.
  - lia.
Defined.

(** X8.  With [maximumLength] at [n - 1] or more pass 2 walks the tree
    down to its last level: the result is [0] or [1]. *)
Theorem findNodesToRelocate_large_limit
    (s : buffer) (fuel : nat) (maximumLength : Z) :
  post_pass1 s -> fits_int32 s -> (Z.to_nat (len_of s) <= fuel)%nat ->
  len_of s - 1 <= maximumLength ->
  exists r,
    findNodesToRelocate fuel maximumLength s = Ret (r, s) /\ 0 <= r <= 1.
Proof.
  intros Hp Hfit Hfuel Hm.
  destruct (post_pass1_tree s Hp) as [T _].
  apply findNodesToRelocate_large; assumption.
Qed.

Lemma findNodesToRelocate_large_limit_witness :
  exists r,
    findNodesToRelocate 8 7 (of_list [1; 10; 11; 12; 13; 14; 88; 35])
      = Ret (r, of_list [1; 10; 11; 12; 13; 14; 88; 35]) /\ 0 <= r <= 1.
Proof.
  apply (findNodesToRelocate_large_limit
           (of_list [1; 10; 11; 12; 13; 14; 88; 35]) 8 7).
  - exists (of_list [1; 1; 3; 5; 8; 13; 22; 35]).
    split; [vm_compute; discriminate|]. split; reflexivity.
  - unfold fits_int32. vm_compute. reflexivity.
  - vm_compute. lia.
  - vm_compute. discriminate.
Defined.

(** ** The unlimited assigner, [allocateNodeLengths] *)

(** X9.  On a buffer in the form pass 1 leaves, of fewer than [2^30]
    slots, the unlimited assigner returns with enough fuel, overwrites
    every slot and stores nowhere else; the lengths it leaves run from [1]
    to [n - 1] at most, never go up with the index, and have Kraft sum
    [1]. *)
Theorem unlimited_assigner_lengths (s : buffer) (fuel : nat) :
  post_pass1 s -> fits_int32 s -> (Z.to_nat (len_of s) <= fuel)%nat ->
  exists out,
    allocateNodeLengths fuel s = Ret (tt, Buffer out []) /\
    length out = length (elems s) /\ non_increasing out /\
    Forall (fun x => 1 <= x <= len_of s - 1) out /\
    kraft_equality out.
Proof.
  intros Hp Hfit Hfuel.
  destruct (post_pass1_tree s Hp) as [T S0].
  pose proof (ts_len _ T) as Hn.
  assert (Hreach : natsteps s (Z.to_nat (len_of s - 1 - 1)) (len_of s - 2)
                   = 0).
  { pose proof (natsteps_decrease s (Z.to_nat (len_of s - 1 - 1)) T
                  (len_of s - 2) ltac:(lia)).
    pose proof (natsteps_range s (Z.to_nat (len_of s - 1 - 1))
                  (len_of s - 2) ltac:(lia)).
    lia. }
  destruct (allocateNodeLengths_ok s (len_of s - 1) fuel T Hfit Hfuel
              ltac:(lia) Hreach) as (s' & E & L & S & Tl & W).
  destruct s' as [out st]. cbn [stray] in S. rewrite S0 in S. subst st.
  exists out. split; [exact E|].
  unfold len_of in L. cbn [elems] in L. split; [lia|].
  destruct (tail_ok_all _ _ Tl) as [NI FA]. cbn [elems] in NI, FA.
  split; [exact NI|]. split; [exact FA|].
  apply (kraft_equality_at (len_of s - 1)); [lia | exact FA | exact W].
Qed.

Lemma unlimited_assigner_lengths_witness :
  exists out,
    allocateNodeLengths 8 (of_list [1; 10; 11; 12; 13; 14; 88; 35])
      = Ret (tt, Buffer out []) /\
    length out = length (elems (of_list [1; 10; 11; 12; 13; 14; 88; 35])) /\
    non_increasing out /\
    Forall (fun x => 1 <= x
                     <= len_of (of_list [1; 10; 11; 12; 13; 14; 88; 35]) - 1)
           out /\
    kraft_equality out.
Proof.
  apply (unlimited_assigner_lengths
           (of_list [1; 10; 11; 12; 13; 14; 88; 35]) 8).
  - exists (of_list [1; 1; 3; 5; 8; 13; 22; 35]).
    split; [vm_compute; discriminate|]. split; reflexivity.
  - unfold fits_int32. vm_compute. reflexivity.
  - vm_compute. lia.
Defined.

(** ** The entry point, [allocateHuffmanCodeLengths] *)

(** X10.  On three slots or more and fewer than [2^30], with
    [maximumLength] at [n - 1] or more, the limit plays no part: the entry
    point is pass 1 followed by the unlimited assigner. *)
Theorem large_limit_runs_unlimited
    (s : buffer) (fuel : nat) (maximumLength : Z) :
  3 <= len_of s -> fits_int32 s -> (Z.to_nat (len_of s) <= fuel)%nat ->
  len_of s - 1 <= maximumLength ->
  allocateHuffmanCodeLengths fuel maximumLength s
  = bind setExtendedParentPointers (fun _ => allocateNodeLengths fuel) s.
Proof. apply alloc_large_limit. Qed.

Lemma large_limit_runs_unlimited_witness :
  allocateHuffmanCodeLengths 8 7 (of_list [1; 1; 3; 5; 8; 13; 22; 35])
  = bind setExtendedParentPointers (fun _ => allocateNodeLengths 8)
      (of_list [1; 1; 3; 5; 8; 13; 22; 35]).
Proof.
  apply (large_limit_runs_unlimited
           (of_list [1; 1; 3; 5; 8; 13; 22; 35]) 8 7).
  - vm_compute. discriminate.
  - unfold fits_int32. vm_compute. reflexivity.
  - vm_compute. lia.
  - vm_compute. discriminate.
Defined.

(** X12.  On frequencies in any order, one or more and fewer than [2^30],
    with [maximumLength] at least [ceil(log2(n))], the run returns with
    enough fuel, the buffer keeps its length, and every length is [1] or
    more: no symbol is left with an empty code. *)
Theorem lengths_at_least_one
    (l : list Z) (maximumLength : Z) (fuel : nat) :
  (1 <= length l)%nat -> Z.of_nat (length l) < 2 ^ 30 ->
  long_enough maximumLength l -> (length l <= fuel)%nat ->
  exists out st,
    allocateHuffmanCodeLengths fuel maximumLength (of_list l)
      = Ret (tt, Buffer out st) /\
    length out = length l /\ Forall (fun x => 1 <= x) out.
Proof.
  intros Hn Hfit Hlong Hfuel.
  destruct (alloc_any l fuel maximumLength Hn Hfit Hlong Hfuel)
    as (out & st & E & L & _ & FA & _).
  exists out, st. split; [exact E|]. split; [exact L|].
  eapply Forall_impl; [exact FA|]. simpl. intros a Ha. lia.
Qed.

Lemma lengths_at_least_one_witness :
  exists out st,
    allocateHuffmanCodeLengths 8 3 (of_list [35; 1; 13; 5; 8; 3; 22; 1])
      = Ret (tt, Buffer out st) /\
    length out = length [35; 1; 13; 5; 8; 3; 22; 1] /\
    Forall (fun x => 1 <= x) out.
Proof.
  apply (lengths_at_least_one [35; 1; 13; 5; 8; 3; 22; 1] 3 8).
  - simpl. lia.
  - simpl. lia.
  - unfold long_enough. vm_compute. discriminate.
  - simpl. lia.
Defined.


(** X14.  A limit that the unlimited lengths already respect changes
    nothing.  On three slots or more and fewer than [2^30]: when the run
    with a maximum length of [n - 1] or more, which is pass 1 followed by
    the unlimited assigner, leaves lengths that are all within
    [maximumLength], the run with [maximumLength] leaves the same
    buffer. *)
Theorem limit_keeps_lengths_that_fit
    (s : buffer) (fuel : nat) (maximumLength unlimited : Z)
    (out : list Z) (st : list (Z * Z)) :
  3 <= len_of s -> fits_int32 s -> (Z.to_nat (len_of s) <= fuel)%nat ->
  len_of s - 1 <= unlimited ->
  allocateHuffmanCodeLengths fuel unlimited s = Ret (tt, Buffer out st) ->
  Forall (fun x => x <= maximumLength) out ->
  allocateHuffmanCodeLengths fuel maximumLength s = Ret (tt, Buffer out st).
Proof.
  intros Hn Hfit Hfuel Hbig E FA.
  rewrite alloc_large_limit in E by assumption.
  destruct (setExtendedParentPointers_tree s Hn) as (s1 & E1 & T & L1 & _).
  rewrite (bind_Ret _ _ _ _ _ E1) in E.
  apply (alloc_fits s fuel maximumLength s1); auto.
  assert (Hfit1 : fits_int32 s1) by (unfold fits_int32 in *; lia).
  pose proof (keeps_len_allocateNodeLengths fuel _ _ _ E) as L.
  destruct out as [|x out].
  - unfold len_of in L at 1. simpl in L. lia.
  - apply Forall_cons in FA as [Hx _]. exact Hx.
Qed.

Lemma limit_keeps_lengths_that_fit_witness :
  allocateHuffmanCodeLengths 8 5 (of_list [1; 2; 3; 4; 5; 6; 7; 8])
  = Ret (tt, Buffer [5; 5; 4; 3; 3; 3; 2; 2] []).
Proof.
  apply (limit_keeps_lengths_that_fit
           (of_list [1; 2; 3; 4; 5; 6; 7; 8]) 8 5 9
           [5; 5; 4; 3; 3; 3; 2; 2] []).
  - vm_compute. discriminate.
  - unfold fits_int32. vm_compute. reflexivity.
  - vm_compute. lia.
  - vm_compute. discriminate.
  - vm_compute. reflexivity.
  - repeat (apply Forall_cons; split; [lia|]). apply Forall_nil. exact I.
Defined.

(** X15.  Where the stores below the buffer come from.  On three slots or
    more and fewer than [2^30], with [maximumLength] at least
    [ceil(log2(n))], [s1] the buffer after pass 1 and [nodesToRelocate] the
    result of pass 2: the run returns with enough fuel, and it has made no
    store outside the buffer exactly when the entry point ran the unlimited
    assigner ([array[0] % n >= nodesToRelocate]) or ran the limited one
    with [insertDepth = maximumLength - fls (nodesToRelocate - 1)] at [1]
    or more.  With [insertDepth = 0] the limited assigner always stores at
    a negative index. *)
Theorem stray_store_iff_insert_depth_zero
    (s s1 : buffer) (fuel : nat) (maximumLength nodesToRelocate : Z) :
  3 <= len_of s -> fits_int32 s -> (Z.to_nat (len_of s) <= fuel)%nat ->
  long_enough maximumLength (elems s) -> stray s = [] ->
  setExtendedParentPointers s = Ret (tt, s1) ->
  findNodesToRelocate fuel maximumLength s1 = Ret (nodesToRelocate, s1) ->
  exists out st,
    allocateHuffmanCodeLengths fuel maximumLength s
      = Ret (tt, Buffer out st) /\
    (st = [] <->
     nodesToRelocate <= parent s1 0 \/
     1 <= maximumLength - fls (nodesToRelocate - 1)).
Proof.
  intros Hn Hfit Hfuel Hlong S0 E1 E2.
  assert (Hpow : len_of s <= 2 ^ maximumLength).
  { apply long_enough_pow; [exact Hlong | unfold len_of in Hn; lia]. }
  destruct (alloc_stray s s1 fuel maximumLength nodesToRelocate
              Hn Hfit Hfuel Hpow E1 E2) as ([out st] & E & Hin & Hout & _).
  cbn [stray] in Hin, Hout.
  exists out, st. split; [exact E|]. split.
  - intros S'.
    destruct (Z_le_gt_dec nodesToRelocate (parent s1 0)) as [C|C];
      [left; exact C|right].
    destruct (Z_le_gt_dec 1 (maximumLength - fls (nodesToRelocate - 1)))
      as [C1|C1]; [exact C1|exfalso].
    specialize (Hout ltac:(lia) ltac:(lia)).
    rewrite S0, S' in Hout. simpl in Hout. lia.
  - intros C. rewrite (Hin C). exact S0.
Qed.

Lemma stray_store_iff_insert_depth_zero_witness :
  exists out st,
    allocateHuffmanCodeLengths 8 3 (of_list [1; 1; 3; 5; 8; 13; 22; 35])
      = Ret (tt, Buffer out st) /\
    (st = [] <->
     5 <= parent (of_list [1; 10; 11; 12; 13; 14; 88; 35]) 0 \/
     1 <= 3 - fls (5 - 1)).
Proof.
  apply (stray_store_iff_insert_depth_zero
           (of_list [1; 1; 3; 5; 8; 13; 22; 35])
           (of_list [1; 10; 11; 12; 13; 14; 88; 35]) 8 3 5).
  - vm_compute. discriminate.
  - unfold fits_int32. vm_compute. reflexivity.
  - vm_compute. lia.
  - unfold long_enough. vm_compute. discriminate.
  - reflexivity.
  - reflexivity.
  - reflexivity.
Defined.

(** X16.  The longest length is the unlimited one, cut at the limit.  On
    three frequencies or more, in any order and fewer than [2^30], with
    [maximumLength] above [ceil(log2(n))]: the length left in slot [0], which
    is the longest, is the smaller of [maximumLength] and the length the
    run without an effective limit (a maximum length of [n - 1] or more)
    leaves there.  So the limit is reached whenever it cuts anything. *)
Theorem longest_length_is_capped
    (l : list Z) (fuel : nat) (maximumLength unlimited : Z) :
  (3 <= length l)%nat -> Z.of_nat (length l) < 2 ^ 30 ->
  Z.log2_up (Z.of_nat (length l)) < maximumLength ->
  Z.of_nat (length l) - 1 <= unlimited ->
  (length l <= fuel)%nat ->
  exists out st unl st' x u,
    allocateHuffmanCodeLengths fuel maximumLength (of_list l)
      = Ret (tt, Buffer out st) /\
    allocateHuffmanCodeLengths fuel unlimited (of_list l)
      = Ret (tt, Buffer unl st') /\
    out !! 0%nat = Some x /\ unl !! 0%nat = Some u /\
    x = Z.min maximumLength u.
Proof.
  intros Hl Hfit Hab Hbig Hfuel.
  set (s := of_list l).
  assert (Ls : len_of s = Z.of_nat (length l)) by reflexivity.
  assert (Hn : 3 <= len_of s) by lia.
  assert (Hfs : fits_int32 s) by (unfold fits_int32; lia).
  pose proof (above_minimum_pow l maximumLength Hab ltac:(lia)) as Hhalf.
  destruct (setExtendedParentPointers_tree s Hn) as (s1 & E1 & T & L1 & S1).
  assert (Hfit1 : fits_int32 s1) by (unfold fits_int32 in *; lia).
  destruct (findNodesToRelocate_spec s1 fuel maximumLength T Hfit1
              ltac:(lia)) as (j & E2 & Hj1 & Hj2).
  set (r := natsteps s1 j (len_of s1 - 2)) in *.
  destruct (alloc_stray s s1 fuel maximumLength r Hn Hfs ltac:(lia)
              ltac:(lia) E1 E2) as (s' & E & _ & _ & Hdeep & Hunl).
  destruct (alloc_large s fuel maximumLength Hn Hfs ltac:(lia) ltac:(lia))
    as (s'' & E' & L' & Tl & _).
  rewrite E in E'. injection E' as <-.
  destruct (allocateNodeLengths_tree s1 fuel T Hfit1 ltac:(lia))
    as (su & Eu & Lu & _).
  assert (Ebig : allocateHuffmanCodeLengths fuel unlimited s = Ret (tt, su)).
  { rewrite alloc_large_limit by (auto; lia).
    rewrite (bind_Ret _ _ _ _ _ E1). exact Eu. }
  destruct (Tl 0 ltac:(lia) ltac:(lia)) as [Hx _].
  assert (Hmin : slot s' 0 = Z.min maximumLength (slot su 0)).
  { destruct (Z_le_gt_dec (slot su 0) maximumLength) as [C|C].
    - pose proof (alloc_fits s fuel maximumLength s1 su Hn Hfs ltac:(lia)
                    E1 Eu C) as Ef.
      rewrite E in Ef. injection Ef as <-. lia.
    - destruct (Z_le_gt_dec r (parent s1 0)) as [C1|C1].
      + specialize (Hunl C1). rewrite Eu in Hunl. injection Hunl as <-. lia.
      + destruct (relocation_setting s1 maximumLength j T Hfit1 ltac:(lia)
                    Hj1 Hj2 ltac:(fold r; lia))
          as (_ & _ & _ & _ & _ & _ & Hins).
        fold r in Hins.
        rewrite (Hdeep ltac:(lia) (Hins ltac:(lia))). lia. }
  destruct s' as [out st]. destruct su as [unl st'].
  exists out, st, unl, st', (slot (Buffer out st) 0),
    (slot (Buffer unl st') 0).
  split; [exact E|]. split; [exact Ebig|].
  split; [apply (slot_lookup (Buffer out st) 0); lia|].
  split; [apply (slot_lookup (Buffer unl st') 0); lia | exact Hmin].
Qed.

Lemma longest_length_is_capped_witness :
  exists out st unl st' x u,
    allocateHuffmanCodeLengths 8 4 (of_list [1; 2; 3; 4; 5; 6; 7; 8])
      = Ret (tt, Buffer out st) /\
    allocateHuffmanCodeLengths 8 7 (of_list [1; 2; 3; 4; 5; 6; 7; 8])
      = Ret (tt, Buffer unl st') /\
    out !! 0%nat = Some x /\ unl !! 0%nat = Some u /\ x = Z.min 4 u.
Proof.
  apply (longest_length_is_capped [1; 2; 3; 4; 5; 6; 7; 8] 8 4 7).
  - simpl. lia.
  - simpl. lia.
  - vm_compute. reflexivity.
  - simpl. lia.
  - simpl. lia.
Defined.

(** X17.  On frequencies in any order, two or more and fewer than [2^30],
    with [maximumLength] above [ceil(log2(n))], slots [0] and [1] are left
    with the same length: the longest code is shared by two symbols at
    least. *)
Theorem two_longest_lengths_equal
    (l : list Z) (maximumLength : Z) (fuel : nat) :
  (2 <= length l)%nat -> Z.of_nat (length l) < 2 ^ 30 ->
  Z.log2_up (Z.of_nat (length l)) < maximumLength ->
  (length l <= fuel)%nat ->
  exists out st x,
    allocateHuffmanCodeLengths fuel maximumLength (of_list l)
      = Ret (tt, Buffer out st) /\
    out !! 0%nat = Some x /\ out !! 1%nat = Some x.
Proof.
  intros Hn Hfit Hab Hfuel.
  destruct (alloc_any l fuel maximumLength ltac:(lia) Hfit
              ltac:(unfold long_enough; lia) Hfuel)
    as (out & st & E & L & NI & _ & S).
  destruct (S Hab) as [_ K]. specialize (K Hn).
  destruct out as [|a [|b out]]; simpl in L; try lia.
  exists (a :: b :: out), st, a. split; [exact E|]. split; [reflexivity|].
  rewrite (kraft_two_longest a b out NI K). reflexivity.
Qed.

Lemma two_longest_lengths_equal_witness :
  exists out st x,
    allocateHuffmanCodeLengths 8 4 (of_list [35; 1; 13; 5; 8; 3; 22; 1])
      = Ret (tt, Buffer out st) /\
    out !! 0%nat = Some x /\ out !! 1%nat = Some x.
Proof.
  apply (two_longest_lengths_equal [35; 1; 13; 5; 8; 3; 22; 1] 4 8).
  - simpl. lia.
  - simpl. lia.
  - vm_compute. reflexivity.
  - simpl. lia.
Defined.

(** X18.  A buffer of three slots becomes [[2; 2; 1]], whatever the
    frequencies and whatever the maximum length, below the documented
    minimum too: pass 2 has no level to go down and the entry point always
    runs the unlimited assigner. *)
Theorem three_slots
    (fuel : nat) (maximumLength x y z : Z) (st : list (Z * Z)) :
  (3 <= fuel)%nat ->
  allocateHuffmanCodeLengths fuel maximumLength (Buffer [x; y; z] st)
  = Ret (tt, Buffer [2; 2; 1] st).
Proof.
  intros Hfuel. set (s := Buffer [x; y; z] st).
  assert (Ls : len_of s = 3) by reflexivity.
  destruct (setExtendedParentPointers_tree s ltac:(lia))
    as (s1 & E1 & T & L1 & S1).
  assert (Hfit1 : fits_int32 s1) by (unfold fits_int32; lia).
  pose proof (tree_parent s1 0 T ltac:(lia)) as Hp0.
  assert (E2 : findNodesToRelocate fuel maximumLength s1 = Ret (1, s1)).
  { unfold findNodesToRelocate. rewrite run_array_length.
    destruct fuel as [|fuel]; [lia|]. simpl fntr_loop.
    replace (len_of s1 - 2) with 1 by lia.
    rewrite andb_false_r. reflexivity. }
  rewrite (alloc_three_passes fuel maximumLength s s1 s1 1 (slot s1 0)
             ltac:(lia) E1 E2 (slot_lookup s1 0 ltac:(lia))).
  change (Z.rem (slot s1 0) (len_of s1)) with (parent s1 0).
  destruct (parent s1 0 >=? 1) eqn:Ec; [|apply geb_false in Ec; lia].
  destruct (allocateNodeLengths_tree s1 fuel T Hfit1 ltac:(lia))
    as (s' & E & L & S & Tl & W).
  rewrite E. f_equal. f_equal.
  destruct s' as [out st']. cbn [stray] in S.
  assert (Lo : length out = 3%nat).
  { rewrite L1, Ls in L. unfold len_of in L. cbn [elems] in L. lia. }
  destruct out as [|a [|b [|c [|e out]]]]; simpl in Lo; try lia.
  replace (len_of s1 - 1) with 2 in Tl, W by lia.
  destruct (Tl 0 ltac:(lia) ltac:(unfold len_of; simpl; lia)) as [A1 A2].
  destruct (Tl 1 ltac:(lia) ltac:(unfold len_of; simpl; lia)) as [B1 B2].
  destruct (Tl 2 ltac:(lia) ltac:(unfold len_of; simpl; lia)) as [C1 _].
  specialize (A2 ltac:(unfold len_of; simpl; lia)).
  specialize (B2 ltac:(unfold len_of; simpl; lia)).
  change (1 <= a <= 2) in A1. change (b <= a) in A2.
  change (1 <= b <= 2) in B1. change (c <= b) in B2.
  change (1 <= c <= 2) in C1.
  change (2 ^ (2 - a) + (2 ^ (2 - b) + (2 ^ (2 - c) + 0)) = 4) in W.
  assert (Ha : a = 1 \/ a = 2) by lia.
  assert (Hb : b = 1 \/ b = 2) by lia.
  assert (Hc : c = 1 \/ c = 2) by lia.
  rewrite S, S1.
  destruct Ha as [-> | ->], Hb as [-> | ->], Hc as [-> | ->];
    try lia; try reflexivity; vm_compute in W; discriminate.
Qed.

Lemma three_slots_witness :
  allocateHuffmanCodeLengths 3 0 (Buffer [9; 4; 7] [])
  = Ret (tt, Buffer [2; 2; 1] []).
Proof. apply (three_slots 3 0 9 4 7 []). lia. Defined.

(** X19.  The Kraft sum is [1] exactly when no store went below the
    buffer.  On frequencies in any order, two or more and fewer than
    [2^30], with [maximumLength] at least [ceil(log2(n))], the run returns
    with enough fuel, and the lengths it leaves satisfy Kraft equality if
    and only if it made no store at a negative index; when it made one,
    the Kraft sum is above [1]: the lengths, weighted at the scale
    [2 ^ maximumLength], add up to more than [2 ^ maximumLength]. *)
Theorem kraft_equality_iff_no_stray_store
    (l : list Z) (maximumLength : Z) (fuel : nat) :
  (2 <= length l)%nat -> Z.of_nat (length l) < 2 ^ 30 ->
  long_enough maximumLength l -> (length l <= fuel)%nat ->
  exists out st,
    allocateHuffmanCodeLengths fuel maximumLength (of_list l)
      = Ret (tt, Buffer out st) /\
    length out = length l /\
    (kraft_equality out <-> st = []) /\
    (st <> [] -> 2 ^ maximumLength < kraft_scaled maximumLength out).
Proof.
  intros Hn Hfit Hlong Hfuel.
  destruct l as [|x [|y [|z l]]]; simpl in Hn; try lia.
  - exists [1; 1], (@nil (Z * Z)).
    split; [reflexivity|]. split; [reflexivity|].
    split; [|intros Hne; contradiction].
    split; [reflexivity|]. intros _.
    split; [repeat constructor; lia | reflexivity].
  - remember (x :: y :: z :: l) as l3 eqn:El3.
    assert (Hl3 : (3 <= length l3)%nat) by (subst l3; simpl; lia).
    clear El3 Hn.
    pose proof (long_enough_pow l3 maximumLength Hlong ltac:(lia)) as Hpow.
    assert (Ll : len_of (of_list l3) = Z.of_nat (length l3))
      by reflexivity.
    destruct (alloc_kraft (of_list l3) fuel maximumLength)
      as (s' & E & L & K & X); unfold fits_int32; rewrite ?Ll; try lia.
    destruct s' as [out st]. exists out, st.
    split; [exact E|].
    rewrite Ll in L. unfold len_of in L. cbn [elems] in L.
    split; [lia|]. split; [exact K | exact X].
Qed.

Lemma kraft_equality_iff_no_stray_store_witness :
  exists out st,
    allocateHuffmanCodeLengths 8 3 (of_list [1; 1; 3; 5; 8; 13; 22; 35])
      = Ret (tt, Buffer out st) /\
    length out = length [1; 1; 3; 5; 8; 13; 22; 35] /\
    (kraft_equality out <-> st = []) /\
    (st <> [] -> 2 ^ 3 < kraft_scaled 3 out).
Proof.
  apply (kraft_equality_iff_no_stray_store
           [1; 1; 3; 5; 8; 13; 22; 35] 3 8).
  - simpl. lia.
  - simpl. lia.
  - unfold long_enough. vm_compute. discriminate.
  - simpl. lia.
Defined.

(** X20.  Only the proportions of the frequencies count.  On frequencies
    in any order, one or more and fewer than [2^30], that are not negative,
    with [maximumLength] at least [ceil(log2(n))] and a constant [c > 0]
    such that [c] times the sum of the frequencies is [2^53] at most, and
    with any addition [plus] that is exact up to [2^53]: the run on the
    frequencies all multiplied by [c] returns the buffer that the run on
    the frequencies themselves returns. *)
Theorem scaling_keeps_lengths
    (plus : Z -> Z -> Z) (c : Z) (l : list Z) (maximumLength : Z)
    (fuel : nat) :
  adds_exactly plus -> 0 < c ->
  (1 <= length l)%nat -> Z.of_nat (length l) < 2 ^ 30 ->
  Forall (fun x => 0 <= x) l -> c * total l <= 2 ^ 53 ->
  long_enough maximumLength l -> (length l <= fuel)%nat ->
  exists out st,
    allocateHuffmanCodeLengths_with plus fuel maximumLength (of_list l)
      = Ret (tt, Buffer out st) /\
    allocateHuffmanCodeLengths_with plus fuel maximumLength
      (of_list (map (Z.mul c) l)) = Ret (tt, Buffer out st).
Proof.
  intros Hplus Hc Hn Hfit Hl Ht Hlong Hfuel.
  pose proof (total_nonneg l Hl) as Hz.
  unfold of_list.
  rewrite (alloc_with_exact plus l [] fuel maximumLength Hplus Hl)
    by nia.
  rewrite (alloc_with_exact plus (map (Z.mul c) l) [] fuel maximumLength
             Hplus).
  2:{ apply nonneg_map; assumption. }
  2:{ rewrite total_map. exact Ht. }
  destruct l as [|x [|y [|z l]]]; [simpl in Hn; lia| | |].
  - exists [1], (@nil (Z * Z)). split; reflexivity.
  - exists [1; 1], (@nil (Z * Z)). split; reflexivity.
  - remember (x :: y :: z :: l) as l3 eqn:El3.
    assert (Hl3 : (3 <= length l3)%nat) by (subst l3; simpl; lia).
    clear El3 Hn.
    pose proof (long_enough_pow l3 maximumLength Hlong ltac:(lia)) as Hpow.
    destruct (alloc_scaled c l3 [] fuel maximumLength Hc Hl3 Hfit Hpow Hfuel)
      as ([out st] & E & Et).
    exists out, st. split; [exact E | exact Et].
Qed.

Lemma scaling_keeps_lengths_witness :
  exists out st,
    allocateHuffmanCodeLengths_with double_add 8 4
      (of_list [1; 1; 3; 5; 8; 13; 22; 35]) = Ret (tt, Buffer out st) /\
    allocateHuffmanCodeLengths_with double_add 8 4
      (of_list (map (Z.mul 3) [1; 1; 3; 5; 8; 13; 22; 35]))
    = Ret (tt, Buffer out st).
Proof.
  apply (scaling_keeps_lengths double_add 3 [1; 1; 3; 5; 8; 13; 22; 35] 4 8).
  - exact double_add_exact.
  - lia.
  - simpl. lia.
  - simpl. lia.
  - repeat constructor; lia.
  - vm_compute. discriminate.
  - unfold long_enough. vm_compute. discriminate.
  - simpl. lia.
Defined.

(** X21.  How far the stores below the buffer go.  On frequencies in any
    order, one or more and fewer than [2^30], with [maximumLength] at least
    [ceil(log2(n))], the run makes two stores outside the buffer at most,
    and only at the indices [-1] and [-2]. *)
Theorem stray_stores_are_few
    (l : list Z) (maximumLength : Z) (fuel : nat) :
  (1 <= length l)%nat -> Z.of_nat (length l) < 2 ^ 30 ->
  long_enough maximumLength l -> (length l <= fuel)%nat ->
  exists out st,
    allocateHuffmanCodeLengths fuel maximumLength (of_list l)
      = Ret (tt, Buffer out st) /\
    (length st <= 2)%nat /\ Forall (fun e => -2 <= fst e <= -1) st.
Proof.
  intros Hn Hfit Hlong Hfuel.
  destruct l as [|x [|y [|z l]]]; [simpl in Hn; lia| | |].
  - exists [1], (@nil (Z * Z)).
    split; [reflexivity|]. split; [simpl; lia | constructor].
  - exists [1; 1], (@nil (Z * Z)).
    split; [reflexivity|]. split; [simpl; lia | constructor].
  - remember (x :: y :: z :: l) as l3 eqn:El3.
    assert (Hl3 : (3 <= length l3)%nat) by (subst l3; simpl; lia).
    clear El3 Hn.
    pose proof (long_enough_pow l3 maximumLength Hlong ltac:(lia)) as Hpow.
    assert (Ll : len_of (of_list l3) = Z.of_nat (length l3))
      by reflexivity.
    destruct (alloc_stray_few (of_list l3) fuel maximumLength)
      as (s' & new & E & En & Ln & Fn); unfold fits_int32; rewrite ?Ll;
      try lia.
    destruct s' as [out st]. cbn [stray of_list] in En.
    rewrite app_nil_r in En. subst st.
    exists out, new. split; [exact E|]. split; [exact Ln | exact Fn].
Qed.

Lemma stray_stores_are_few_witness :
  exists out st,
    allocateHuffmanCodeLengths 8 3 (of_list [1; 1; 3; 5; 8; 13; 22; 35])
      = Ret (tt, Buffer out st) /\
    (length st <= 2)%nat /\ Forall (fun e => -2 <= fst e <= -1) st.
Proof.
  apply (stray_stores_are_few [1; 1; 3; 5; 8; 13; 22; 35] 3 8).
  - simpl. lia.
  - simpl. lia.
  - unfold long_enough. vm_compute. discriminate.
  - simpl. lia.
Defined.

(** X22.  What the entry point hands to the limited assigner.  On three
    slots or more and fewer than [2^30], with [maximumLength] at least
    [ceil(log2(n))], [s1] the buffer after pass 1 and [nodesToRelocate] the
    result of pass 2: when the limited assigner is chosen
    ([array[0] % n < nodesToRelocate]), [nodesToRelocate] lies between [2]
    and the root [n - 2], and [insertDepth = maximumLength -
    fls (nodesToRelocate - 1)] is never negative and is below
    [maximumLength]; it is [1] or more when [2 * n <= 2 ^ maximumLength]. *)
Theorem relocation_arguments
    (s s1 : buffer) (fuel : nat) (maximumLength nodesToRelocate : Z) :
  3 <= len_of s -> fits_int32 s -> (Z.to_nat (len_of s) <= fuel)%nat ->
  long_enough maximumLength (elems s) ->
  setExtendedParentPointers s = Ret (tt, s1) ->
  findNodesToRelocate fuel maximumLength s1 = Ret (nodesToRelocate, s1) ->
  parent s1 0 < nodesToRelocate ->
  2 <= nodesToRelocate <= len_of s - 2 /\
  0 <= maximumLength - fls (nodesToRelocate - 1) < maximumLength /\
  (2 * len_of s <= 2 ^ maximumLength ->
   1 <= maximumLength - fls (nodesToRelocate - 1)).
Proof.
  intros Hn Hfit Hfuel Hlong E1 E2 Hc.
  assert (Hpow : len_of s <= 2 ^ maximumLength).
  { apply long_enough_pow; [exact Hlong | unfold len_of in Hn; lia]. }
  destruct (setExtendedParentPointers_tree s Hn) as (s2 & E1' & T & L1 & _).
  rewrite E1 in E1'. injection E1' as <-.
  assert (Hfit1 : fits_int32 s1) by (unfold fits_int32 in *; lia).
  destruct (findNodesToRelocate_spec s1 fuel maximumLength T Hfit1
              ltac:(lia)) as (j & E2' & Hj1 & Hj2).
  rewrite E2 in E2'. injection E2' as Er. subst nodesToRelocate.
  destruct (relocation_setting s1 maximumLength j T Hfit1 ltac:(lia)
              Hj1 Hj2 Hc) as (_ & Hr & Hins & Hwidth & _ & _ & Hone).
  split; [lia|]. split; [lia|]. intros Hhalf. apply Hone. lia.
Qed.

Lemma relocation_arguments_witness :
  2 <= 5 <= len_of (of_list [1; 1; 3; 5; 8; 13; 22; 35]) - 2 /\
  0 <= 3 - fls (5 - 1) < 3 /\
  (2 * len_of (of_list [1; 1; 3; 5; 8; 13; 22; 35]) <= 2 ^ 3 ->
   1 <= 3 - fls (5 - 1)).
Proof.
  apply (relocation_arguments
           (of_list [1; 1; 3; 5; 8; 13; 22; 35])
           (of_list [1; 10; 11; 12; 13; 14; 88; 35]) 8 3 5).
  - vm_compute. discriminate.
  - unfold fits_int32. vm_compute. reflexivity.
  - vm_compute. lia.
  - unfold long_enough. vm_compute. discriminate.
  - reflexivity.
  - reflexivity.
  - vm_compute. reflexivity.
Defined.
